(** * MindCanvus: friend-request state machine, scheduled publisher,
    likes, single-post fetch, direct messages, comment threads, the follow
    graph and the route tables

    A shallow embedding of the backend route handlers and model methods of
    the MindCanvus blogging platform, with the properties its specification
    states about them.

    Conventions of the embedding.
    - A MongoDB collection is a finite map from document ids to documents.
      [Model.findById(id)] is the map lookup, [doc.save()] stores the
      document under the id it was loaded with; where a handler can load
      one record twice, a [save] applies the changes made to its copy.
    - A handler is a function from the request parameters and the
      collections to the JSON response and the collections afterwards.
    - An ObjectId is the string [toString()] gives for it; the handlers
      compare ids through that string. Where a handler both compares a
      path parameter as a string and hands it to [findById], the parameter
      is an [IdParam]: its spelling and the ObjectId it casts to.
    - Dates are integers (milliseconds since the epoch).
    - A JavaScript string is a [string]; what the handlers compute on
      strings beyond equality ([trim], the two length measures) is the
      interface [JsString].
    - A [page] or [limit] of a query string is the integer it spells, or
      absent. The handlers compute on it as a double; the integer
      arithmetic of the embedding is that computation on the safe integers
      ([Paging.safe_integer]).
    - Store reads and writes succeed, except where the handler's own
      request makes one fail (a cast, a validator of the schema, the version
      check of a second [save] of one record) and in the publisher, where
      the behaviour on a failing [save] is what is studied. *)

From Stdlib Require Import ZArith.
From stdpp Require Import gmap strings list fin_maps sorting.

Open Scope string_scope.
Open Scope list_scope.

Definition UserId := string.
Definition PostId := string.

(** The status code and the [message] field of a JSON response. *)
Record Response := { http_status : nat; message : string }.

#[global] Instance Response_eq_dec : EqDecision Response.
Proof. solve_decision. Defined.

(** A path parameter that names a document. [spelling] is the string of
    the request, which [===] and [includes] compare with the [toString()]
    of a stored id; [objectId] is the ObjectId [findById] casts that string
    to, [None] when the cast fails and [findById] throws. The cast ignores
    the case of the hexadecimal digits, the comparisons do not: one
    ObjectId has several spellings. *)
Record IdParam := { spelling : string; objectId : option string }.

(** The parameter that spells an id as [toString()] does. *)
Definition stored (id : string) : IdParam :=
  {| spelling := id; objectId := Some id |}.

(** The parameter that spells the id [id] otherwise, as the string
    [as_sent]. *)
Definition respelled (id as_sent : string) : IdParam :=
  {| spelling := as_sent; objectId := Some id |}.

(** The string operations the handlers use. [trim] is
    [String.prototype.trim], which validator's [trim()] sanitizer and a
    schema's [trim: true] setter both amount to: it strips the white space
    of Unicode at both ends. [chars] is the measure of validator's
    [isLength], which counts a surrogate pair once; [units] is [.length],
    the number of UTF-16 code units, which a schema's [maxlength] reads. *)
Class JsString := {
  trim : string → string;
  chars : string → nat;
  units : string → nat
}.

Fixpoint ascii_ltrim (s : string) : string :=
  match s with
  | String a s' => if Ascii.is_space a then ascii_ltrim s' else s
  | EmptyString => EmptyString
  end.

(** The operations on the strings of the ASCII range, where a character is
    one code unit. *)
Definition ascii_strings : JsString :=
  {| trim := λ s, String.rev (ascii_ltrim (String.rev (ascii_ltrim s)));
     chars := String.length;
     units := String.length |}.

(** ** routes/friends.js over the friend fields of models/User *)
Module Friends.

Inductive RequestStatus := pending | accepted | rejected.

#[global] Instance RequestStatus_eq_dec : EqDecision RequestStatus.
Proof. solve_decision. Defined.

(** An element of [friendRequests]. *)
Record FriendRequest := { from : UserId; status : RequestStatus }.

#[global] Instance FriendRequest_eq_dec : EqDecision FriendRequest.
Proof. solve_decision. Defined.

(** The fields of a user document the friend routes read and write. *)
Record User := { friends : list UserId; friendRequests : list FriendRequest }.

#[global] Instance User_eq_dec : EqDecision User.
Proof. solve_decision. Defined.

(** [friendRequests.find(request => request.from.toString() === id)],
    with the index of the element found. *)
Definition find_request (id : UserId) (l : list FriendRequest)
  : option (nat * FriendRequest) :=
  list_find (λ request, from request = id) l.

(** [friendRequests.filter(request => request.from.toString() !== id)] *)
Definition without_requests_from (id : UserId) (l : list FriendRequest)
  : list FriendRequest :=
  filter (λ request, from request ≠ id) l.

(** [friends.filter(id => id.toString() !== other)] *)
Definition without_friend (other : UserId) (l : list UserId) : list UserId :=
  filter (λ id, id ≠ other) l.

(** *** Responses *)

Definition cannot_request_yourself : Response :=
  {| http_status := 400; message := "You cannot send friend request to yourself" |}.
Definition user_not_found : Response :=
  {| http_status := 404; message := "User not found" |}.
Definition current_user_not_found : Response :=
  {| http_status := 404; message := "Current user not found" |}.
Definition already_friends : Response :=
  {| http_status := 400; message := "Already friends with this user" |}.
Definition request_already_sent : Response :=
  {| http_status := 400; message := "Friend request already sent" |}.
Definition request_sent : Response :=
  {| http_status := 200; message := "Friend request sent successfully" |}.
Definition request_not_found : Response :=
  {| http_status := 404; message := "Friend request not found" |}.
Definition request_already_processed : Response :=
  {| http_status := 400; message := "Friend request already processed" |}.
Definition users_already_friends : Response :=
  {| http_status := 400; message := "Users are already friends" |}.
Definition request_accepted : Response :=
  {| http_status := 200; message := "Friend request accepted successfully" |}.
Definition request_rejected : Response :=
  {| http_status := 200; message := "Friend request rejected successfully" |}.
Definition not_friends : Response :=
  {| http_status := 400; message := "Not friends with this user" |}.
Definition friend_removed : Response :=
  {| http_status := 200; message := "Friend removed successfully" |}.
Definition request_cancelled : Response :=
  {| http_status := 200; message := "Friend request cancelled successfully" |}.
(** The [catch] branch of every handler; reading a field of a document
    that [findById] did not find throws into it. *)
Definition server_error : Response :=
  {| http_status := 500; message := "Server error" |}.

(** The error names of the specification. *)
Definition InvalidTarget := cannot_request_yourself.
Definition NotFound := user_not_found.
Definition AlreadyFriends := already_friends.
Definition DuplicateRequest := request_already_sent.

(** *** Handlers

    [me] is [req.user._id], the second argument is [req.params.userId]. *)

(** POST /api/friends/request/:userId. The self check and
    [friends.includes] compare the parameter as spelled; [findById] casts
    it, and throws into the [catch] branch when it is no ObjectId. *)
Definition send_request (me : UserId) (userId : IdParam) (db : gmap UserId User)
  : Response * gmap UserId User :=
  if decide (spelling userId = me) then (cannot_request_yourself, db)
  else match objectId userId with
  | None => (server_error, db)
  | Some target =>
    match db !! target with
    | None => (user_not_found, db)
    | Some targetUser =>
      match db !! me with
      | None => (server_error, db)
      | Some currentUser =>
        if decide (spelling userId ∈ friends currentUser)
        then (already_friends, db)
        else match find_request me (friendRequests targetUser) with
        | Some _ => (request_already_sent, db)
        | None =>
          let targetUser' :=
            {| friends := friends targetUser;
               friendRequests :=
                 friendRequests targetUser
                 ++ [{| from := me; status := pending |}] |} in
          (request_sent, <[target := targetUser']> db)
        end
      end
    end
  end.

(** [friends.push(id)] on a loaded record. *)
Definition push_friend (id : UserId) (u : User) : User :=
  {| friends := friends u ++ [id]; friendRequests := friendRequests u |}.

(** PUT /api/friends/accept/:userId. [findById] casts the parameter; the
    search of the request, the filter and [friends.includes] compare it as
    spelled. The handler loads the caller's record and the requester's and
    saves both, the caller's first; a [save] sends the changes made to the
    loaded copy, a push onto [friends] as a push and the filtered
    [friendRequests] as the new value. When the parameter casts to the
    caller's own id the two copies are of one record, which gets both
    pushes. *)
Definition accept_request (me : UserId) (userId : IdParam) (db : gmap UserId User)
  : Response * gmap UserId User :=
  match objectId userId with
  | None => (server_error, db)
  | Some requester =>
    match db !! requester with
    | None => (user_not_found, db)
    | Some requestingUser =>
      match db !! me with
      | None => (current_user_not_found, db)
      | Some currentUser =>
        match find_request (spelling userId) (friendRequests currentUser) with
        | None => (request_not_found, db)
        | Some (_, friendRequest) =>
          if decide (status friendRequest ≠ pending)
          then (request_already_processed, db)
          else if decide (spelling userId ∈ friends currentUser
                          ∨ me ∈ friends requestingUser)
          then (users_already_friends, db)
          else
            let currentUser' :=
              {| friends := friends currentUser ++ [requester];
                 friendRequests :=
                   without_requests_from (spelling userId)
                     (friendRequests currentUser) |} in
            (request_accepted,
             alter (push_friend me) requester (<[me := currentUser']> db))
        end
      end
    end
  end.

(** PUT /api/friends/reject/:userId *)
Definition reject_request (me userId : UserId) (db : gmap UserId User)
  : Response * gmap UserId User :=
  match db !! me with
  | None => (server_error, db)
  | Some currentUser =>
    match find_request userId (friendRequests currentUser) with
    | None => (request_not_found, db)
    | Some (i, friendRequest) =>
      if decide (status friendRequest ≠ pending)
      then (request_already_processed, db)
      else
        let currentUser' :=
          {| friends := friends currentUser;
             friendRequests :=
               <[i := {| from := from friendRequest; status := rejected |}]>
                 (friendRequests currentUser) |} in
        (request_rejected, <[me := currentUser']> db)
    end
  end.

(** DELETE /api/friends/:userId *)
Definition remove_friend (me userId : UserId) (db : gmap UserId User)
  : Response * gmap UserId User :=
  match db !! userId with
  | None => (user_not_found, db)
  | Some friendUser =>
    match db !! me with
    | None => (server_error, db)
    | Some currentUser =>
      if decide (userId ∉ friends currentUser) then (not_friends, db)
      else
        let currentUser' :=
          {| friends := without_friend userId (friends currentUser);
             friendRequests := friendRequests currentUser |} in
        let friendUser' :=
          {| friends := without_friend me (friends friendUser);
             friendRequests := friendRequests friendUser |} in
        (friend_removed, <[userId := friendUser']> (<[me := currentUser']> db))
    end
  end.

(** DELETE /api/friends/request/:userId *)
Definition cancel_request (me userId : UserId) (db : gmap UserId User)
  : Response * gmap UserId User :=
  match db !! userId with
  | None => (user_not_found, db)
  | Some targetUser =>
    let targetUser' :=
      {| friends := friends targetUser;
         friendRequests := without_requests_from me (friendRequests targetUser) |} in
    (request_cancelled, <[userId := targetUser']> db)
  end.

End Friends.

(** ** Likes: the [likes] array, [likesCount], [isLikedBy] and [toggleLike]
    of models/Comment.js *)
Module Likes.

(** An element of [likes]; [createdAt] defaults to [Date.now]. *)
Record Like := { user : UserId; createdAt : Z }.

#[global] Instance Like_eq_dec : EqDecision Like.
Proof. solve_decision. Defined.

(** The virtual [likesCount]: [this.likes.length]. *)
Definition likesCount (likes : list Like) : nat := List.length likes.

(** [this.likes.some(like => like.user.toString() === userId.toString())] *)
Definition isLikedBy (userId : UserId) (likes : list Like) : bool :=
  bool_decide (Exists (λ like, user like = userId) likes).

(** [toggleLike(userId)]: [findIndex], then [splice(likeIndex, 1)] and
    [false], or [push({ user: userId })] and [true]. The result is the
    returned boolean and [this.likes] afterwards; [now] is the [Date.now]
    a pushed element gets. *)
Definition toggleLike (userId : UserId) (now : Z) (likes : list Like)
  : bool * list Like :=
  match list_find (λ like, user like = userId) likes with
  | Some (likeIndex, _) => (false, delete likeIndex likes)
  | None => (true, likes ++ [{| user := userId; createdAt := now |}])
  end.

(** The users of a [likes] array, in order. *)
Definition likers (likes : list Like) : list UserId := user <$> likes.

End Likes.

(** ** The post document (models/Post, as routes/posts.js and server.js
    use it) *)
Module PostModel.

Inductive PostStatus := draft | published | scheduled.

#[global] Instance PostStatus_eq_dec : EqDecision PostStatus.
Proof. solve_decision. Defined.

Record Post := {
  author : UserId;
  title : string;
  content : string;
  status : PostStatus;
  scheduledFor : option Z;
  publishedAt : option Z;
  views : nat;
  likes : list Likes.Like;
  isPublic : bool;
  allowComments : bool
}.

#[global] Instance Post_eq_dec : EqDecision Post.
Proof. solve_decision. Defined.

Definition set_likes (likes' : list Likes.Like) (post : Post) : Post :=
  {| author := author post; title := title post; content := content post;
     status := status post; scheduledFor := scheduledFor post;
     publishedAt := publishedAt post; views := views post; likes := likes';
     isPublic := isPublic post; allowComments := allowComments post |}.

(** Modelled from the spec: [incrementViews] is a method of models/Post.js,
    which is not among the sources. "views (monotonic counter)",
    "increment view counter (fire-and-forget, not rate-limited per viewer)":
    the counter goes up by one and the document is saved. *)
Definition incrementViews (post : Post) : Post :=
  {| author := author post; title := title post; content := content post;
     status := status post; scheduledFor := scheduledFor post;
     publishedAt := publishedAt post; views := S (views post);
     likes := likes post; isPublic := isPublic post;
     allowComments := allowComments post |}.

(** Modelled from the spec: [toggleLike] and [likesCount] of a post are in
    models/Post.js, which is not among the sources. "toggle like (idempotent
    flip, returns new boolean state + count)": they are the methods of the
    same names of models/Comment.js. *)
Definition toggleLike (userId : UserId) (now : Z) (post : Post) : bool * Post :=
  let '(isLiked, likes') := Likes.toggleLike userId now (likes post) in
  (isLiked, set_likes likes' post).

Definition likesCount (post : Post) : nat := Likes.likesCount (likes post).

End PostModel.

(** ** The scheduled-post publisher of server.js *)
Module Publisher.
Import PostModel.

(** A post the query of a tick at [now] selects. *)
Definition is_due (now : Z) (post : Post) : bool :=
  bool_decide (status post = scheduled)
  && match scheduledFor post with
     | Some t => bool_decide (t ≤ now)%Z
     | None => false
     end.

(** Modelled from the spec: [getScheduledPostsToPublish] is a static of
    models/Post.js, which is not among the sources. "query all posts with
    status=scheduled and scheduledFor <= now". *)
Definition getScheduledPostsToPublish (now : Z) (db : gmap PostId Post)
  : list (PostId * Post) :=
  map_to_list (filter (λ kp, is_due now kp.2) db).

(** [post.status = 'published'; post.publishedAt = new Date()] *)
Definition publish (now : Z) (post : Post) : Post :=
  {| author := author post; title := title post; content := content post;
     status := published; scheduledFor := scheduledFor post;
     publishedAt := Some now; views := views post; likes := likes post;
     isPublic := isPublic post; allowComments := allowComments post |}.

(** What a tick writes to the console. *)
Inductive LogLine :=
| published_scheduled_post (id : PostId)
| error_in_publisher (id : PostId).

#[global] Instance LogLine_eq_dec : EqDecision LogLine.
Proof. solve_decision. Defined.

(** The [for ... of] loop inside the [try]. [save_ok id] tells whether
    [post.save()] of the post [id] succeeds; a failing [save] throws, which
    leaves the loop for the [catch] around it. A tick is an instant: every
    [new Date()] of it reads [now]. *)
Fixpoint publish_loop (save_ok : PostId → bool) (now : Z)
    (postsToPublish : list (PostId * Post)) (db : gmap PostId Post)
    (log : list LogLine) : gmap PostId Post * list LogLine :=
  match postsToPublish with
  | [] => (db, log)
  | (id, post) :: rest =>
    if save_ok id
    then publish_loop save_ok now rest (<[id := publish now post]> db)
           (log ++ [published_scheduled_post id])
    else (db, log ++ [error_in_publisher id])
  end.

(** The callback of [cron.schedule('* * * * *', ...)]. *)
Definition tick (save_ok : PostId → bool) (now : Z) (db : gmap PostId Post)
  : gmap PostId Post * list LogLine :=
  publish_loop save_ok now (getScheduledPostsToPublish now db) db [].

End Publisher.

(** ** routes/posts.js: single post and like *)
Module PostRoutes.
Import PostModel.

Definition post_not_found : Response :=
  {| http_status := 404; message := "Post not found" |}.

(** What the handler can see of the caller: the route is mounted without
    [protect], so a bearer token, present or not, is never read. *)
Record Caller := { authorization : option string }.

Inductive GetPostResponse :=
| get_post_failed (r : Response)
| get_post_success (post : Post).

(** The [catch] branch of the handler. *)
Definition get_post_error : Response :=
  {| http_status := 500; message := "Server error" |}.

(** GET /api/posts/:id. [findById] casts the path segment and throws into
    the [catch] branch when it is no ObjectId; the post is saved under its
    own id. The [comments] field of the response is left out. *)
Definition get_post (caller : Caller) (id : IdParam) (db : gmap PostId Post)
  : GetPostResponse * gmap PostId Post :=
  match objectId id with
  | None => (get_post_failed get_post_error, db)
  | Some _id =>
    match db !! _id with
    | None => (get_post_failed post_not_found, db)
    | Some post =>
      let post' := incrementViews post in
      (get_post_success post', <[_id := post']> db)
    end
  end.

Inductive LikeResponse :=
| like_failed (r : Response)
| like_success (message : string) (isLiked : bool) (likesCount : nat).

#[global] Instance LikeResponse_eq_dec : EqDecision LikeResponse.
Proof. solve_decision. Defined.

(** POST /api/posts/:id/like; [me] is [req.user._id]. *)
Definition like_post (me : UserId) (id : PostId) (now : Z) (db : gmap PostId Post)
  : LikeResponse * gmap PostId Post :=
  match db !! id with
  | None => (like_failed post_not_found, db)
  | Some post =>
    let '(isLiked, post') := toggleLike me now post in
    (like_success (if isLiked then "Post liked" else "Post unliked")
       isLiked (likesCount post'),
     <[id := post']> db)
  end.

End PostRoutes.

(** ** models/Comment.js and the like route of routes/comments.js *)
Module CommentRoutes.

Definition CommentId := string.

Record Comment := {
  post : PostId;
  author : UserId;
  content : string;
  parentComment : option CommentId;
  replies : list CommentId;
  likes : list Likes.Like;
  isEdited : bool;
  editedAt : option Z;
  isDeleted : bool
}.

Definition set_likes (likes' : list Likes.Like) (comment : Comment) : Comment :=
  {| post := post comment; author := author comment;
     content := content comment; parentComment := parentComment comment;
     replies := replies comment; likes := likes';
     isEdited := isEdited comment; editedAt := editedAt comment;
     isDeleted := isDeleted comment |}.

(** [comment.toggleLike(userId)] on the document. *)
Definition toggleLike (userId : UserId) (now : Z) (comment : Comment)
  : bool * Comment :=
  let '(isLiked, likes') := Likes.toggleLike userId now (likes comment) in
  (isLiked, set_likes likes' comment).

Definition likesCount (comment : Comment) : nat :=
  Likes.likesCount (likes comment).

Definition comment_not_found : Response :=
  {| http_status := 404; message := "Comment not found" |}.

(** POST /api/comments/:id/like; [me] is [req.user._id]. *)
Definition like_comment (me : UserId) (id : CommentId) (now : Z)
    (db : gmap CommentId Comment)
  : PostRoutes.LikeResponse * gmap CommentId Comment :=
  match db !! id with
  | None => (PostRoutes.like_failed comment_not_found, db)
  | Some comment =>
    let '(isLiked, comment') := toggleLike me now comment in
    (PostRoutes.like_success
       (if isLiked then "Comment liked" else "Comment unliked")
       isLiked (likesCount comment'),
     <[id := comment']> db)
  end.

End CommentRoutes.

(** ** routes/messages.js: sending a message *)
Module Messages.

Record Message := {
  sender : UserId;
  recipient : UserId;
  content : string;
  read : bool;
  readAt : option Z;
  createdAt : Z
}.

#[global] Instance Message_eq_dec : EqDecision Message.
Proof. solve_decision. Defined.

(** [req.user] as [protect] left it: the sender's document. *)
Record ReqUser := { _id : UserId; friends : list UserId }.

Section strings.
Context `{js : JsString}.

(** The chain on [body('content')]: [notEmpty()] on the value as sent, then
    [trim()], then [isLength({ max: 2000 })] on the trimmed value. *)
Definition validation_errors (content : string) : list string :=
  (if decide (content = "") then ["Message content is required"] else [])
  ++ (if decide (2000 < chars (trim content))%nat
      then ["Message cannot exceed 2000 characters"] else []).

(** The validators of the [content] path of the message schema ([required],
    [maxlength]), run by [Message.create] after the [trim] setter. *)
Definition schema_accepts (content : string) : bool :=
  bool_decide (content ≠ "") && bool_decide (units content ≤ 2000)%nat.

End strings.

Definition validation_failed : Response :=
  {| http_status := 400; message := "Validation failed" |}.
Definition recipient_not_found : Response :=
  {| http_status := 404; message := "Recipient not found" |}.
Definition only_friends : Response :=
  {| http_status := 403; message := "You can only message your friends" |}.
Definition message_sent : Response :=
  {| http_status := 201; message := "Message sent successfully" |}.
Definition error_sending : Response :=
  {| http_status := 500; message := "Server error sending message" |}.

(** The error names of the specification. *)
Definition Forbidden := only_friends.
Definition NotFound := recipient_not_found.

(** POST /api/messages/:userId. [users] is the user collection, [messages]
    the message collection in insertion order. [findById] casts the
    parameter and throws when it is no ObjectId; the friends check compares
    it as spelled; [Message.create] casts it for the [recipient] field. *)
Definition send_message `{js : JsString} (user : ReqUser) (userId : IdParam)
    (content : string) (now : Z) (users : gmap UserId Friends.User)
    (messages : list Message)
  : Response * list Message :=
  if decide (validation_errors content ≠ []) then (validation_failed, messages)
  else
    let content := trim content in
    match objectId userId with
    | None => (error_sending, messages)
    | Some recipient_id =>
      match users !! recipient_id with
      | None => (recipient_not_found, messages)
      | Some recipient =>
        if decide (Exists (λ friend, friend = spelling userId) (friends user))
        then
          let content := trim content in
          if schema_accepts content
          then (message_sent,
                messages ++ [{| sender := _id user; recipient := recipient_id;
                                content := content; read := false;
                                readAt := None; createdAt := now |}])
          else (error_sending, messages)
        else (only_friends, messages)
      end
    end.

End Messages.

(** ** Vocabulary of the properties *)
Module FriendsProps.
Import Friends.

(** Some request of [requester] is on the record [u], whatever its status. *)
Definition has_request_from (requester : UserId) (u : User) : Prop :=
  ∃ r, r ∈ friendRequests u ∧ from r = requester.

(** A pending request of [requester] is on the record [u]. *)
Definition has_pending_from (requester : UserId) (u : User) : Prop :=
  ∃ r, r ∈ friendRequests u ∧ from r = requester ∧ status r = pending.

(** The request of [requester] that the handlers look at on the record [u]
    (the first one of the array) is pending. *)
Definition found_pending_from (requester : UserId) (u : User) : Prop :=
  ∃ i r, find_request requester (friendRequests u) = Some (i, r)
         ∧ status r = pending.

(** A record holds at most one request per sender. *)
Definition one_request_per_sender (u : User) : Prop :=
  NoDup (from <$> friendRequests u).

(** Every record of the collection holds at most one request per sender. *)
Definition one_request_per_sender_each (db : gmap UserId User) : Prop :=
  ∀ k u, db !! k = Some u → one_request_per_sender u.

(** Friend lists mirror each other over the users of the collection. *)
Definition symmetric (db : gmap UserId User) : Prop :=
  ∀ a b ua ub, db !! a = Some ua → db !! b = Some ub →
    (b ∈ friends ua ↔ a ∈ friends ub).

(** The relationship operations; the first argument is the caller. *)
Inductive Operation :=
| Send (requester : UserId) (target : IdParam)
| Accept (accepter : UserId) (requester : IdParam)
| Reject (accepter requester : UserId)
| Cancel (requester target : UserId)
| Remove (a b : UserId).

Definition perform (op : Operation) (db : gmap UserId User)
  : Response * gmap UserId User :=
  match op with
  | Send requester target => send_request requester target db
  | Accept accepter requester => accept_request accepter requester db
  | Reject accepter requester => reject_request accepter requester db
  | Cancel requester target => cancel_request requester target db
  | Remove a b => remove_friend a b db
  end.

(** The collection after a sequence of operations. *)
Definition perform_all (ops : list Operation) (db : gmap UserId User)
  : gmap UserId User :=
  foldl (λ db op, (perform op db).2) db ops.

(** *** Example collections *)

Definition new_user : User := {| friends := []; friendRequests := [] |}.

(** Two users who do not know each other yet. *)
Definition strangers : gmap UserId User :=
  <["A" := new_user]> (<["B" := new_user]> ∅).

(** A has asked B. *)
Definition asked : gmap UserId User :=
  <["A" := new_user]>
    (<["B" := {| friends := [];
                 friendRequests := [{| from := "A"; status := pending |}] |}]> ∅).

(** A has asked B and B has said no. *)
Definition refused : gmap UserId User :=
  <["A" := new_user]>
    (<["B" := {| friends := [];
                 friendRequests := [{| from := "A"; status := rejected |}] |}]> ∅).

(** A and B asked each other, and B accepted A's request: they are friends,
    and B's own request is still on A's record. *)
Definition crossed : gmap UserId User :=
  <["A" := {| friends := ["B"];
              friendRequests := [{| from := "B"; status := pending |}] |}]>
    (<["B" := {| friends := ["A"]; friendRequests := [] |}]> ∅).

(** A request of A is on A's own record. *)
Definition self_asked : gmap UserId User :=
  <["A" := {| friends := [];
              friendRequests := [{| from := "A"; status := pending |}] |}]>
    (<["B" := new_user]> ∅).

(** [crossed] after B has cancelled that request. *)
Definition crossed_cancelled : gmap UserId User :=
  <["A" := {| friends := ["B"]; friendRequests := [] |}]>
    (<["B" := {| friends := ["A"]; friendRequests := [] |}]> ∅).

End FriendsProps.

Module PublisherProps.
Import PostModel Publisher.

(** *** Example collection *)

Definition scheduled_at (t : Z) : Post :=
  {| author := "A"; title := "Later"; content := "Soon";
     status := scheduled; scheduledFor := Some t; publishedAt := None;
     views := 0; likes := []; isPublic := true; allowComments := true |}.

Definition a_draft : Post :=
  {| author := "A"; title := "Notes"; content := "Not ready";
     status := draft; scheduledFor := None; publishedAt := None;
     views := 0; likes := []; isPublic := true; allowComments := true |}.

(** Three posts due at 10 (the query lists them as p3, p1, p2), one
    scheduled for later and a draft. *)
Definition queue : gmap PostId Post :=
  <["p1" := scheduled_at 5]>
    (<["p2" := scheduled_at 7]>
       (<["p3" := scheduled_at 9]>
          (<["p4" := scheduled_at 20]> (<["p5" := a_draft]> ∅)))).

(** Every [save] succeeds. *)
Definition store_up : PostId → bool := λ _, true.

(** The [save] of p1 fails, any other succeeds. *)
Definition p1_fails : PostId → bool := λ id, bool_decide (id ≠ "p1").

End PublisherProps.

Module PostRoutesProps.
Import Likes PostModel PostRoutes.

(** *** Example collection *)

(** A published post that A has liked. *)
Definition liked_post : Post :=
  {| author := "B"; title := "Hello"; content := "First post";
     status := published; scheduledFor := None; publishedAt := Some 1%Z;
     views := 0; likes := [{| user := "A"; createdAt := 1 |}];
     isPublic := true; allowComments := true |}.

(** The same post with no like. *)
Definition unliked_post : Post := set_likes [] liked_post.

(** A draft that is not public. *)
Definition private_draft : Post :=
  {| author := "B"; title := "Notes"; content := "Not ready";
     status := draft; scheduledFor := None; publishedAt := None;
     views := 7; likes := []; isPublic := false; allowComments := false |}.

Definition blog : gmap PostId Post :=
  <["p" := liked_post]> (<["q" := unliked_post]> (<["d" := private_draft]> ∅)).

(** A request that carries no token. *)
Definition anonymous : Caller := {| authorization := None |}.

End PostRoutesProps.

Module CommentRoutesProps.
Import CommentRoutes.

(** *** Example collection *)

(** A comment that A has liked. *)
Definition liked_comment : Comment :=
  {| post := "p"; author := "B"; content := "Nice"; parentComment := None;
     replies := []; likes := [{| Likes.user := "A"; Likes.createdAt := 1 |}];
     isEdited := false; editedAt := None; isDeleted := false |}.

Definition thread : gmap CommentId Comment := <["c" := liked_comment]> ∅.

End CommentRoutesProps.

Module MessagesProps.
Import Messages.

(** *** Example collection *)

(** [req.user] of A, whose friend list names B only. *)
Definition alice : ReqUser := {| _id := "A"; friends := ["B"] |}.

(** A lists B; B does not list A, C does. *)
Definition one_sided : gmap UserId Friends.User :=
  <["A" := {| Friends.friends := ["B"]; Friends.friendRequests := [] |}]>
    (<["B" := {| Friends.friends := []; Friends.friendRequests := [] |}]>
       (<["C" := {| Friends.friends := ["A"];
                    Friends.friendRequests := [] |}]> ∅)).

End MessagesProps.

(** ** Pagination as the list routes compute it

    [page] and [limit] are the integers the query string spells, or absent. *)
Module Paging.

(** [array.slice(start, stop)]: a negative index counts from the end, and
    both are clamped to the array. *)
Definition slice {A} (start stop : Z) (l : list A) : list A :=
  let len := Z.of_nat (List.length l) in
  let k := if (start <? 0)%Z then Z.max (len + start) 0 else Z.min start len in
  let final := if (stop <? 0)%Z then Z.max (len + stop) 0 else Z.min stop len in
  take (Z.to_nat (final - k)) (drop (Z.to_nat k) l).

(** [Math.ceil(total / limit)]; with [limit] 0 the quotient is [Infinity] or
    [NaN], which the JSON response spells [null]. *)
Definition ceil_div (total limit : Z) : option Z :=
  if decide (limit = 0%Z) then None else Some (- ((- total) / limit))%Z.

(** [Number.isSafeInteger]: the integers that a digit string of the query,
    read as a number, gives exactly. On them the double arithmetic of the
    handlers ([(page - 1) * limit], [page * limit], [total / limit]) and the
    integer arithmetic below cut an array, whose length is below [2 ^ 32],
    at the same places. *)
Definition safe_integer (n : Z) : Prop :=
  (- (2 ^ 53 - 1) ≤ n ≤ 2 ^ 53 - 1)%Z.

(** A query parameter that is absent or a safe integer. *)
Definition safe_query (n : option Z) : Prop :=
  from_option safe_integer True n.

(** The [pagination] object of a response. *)
Record Pagination := {
  current : Z;
  pages : option Z;
  total : Z;
  hasNext : bool;
  hasPrev : bool
}.

Definition pagination (page limit total : Z) : Pagination :=
  {| current := page;
     pages := ceil_div total limit;
     total := total;
     hasNext := bool_decide (page * limit < total)%Z;
     hasPrev := bool_decide (page > 1)%Z |}.

End Paging.

(** ** The lists of friend requests of routes/friends.js *)
Module FriendLists.
Import Friends Paging.

Inductive RequestsResponse :=
| requests_failed (r : Response)
| requests_listed (requests : list FriendRequest) (pagination : Pagination).

(** The requests the incoming list shows: [status === 'pending'] and a
    populated [from], that is, a sender whose record exists. *)
Definition pendingRequests (db : gmap UserId User) (currentUser : User)
  : list FriendRequest :=
  filter (λ request, status request = pending ∧ is_Some (db !! from request))
    (friendRequests currentUser).

(** GET /api/friends/requests, [page = 1] and [limit = 10] by default. The
    profile fields [populate] puts in [from] are left out. *)
Definition get_requests (me : UserId) (page limit : option Z)
    (db : gmap UserId User) : RequestsResponse :=
  let page := default 1%Z page in
  let limit := default 10%Z limit in
  let skip := ((page - 1) * limit)%Z in
  match db !! me with
  | None => requests_failed user_not_found
  | Some currentUser =>
    let pending := pendingRequests db currentUser in
    let total := Z.of_nat (List.length pending) in
    requests_listed (slice skip (skip + limit) pending)
      (pagination page limit total)
  end.

(** The filter [{'friendRequests.from': me, 'friendRequests.status':
    'pending'}]: each condition holds of some element of the array, not
    necessarily the same one. *)
Definition sent_requests_filter (me : UserId) (u : User) : Prop :=
  Exists (λ request, from request = me) (friendRequests u)
  ∧ Exists (λ request, status request = pending) (friendRequests u).

#[global] Instance sent_requests_filter_dec me u :
  Decision (sent_requests_filter me u).
Proof. unfold sent_requests_filter. apply _. Defined.

(** [User.countDocuments] with that filter: the [total] of
    GET /api/friends/requests/sent. *)
Definition sent_requests_total (me : UserId) (db : gmap UserId User) : nat :=
  size (filter (λ ku, sent_requests_filter me ku.2) db).

(** What the comment of the route asks for, "users who have pending friend
    requests from the current user": the record holds a request of [me] that
    is pending. *)
Definition pending_from (me : UserId) (u : User) : Prop :=
  Exists (λ request, from request = me ∧ status request = pending)
    (friendRequests u).

#[global] Instance pending_from_dec me u : Decision (pending_from me u).
Proof. unfold pending_from. apply _. Defined.

(** The number of users on whose record a request of [me] is pending. *)
Definition awaiting_total (me : UserId) (db : gmap UserId User) : nat :=
  size (filter (λ ku, pending_from me ku.2) db).

(** The requests a response lists. *)
Definition listed (response : RequestsResponse) : list FriendRequest :=
  match response with
  | requests_listed requests _ => requests
  | requests_failed _ => []
  end.


End FriendLists.

Module FriendListsProps.
Import Friends FriendsProps FriendLists.

(** *** Example collections *)

(** B has been asked by A, C, D, E and F, in this order; B has said no to C,
    and D's account is gone. *)
Definition inbox : gmap UserId User :=
  <["B" := {| friends := [];
              friendRequests := [{| from := "A"; status := pending |};
                                 {| from := "C"; status := rejected |};
                                 {| from := "D"; status := pending |};
                                 {| from := "E"; status := pending |};
                                 {| from := "F"; status := pending |}] |}]>
    (<["A" := new_user]> (<["C" := new_user]>
       (<["E" := new_user]> (<["F" := new_user]> ∅)))).

(** Three users who do not know each other yet. *)
Definition three_strangers : gmap UserId User :=
  <["A" := new_user]> (<["B" := new_user]> (<["C" := new_user]> ∅)).

(** A asks B, B says no, then C asks B. *)
Definition refused_then_asked : gmap UserId User :=
  perform_all [Send "A" (stored "B"); Reject "B" "A"; Send "C" (stored "B")]
    three_strangers.

End FriendListsProps.

(** ** The message box: read marks, unread count, conversations

    The message collection is the list of the messages in insertion order;
    the position of a message is its identity. *)
Module MessageBox.
Import Messages Paging.

(** [message.markAsRead()] at the time [now]. *)
Definition markAsRead (now : Z) (m : Message) : Message :=
  if read m then m
  else {| sender := sender m; recipient := recipient m; content := content m;
          read := true; readAt := Some now; createdAt := createdAt m |}.

(** The filter [{sender: userId, recipient: me, read: false}]. *)
Definition unread_from (userId me : UserId) (m : Message) : Prop :=
  sender m = userId ∧ recipient m = me ∧ read m = false.

(** The filter [{recipient: me, read: false}]. *)
Definition unread_for (me : UserId) (m : Message) : Prop :=
  recipient m = me ∧ read m = false.

(** The filter [{$or: [{sender: a, recipient: b}, {sender: b, recipient: a}]}]. *)
Definition between (a b : UserId) (m : Message) : Prop :=
  (sender m = a ∧ recipient m = b) ∨ (sender m = b ∧ recipient m = a).

Definition messages_marked : Response :=
  {| http_status := 200; message := "Messages marked as read" |}.

(** PUT /api/messages/:userId/read: [Message.updateMany] sets [read] and
    [readAt] on the messages the filter selects. The [count] field of the
    response is left out. *)
Definition mark_read (me userId : UserId) (now : Z) (messages : list Message)
  : Response * list Message :=
  (messages_marked,
   (λ m, if decide (unread_from userId me m)
         then {| sender := sender m; recipient := recipient m;
                 content := content m; read := true; readAt := Some now;
                 createdAt := createdAt m |}
         else m) <$> messages).

(** GET /api/messages/unread/count: the [unreadCount] of the response. *)
Definition unread_count (me : UserId) (messages : list Message) : nat :=
  List.length (filter (unread_for me) messages).

(** [sort({ createdAt: -1 })]: newest first. The database promises no
    order among messages of the same [createdAt]; here they come as the
    merge sort leaves them. *)
Definition newer_first {A} (key : A → Message) (x y : A) : Prop :=
  (createdAt (key y) ≤ createdAt (key x))%Z.

#[global] Instance newer_first_dec {A} (key : A → Message) x y :
  Decision (newer_first key x y).
Proof. unfold newer_first. apply _. Defined.

(** The documents of the collection, each with its identity. *)
Definition documents (messages : list Message) : list (nat * Message) :=
  imap (λ i m, (i, m)) messages.

(** [Message.getConversation(userId1, userId2, { page, limit })]. A negative
    [skip] makes the query fail; [limit(0)] is no limit and a negative limit
    counts as its absolute value. *)
Definition getConversation (userId1 userId2 : UserId) (page limit : Z)
    (messages : list Message) : option (list (nat * Message)) :=
  let skip := ((page - 1) * limit)%Z in
  let found := merge_sort (newer_first snd)
                 (filter (λ d, between userId1 userId2 d.2) (documents messages)) in
  if decide (skip < 0)%Z then None
  else
    let rest := drop (Z.to_nat skip) found in
    Some (if decide (limit = 0%Z) then rest
          else take (Z.to_nat (Z.abs limit)) rest).

Inductive ConversationResponse :=
| conversation_failed (r : Response)
| conversation_page (messages : list Message) (pagination : Pagination).

(** Each document saved at its place. *)
Definition save_all (docs : list (nat * Message)) (messages : list Message)
  : list Message :=
  foldl (λ messages d, <[d.1 := d.2]> messages) messages docs.

(** GET /api/messages/:userId by the user [me], whose record exists
    ([protect] has loaded it). The handler only hands the parameter to
    queries, which cast it; [findById] throws when it is no ObjectId. The
    messages of the page that [me] had not read are marked and saved, and
    the response shows them as marked: it serialises the documents
    [markAsRead] has changed. [totalMessages], [totalPages], [currentPage],
    [hasNext] and [hasPrev] are the [total], [pages], [current], [hasNext]
    and [hasPrev] of the pagination. *)
Definition get_conversation (me : UserId) (userId : IdParam)
    (page limit : option Z) (now : Z) (users : gmap UserId Friends.User)
    (messages : list Message)
  : ConversationResponse * list Message :=
  let page := default 1%Z page in
  let limit := default 20%Z limit in
  match objectId userId with
  | None => (conversation_failed Friends.server_error, messages)
  | Some userId =>
    match users !! userId with
    | None => (conversation_failed Friends.user_not_found, messages)
    | Some _ =>
      match getConversation me userId page limit messages with
      | None => (conversation_failed Friends.server_error, messages)
      | Some found =>
        let unread (d : nat * Message) :=
          read d.2 = false ∧ recipient d.2 = me in
        let unreadMessages := filter unread found in
        let shown :=
          (λ d, if decide (unread d) then markAsRead now d.2 else d.2)
            <$> found in
        let total :=
          Z.of_nat (List.length (filter (between me userId) messages)) in
        (conversation_page shown (pagination page limit total),
         save_all ((λ d, (d.1, markAsRead now d.2)) <$> unreadMessages)
           messages)
      end
    end
  end.

(** A group of the conversation list. *)
Record Conversation := { lastMessage : Message; unreadCount : nat }.

(** The [_id] of the [$group] stage: the other party of the message. *)
Definition counterpart (me : UserId) (m : Message) : UserId :=
  if decide (sender m = me) then recipient m else sender m.

(** The [$group] stage, one document at a time: [$first] keeps the first
    document of the group, [$sum] adds 1 for a message to [me] that is not
    read. *)
Definition group_step (me : UserId) (groups : gmap UserId Conversation)
    (m : Message) : gmap UserId Conversation :=
  let unread := if decide (unread_for me m) then 1%nat else 0%nat in
  match groups !! counterpart me m with
  | None => <[counterpart me m := {| lastMessage := m; unreadCount := unread |}]> groups
  | Some g => <[counterpart me m := {| lastMessage := lastMessage g;
                                       unreadCount := unreadCount g + unread |}]> groups
  end.

(** [Message.getUserConversations(me)], the body of
    GET /api/messages/conversations: [$match], [$sort], [$group], then the
    [$lookup] of the other party with [$unwind], which drops the groups whose
    user no longer exists. The groups are keyed by [_id]; the pipeline fixes
    no order among them. *)
Definition getUserConversations (me : UserId) (users : gmap UserId Friends.User)
    (messages : list Message) : gmap UserId Conversation :=
  let matched := filter (λ m, sender m = me ∨ recipient m = me) messages in
  let sorted := merge_sort (newer_first id) matched in
  let groups := foldl (group_step me) ∅ sorted in
  filter (λ g, is_Some (users !! g.1)) groups.

(** The sum of the [unreadCount]s of a conversation list. *)
Definition unread_in (conversations : gmap UserId Conversation) : nat :=
  map_fold (λ _ g n, (unreadCount g + n)%nat) 0%nat conversations.

End MessageBox.

Module MessageBoxProps.
Import Messages.

(** *** Example collection *)

(** Five messages to and from A; A has read none of those sent to A, and
    D's account is gone. *)
Definition mailbox : list Message :=
  [ {| sender := "B"; recipient := "A"; content := "hi"; read := false;
       readAt := None; createdAt := 1 |};
    {| sender := "A"; recipient := "B"; content := "hello"; read := true;
       readAt := Some 3%Z; createdAt := 2 |};
    {| sender := "D"; recipient := "A"; content := "bye"; read := false;
       readAt := None; createdAt := 3 |};
    {| sender := "C"; recipient := "A"; content := "yo"; read := false;
       readAt := None; createdAt := 4 |};
    {| sender := "B"; recipient := "A"; content := "again"; read := false;
       readAt := None; createdAt := 5 |} ].

End MessageBoxProps.

(** ** Comment threads: adding, editing and deleting comments, and the
    deletion of a post with its comments *)
Module CommentThreads.
Import CommentRoutes.

(** [req.user] as far as these routes read it. *)
Record ReqUser := { _id : UserId; role : string }.

(** [comment.softDelete()]. *)
Definition softDelete (comment : Comment) : Comment :=
  {| post := post comment; author := author comment;
     content := "[Comment deleted]"; parentComment := parentComment comment;
     replies := replies comment; likes := likes comment;
     isEdited := isEdited comment; editedAt := editedAt comment;
     isDeleted := true |}.

(** [comment.markAsEdited()] at the time [now]. *)
Definition markAsEdited (now : Z) (comment : Comment) : Comment :=
  {| post := post comment; author := author comment;
     content := content comment; parentComment := parentComment comment;
     replies := replies comment; likes := likes comment;
     isEdited := true; editedAt := Some now;
     isDeleted := isDeleted comment |}.

Definition set_content (content' : string) (comment : Comment) : Comment :=
  {| post := post comment; author := author comment;
     content := content'; parentComment := parentComment comment;
     replies := replies comment; likes := likes comment;
     isEdited := isEdited comment; editedAt := editedAt comment;
     isDeleted := isDeleted comment |}.

(** [$push: { replies: id }]. *)
Definition push_reply (id : CommentId) (comment : Comment) : Comment :=
  {| post := post comment; author := author comment;
     content := content comment; parentComment := parentComment comment;
     replies := replies comment ++ [id]; likes := likes comment;
     isEdited := isEdited comment; editedAt := editedAt comment;
     isDeleted := isDeleted comment |}.

(** The virtual [repliesCount]. *)
Definition repliesCount (comment : Comment) : nat :=
  List.length (replies comment).

Section strings.
Context `{js : JsString}.

(** The chain on [body('content')]: [notEmpty()], then
    [isLength({ max: 1000 })]. *)
Definition content_errors (content : string) : list string :=
  (if decide (content = "") then ["Comment content is required"] else [])
  ++ (if decide (1000 < chars content)%nat
      then ["Comment cannot exceed 1000 characters"] else []).

(** The validators of the [content] path of the comment schema ([required],
    [maxlength]), which [Comment.create] and [save] run. *)
Definition schema_accepts (content : string) : bool :=
  bool_decide (content ≠ "") && bool_decide (units content ≤ 1000)%nat.

End strings.

(** The chain on [body('post')]: [notEmpty()]. *)
Definition post_errors (post : IdParam) : list string :=
  if decide (spelling post = "") then ["Post ID is required"] else [].

(** The [parentComment] field of the body: absent; 24 hexadecimal digits,
    which [isMongoId()] accepts and which spell the ObjectId [id]; or any
    other value, which [isMongoId()] refuses. *)
Inductive ParentField :=
| no_parent
| parent_id (id : CommentId)
| not_an_id.

(** The chain on [body('parentComment')]: [optional()], then
    [isMongoId()]. *)
Definition parent_errors (parentComment : ParentField) : list string :=
  match parentComment with
  | not_an_id => ["Invalid parent comment ID"]
  | _ => []
  end.

(** [parentComment || null], cast. *)
Definition parent_of (parentComment : ParentField) : option CommentId :=
  match parentComment with
  | parent_id id => Some id
  | _ => None
  end.

Definition validation_failed : Response :=
  {| http_status := 400; message := "Validation failed" |}.
Definition comments_disabled : Response :=
  {| http_status := 400; message := "Comments are disabled for this post" |}.
Definition parent_not_found : Response :=
  {| http_status := 404; message := "Parent comment not found" |}.
Definition comment_added : Response :=
  {| http_status := 201; message := "Comment added successfully" |}.
Definition not_authorized_update : Response :=
  {| http_status := 403; message := "Not authorized to update this comment" |}.
Definition comment_updated : Response :=
  {| http_status := 200; message := "Comment updated successfully" |}.
Definition not_authorized_delete : Response :=
  {| http_status := 403; message := "Not authorized to delete this comment" |}.
Definition comment_deleted : Response :=
  {| http_status := 200; message := "Comment deleted successfully" |}.
Definition not_authorized_delete_post : Response :=
  {| http_status := 403; message := "Not authorized to delete this post" |}.
Definition post_deleted : Response :=
  {| http_status := 200; message := "Post deleted successfully" |}.
(** The [catch] branches of the two handlers that write a content. *)
Definition error_adding : Response :=
  {| http_status := 500; message := "Server error adding comment" |}.
Definition error_updating : Response :=
  {| http_status := 500; message := "Server error updating comment" |}.

(** POST /api/comments with the body [{post, content, parentComment}].
    [Post.findById] casts [post] and throws when it is no ObjectId;
    [Comment.create] runs the validators of the schema and throws when they
    refuse the content. [id] is the [_id] that [Comment.create] gives the
    new comment. *)
Definition add_comment `{js : JsString} (user : ReqUser) (post : IdParam)
    (content : string) (parentComment : ParentField) (id : CommentId)
    (posts : gmap PostId PostModel.Post) (db : gmap CommentId Comment)
  : Response * gmap CommentId Comment :=
  if decide (post_errors post ++ content_errors content
             ++ parent_errors parentComment ≠ [])
  then (validation_failed, db)
  else
    match objectId post with
    | None => (error_adding, db)
    | Some post =>
      match posts !! post with
      | None => (PostRoutes.post_not_found, db)
      | Some postDoc =>
        if negb (PostModel.allowComments postDoc) then (comments_disabled, db)
        else
          let comment :=
            {| CommentRoutes.post := post; author := _id user;
               content := content; parentComment := parent_of parentComment;
               replies := []; likes := []; isEdited := false;
               editedAt := None; isDeleted := false |} in
          match parent_of parentComment with
          | None =>
            if schema_accepts content
            then (comment_added, <[id := comment]> db)
            else (error_adding, db)
          | Some parent =>
            match db !! parent with
            | None => (parent_not_found, db)
            | Some _ =>
              if schema_accepts content
              then (comment_added,
                    alter (push_reply id) parent (<[id := comment]> db))
              else (error_adding, db)
            end
          end
      end
    end.

(** PUT /api/comments/:id with the body [{content}]. [findById] casts the
    parameter; the [save] of [markAsEdited] runs the validators of the
    schema. *)
Definition update_comment `{js : JsString} (user : ReqUser) (id : IdParam)
    (content : string) (now : Z) (db : gmap CommentId Comment)
  : Response * gmap CommentId Comment :=
  if decide (content_errors content ≠ []) then (validation_failed, db)
  else
    match objectId id with
    | None => (error_updating, db)
    | Some id =>
      match db !! id with
      | None => (comment_not_found, db)
      | Some comment =>
        if decide (author comment ≠ _id user) then (not_authorized_update, db)
        else if schema_accepts content
        then (comment_updated,
              <[id := markAsEdited now (set_content content comment)]> db)
        else (error_updating, db)
      end
    end.

(** DELETE /api/comments/:id. *)
Definition delete_comment (user : ReqUser) (id : CommentId)
    (db : gmap CommentId Comment) : Response * gmap CommentId Comment :=
  match db !! id with
  | None => (comment_not_found, db)
  | Some comment =>
    if decide (author comment ≠ _id user ∧ role user ≠ "admin")
    then (not_authorized_delete, db)
    else (comment_deleted, <[id := softDelete comment]> db)
  end.

(** DELETE /api/posts/:id: [Comment.deleteMany({ post: id })], then
    [Post.findByIdAndDelete(id)]. *)
Definition delete_post (user : ReqUser) (id : PostId)
    (posts : gmap PostId PostModel.Post) (db : gmap CommentId Comment)
  : Response * gmap PostId PostModel.Post * gmap CommentId Comment :=
  match posts !! id with
  | None => (PostRoutes.post_not_found, posts, db)
  | Some post =>
    if decide (PostModel.author post ≠ _id user ∧ role user ≠ "admin")
    then (not_authorized_delete_post, posts, db)
    else (post_deleted, delete id posts,
          filter (λ c, CommentRoutes.post c.2 ≠ id) db)
  end.

(** The [total] of GET /api/comments/post/:postId:
    [countDocuments({post, parentComment: null, isDeleted: false})]. *)
Definition comments_total (postId : PostId) (db : gmap CommentId Comment) : nat :=
  size (filter (λ c, CommentRoutes.post c.2 = postId
                     ∧ parentComment c.2 = None ∧ isDeleted c.2 = false) db).

(** The [total] of GET /api/comments/:id/replies:
    [countDocuments({parentComment: id, isDeleted: false})]. *)
Definition replies_total (id : CommentId) (db : gmap CommentId Comment) : nat :=
  size (filter (λ c, parentComment c.2 = Some id ∧ isDeleted c.2 = false) db).

End CommentThreads.

Module CommentThreadsProps.
Import CommentRoutes CommentThreads.

(** [replies] and [parentComment] agree, as far as the comments they name
    exist: a reply is listed by its parent, and a listed comment names the
    lister as its parent. *)
Definition linked (db : gmap CommentId Comment) : Prop :=
  (∀ id c p pc, db !! id = Some c → parentComment c = Some p →
     db !! p = Some pc → id ∈ replies pc)
  ∧ (∀ p pc id c, db !! p = Some pc → id ∈ replies pc →
       db !! id = Some c → parentComment c = Some p).

(** No comment is stored under [id] and none names it: the id was never
    given out. *)
Definition unused (id : CommentId) (db : gmap CommentId Comment) : Prop :=
  db !! id = None
  ∧ ∀ k c, db !! k = Some c → parentComment c ≠ Some id ∧ id ∉ replies c.

(** The operations on comments and the deletion of a post; the first
    argument is the caller. *)
Inductive Operation :=
| Add (user : ReqUser) (post : IdParam) (content : string)
      (parentComment : ParentField) (id : CommentId)
| Update (user : ReqUser) (id : IdParam) (content : string) (now : Z)
| Delete (user : ReqUser) (id : CommentId)
| Like (me : UserId) (id : CommentId) (now : Z)
| DeletePost (user : ReqUser) (id : PostId).

(** The post and comment collections. *)
Definition Store : Type := gmap PostId PostModel.Post * gmap CommentId Comment.

Definition perform `{js : JsString} (op : Operation) (store : Store) : Store :=
  match op with
  | Add user post content parentComment id =>
    (store.1, (add_comment user post content parentComment id store.1 store.2).2)
  | Update user id content now =>
    (store.1, (update_comment user id content now store.2).2)
  | Delete user id => (store.1, (delete_comment user id store.2).2)
  | Like me id now => (store.1, (like_comment me id now store.2).2)
  | DeletePost user id =>
    let result := delete_post user id store.1 store.2 in
    (result.1.2, result.2)
  end.

(** The collections after a sequence of operations. *)
Definition perform_all `{js : JsString} (ops : list Operation) (store : Store)
  : Store :=
  foldl (λ store op, perform op store) store ops.

(** The ids the operations give out are new when they are given out. *)
Fixpoint new_ids `{js : JsString} (ops : list Operation) (store : Store)
  : Prop :=
  match ops with
  | [] => True
  | op :: ops =>
    match op with
    | Add _ _ _ _ id => unused id store.2
    | _ => True
    end ∧ new_ids ops (perform op store)
  end.

(** *** Example collections *)

Definition ann : ReqUser := {| _id := "A"; role := "user" |}.
Definition bob : ReqUser := {| _id := "B"; role := "user" |}.
Definition moderator : ReqUser := {| _id := "M"; role := "admin" |}.

(** B's comment on the post p. *)
Definition opening : Comment :=
  {| post := "p"; author := "B"; content := "First"; parentComment := None;
     replies := ["c2"]; likes := []; isEdited := false; editedAt := None;
     isDeleted := false |}.

(** A's reply to it. *)
Definition answer : Comment :=
  {| post := "p"; author := "A"; content := "Second"; parentComment := Some "c1";
     replies := []; likes := []; isEdited := false; editedAt := None;
     isDeleted := false |}.

(** A's comment on the post q. *)
Definition aside : Comment :=
  {| post := "q"; author := "A"; content := "Elsewhere"; parentComment := None;
     replies := []; likes := []; isEdited := false; editedAt := None;
     isDeleted := false |}.

Definition discussion : gmap CommentId Comment :=
  <["c1" := opening]> (<["c2" := answer]> (<["c3" := aside]> ∅)).

End CommentThreadsProps.

(** ** The route tables

    A request path is the list of its segments, none of them empty. Routes
    are tried in the order of registration and the first that matches
    answers; the matching is Express's default one, which ignores the case
    of letters. The methods other than these four are left out. *)
Module Routing.

Inductive Method := GET | POST | PUT | DELETE.

#[global] Instance Method_eq_dec : EqDecision Method.
Proof. solve_decision. Defined.

(** A segment of a route path: a literal or a parameter [:name]. *)
Inductive Segment := lit (s : string) | param (name : string).

Definition lower_ascii (a : Ascii.ascii) : Ascii.ascii :=
  let n := Ascii.nat_of_ascii a in
  if ((65 <=? n) && (n <=? 90))%nat then Ascii.ascii_of_nat (n + 32) else a.

Fixpoint lower (s : string) : string :=
  match s with
  | EmptyString => EmptyString
  | String a s' => String (lower_ascii a) (lower s')
  end.

(** The path against the pattern: [req.params] when it matches. *)
Fixpoint matches (pattern : list Segment) (path : list string)
  : option (list (string * string)) :=
  match pattern, path with
  | [], [] => Some []
  | lit s :: pattern', x :: path' =>
    if decide (lower x = lower s) then matches pattern' path' else None
  | param name :: pattern', x :: path' =>
    if decide (x = "") then None
    else cons (name, x) <$> matches pattern' path'
  | _, _ => None
  end.

Record Route (H : Type) := {
  method : Method;
  pattern : list Segment;
  handler : H
}.
Arguments method {H}.
Arguments pattern {H}.
Arguments handler {H}.

(** The first route of the router that answers the request, with
    [req.params]. *)
Fixpoint dispatch {H} (routes : list (Route H)) (m : Method)
    (path : list string) : option (H * list (string * string)) :=
  match routes with
  | [] => None
  | r :: routes' =>
    match (if decide (method r = m) then matches (pattern r) path else None) with
    | Some params => Some (handler r, params)
    | None => dispatch routes' m path
    end
  end.

(** The handlers of routes/posts.js, in the order of registration. *)
Inductive PostsHandler :=
| list_posts | get_post | create_post | update_post | delete_post
| like_post | share_post | upload_image | user_posts | get_categories.

Definition posts_routes : list (Route PostsHandler) :=
  [ {| method := GET; pattern := []; handler := list_posts |};
    {| method := GET; pattern := [param "id"]; handler := get_post |};
    {| method := POST; pattern := []; handler := create_post |};
    {| method := PUT; pattern := [param "id"]; handler := update_post |};
    {| method := DELETE; pattern := [param "id"]; handler := delete_post |};
    {| method := POST; pattern := [param "id"; lit "like"]; handler := like_post |};
    {| method := POST; pattern := [param "id"; lit "share"]; handler := share_post |};
    {| method := POST; pattern := [lit "upload-image"]; handler := upload_image |};
    {| method := GET; pattern := [lit "user"; param "userId"]; handler := user_posts |};
    {| method := GET; pattern := [lit "categories"]; handler := get_categories |} ].

(** The handlers of routes/users.js. *)
Inductive UsersHandler :=
| get_profile | search_users | user_suggestions | follow_user | unfollow_user
| get_followers | get_following.

Definition users_routes : list (Route UsersHandler) :=
  [ {| method := GET; pattern := [param "username"]; handler := get_profile |};
    {| method := GET; pattern := [lit "search"]; handler := search_users |};
    {| method := GET; pattern := [lit "suggestions"]; handler := user_suggestions |};
    {| method := POST; pattern := [param "userId"; lit "follow"]; handler := follow_user |};
    {| method := DELETE; pattern := [param "userId"; lit "follow"]; handler := unfollow_user |};
    {| method := GET; pattern := [param "userId"; lit "followers"]; handler := get_followers |};
    {| method := GET; pattern := [param "userId"; lit "following"]; handler := get_following |} ].

(** The handlers of routes/friends.js. *)
Inductive FriendsHandler :=
| send_request | accept_request | reject_request | remove_friend
| get_requests | get_sent_requests | get_friends | cancel_request
| friend_suggestions.

Definition friends_routes : list (Route FriendsHandler) :=
  [ {| method := POST; pattern := [lit "request"; param "userId"]; handler := send_request |};
    {| method := PUT; pattern := [lit "accept"; param "userId"]; handler := accept_request |};
    {| method := PUT; pattern := [lit "reject"; param "userId"]; handler := reject_request |};
    {| method := DELETE; pattern := [param "userId"]; handler := remove_friend |};
    {| method := GET; pattern := [lit "requests"]; handler := get_requests |};
    {| method := GET; pattern := [lit "requests"; lit "sent"]; handler := get_sent_requests |};
    {| method := GET; pattern := []; handler := get_friends |};
    {| method := DELETE; pattern := [lit "request"; param "userId"]; handler := cancel_request |};
    {| method := GET; pattern := [lit "suggestions"]; handler := friend_suggestions |} ].

(** The handlers of routes/comments.js. *)
Inductive CommentsHandler :=
| post_comments | add_comment | update_comment | delete_comment
| like_comment | comment_replies.

Definition comments_routes : list (Route CommentsHandler) :=
  [ {| method := GET; pattern := [lit "post"; param "postId"]; handler := post_comments |};
    {| method := POST; pattern := []; handler := add_comment |};
    {| method := PUT; pattern := [param "id"]; handler := update_comment |};
    {| method := DELETE; pattern := [param "id"]; handler := delete_comment |};
    {| method := POST; pattern := [param "id"; lit "like"]; handler := like_comment |};
    {| method := GET; pattern := [param "id"; lit "replies"]; handler := comment_replies |} ].

(** The handlers of routes/messages.js. *)
Inductive MessagesHandler :=
| get_conversations | get_conversation | send_message | mark_read
| unread_count.

Definition messages_routes : list (Route MessagesHandler) :=
  [ {| method := GET; pattern := [lit "conversations"]; handler := get_conversations |};
    {| method := GET; pattern := [param "userId"]; handler := get_conversation |};
    {| method := POST; pattern := [param "userId"]; handler := send_message |};
    {| method := PUT; pattern := [param "userId"; lit "read"]; handler := mark_read |};
    {| method := GET; pattern := [lit "unread"; lit "count"]; handler := unread_count |} ].

(** The path below a mount point, when the path starts with it. *)
Fixpoint below (prefix path : list string) : option (list string) :=
  match prefix, path with
  | [], _ => Some path
  | s :: prefix', x :: path' =>
    if decide (lower x = lower s) then below prefix' path' else None
  | _ :: _, [] => None
  end.

(** Where server.js sends a request that has passed the middleware in
    front of the routes. routes/auth.js and the files under uploads are
    not among the sources: a request below their mount points is handed to
    them. *)
Inductive Target :=
| auth_routes (path : list string)
| posts (h : PostsHandler) (params : list (string * string))
| users (h : UsersHandler) (params : list (string * string))
| friends (h : FriendsHandler) (params : list (string * string))
| comments (h : CommentsHandler) (params : list (string * string))
| uploads (path : list string)
| health
| route_not_found.

(** [app.use(prefix, router)]: the router answers, or the request goes on. *)
Definition mounted {H} (prefix : list string) (routes : list (Route H))
    (target : H → list (string * string) → Target) (m : Method)
    (path : list string) : option Target :=
  rest ← below prefix path;
  found ← dispatch routes m rest;
  Some (target found.1 found.2).

(** The routes of server.js, in the order of registration. *)
Definition app (m : Method) (path : list string) : Target :=
  match below ["api"; "auth"] path with
  | Some rest => auth_routes rest
  | None =>
  match mounted ["api"; "posts"] posts_routes posts m path with
  | Some target => target
  | None =>
  match mounted ["api"; "users"] users_routes users m path with
  | Some target => target
  | None =>
  match mounted ["api"; "friends"] friends_routes friends m path with
  | Some target => target
  | None =>
  match mounted ["api"; "comments"] comments_routes comments m path with
  | Some target => target
  | None =>
  match below ["uploads"] path with
  | Some rest => uploads rest
  | None =>
    if decide (m = GET ∧ matches [lit "api"; lit "health"] path = Some [])
    then health else route_not_found
  end end end end end end.

End Routing.

(** ** Following and unfollowing, routes/users.js *)
Module Follows.

(** The fields of a user document the follow routes read and write. *)
Record User := { following : list UserId; followers : list UserId }.

#[global] Instance User_eq_dec : EqDecision User.
Proof. solve_decision. Defined.

Definition cannot_follow_yourself : Response :=
  {| http_status := 400; message := "You cannot follow yourself" |}.
Definition already_following : Response :=
  {| http_status := 400; message := "Already following this user" |}.
Definition user_followed : Response :=
  {| http_status := 200; message := "User followed successfully" |}.
Definition not_following : Response :=
  {| http_status := 400; message := "Not following this user" |}.
Definition user_unfollowed : Response :=
  {| http_status := 200; message := "User unfollowed successfully" |}.

(** [following.push(id)] and [followers.push(id)] on a loaded record. *)
Definition push_following (id : UserId) (u : User) : User :=
  {| following := following u ++ [id]; followers := followers u |}.
Definition push_follower (id : UserId) (u : User) : User :=
  {| following := following u; followers := followers u ++ [id] |}.

(** POST /api/users/:userId/follow; [me] is [req.user._id]. The self check
    and [following.includes] compare the parameter as spelled; [findById]
    casts it, and throws when it is no ObjectId. Each [save] sends the push
    made on the loaded copy: when the parameter casts to the caller's own
    id the two copies are of one record, which gets both pushes. *)
Definition follow_user (me : UserId) (userId : IdParam) (db : gmap UserId User)
  : Response * gmap UserId User :=
  if decide (spelling userId = me) then (cannot_follow_yourself, db)
  else match objectId userId with
  | None => (Friends.server_error, db)
  | Some target =>
    match db !! target with
    | None => (Friends.user_not_found, db)
    | Some userToFollow =>
      match db !! me with
      | None => (Friends.server_error, db)
      | Some currentUser =>
        if decide (spelling userId ∈ following currentUser)
        then (already_following, db)
        else (user_followed,
              alter (push_follower me) target
                (alter (push_following target) me db))
      end
    end
  end.

(** DELETE /api/users/:userId/follow. [includes] and the filter of
    [following] compare the parameter as spelled. Each [save] sends the
    filtered array as the new value of its field, which Mongoose, under
    the version key a schema has by default, refuses with a VersionError
    for a record that was saved after the copy was loaded: when the
    parameter casts to the caller's own id, the first [save] lands and the
    second throws into the [catch] branch. *)
Definition unfollow_user (me : UserId) (userId : IdParam) (db : gmap UserId User)
  : Response * gmap UserId User :=
  match objectId userId with
  | None => (Friends.server_error, db)
  | Some target =>
    match db !! target with
    | None => (Friends.user_not_found, db)
    | Some userToUnfollow =>
      match db !! me with
      | None => (Friends.server_error, db)
      | Some currentUser =>
        if decide (spelling userId ∉ following currentUser)
        then (not_following, db)
        else
          let currentUser' :=
            {| following :=
                 filter (λ id, id ≠ spelling userId) (following currentUser);
               followers := followers currentUser |} in
          let userToUnfollow' :=
            {| following := following userToUnfollow;
               followers :=
                 filter (λ id, id ≠ me) (followers userToUnfollow) |} in
          if decide (target = me)
          then (Friends.server_error, <[me := currentUser']> db)
          else (user_unfollowed,
                <[target := userToUnfollow']> (<[me := currentUser']> db))
      end
    end
  end.

End Follows.

Module FollowsProps.
Import Follows.

(** [following] and [followers] mirror each other over the users of the
    collection. *)
Definition mirrored (db : gmap UserId User) : Prop :=
  ∀ a b ua ub, db !! a = Some ua → db !! b = Some ub →
    (b ∈ following ua ↔ a ∈ followers ub).

(** Nobody follows themselves. *)
Definition no_self (db : gmap UserId User) : Prop :=
  ∀ a ua, db !! a = Some ua → a ∉ following ua.

Inductive Operation :=
| Follow (me : UserId) (userId : IdParam)
| Unfollow (me : UserId) (userId : IdParam).

(** The request spells the id as it is stored, if it spells an id at all. *)
Definition spelled_as_stored (userId : IdParam) : Prop :=
  ∀ id, objectId userId = Some id → spelling userId = id.

Definition plainly_spelled (op : Operation) : Prop :=
  match op with
  | Follow _ userId | Unfollow _ userId => spelled_as_stored userId
  end.

Definition perform (op : Operation) (db : gmap UserId User)
  : Response * gmap UserId User :=
  match op with
  | Follow me userId => follow_user me userId db
  | Unfollow me userId => unfollow_user me userId db
  end.

(** The collection after a sequence of operations. *)
Definition perform_all (ops : list Operation) (db : gmap UserId User)
  : gmap UserId User :=
  foldl (λ db op, (perform op db).2) db ops.

(** *** Example collection *)

Definition nobody : User := {| following := []; followers := [] |}.

(** Three users who follow nobody yet. *)
Definition newcomers : gmap UserId User :=
  <["A" := nobody]> (<["B" := nobody]> (<["C" := nobody]> ∅)).

End FollowsProps.

(** ** The populated lists: friends, followers, following *)
Module PopulatedLists.
Import Paging.

(** [populate({ path, options: { limit, skip } })] on an array of user ids:
    the array becomes the users found, and an id without a record drops out.
    The options go to the query that fetches the users: a negative [skip]
    makes it fail, [limit] 0 is no limit and a negative limit counts as its
    absolute value. The source does not fix which users the query returns
    first; here it is those the array names first. *)
Definition populate {A} (db : gmap UserId A) (limit skip : Z)
    (ids : list UserId) : option (list UserId) :=
  if decide (skip < 0)%Z then None
  else
    let rest := drop (Z.to_nat skip) (filter (λ id, is_Some (db !! id)) ids) in
    Some (if decide (limit = 0%Z) then rest
          else take (Z.to_nat (Z.abs limit)) rest).

Inductive ListResponse :=
| list_failed (r : Response)
| list_page (users : list UserId) (pagination : Pagination).

(** The response of the three list routes, from the populated array:
    [total] is its length. *)
Definition list_response (page limit : Z) (populated : option (list UserId))
  : ListResponse :=
  match populated with
  | None => list_failed Friends.server_error
  | Some users =>
    list_page users (pagination page limit (Z.of_nat (List.length users)))
  end.

(** GET /api/friends; [me] is [req.user._id]. *)
Definition get_friends (me : UserId) (page limit : option Z)
    (db : gmap UserId Friends.User) : ListResponse :=
  let page := default 1%Z page in
  let limit := default 20%Z limit in
  let skip := ((page - 1) * limit)%Z in
  match db !! me with
  | None => list_failed Friends.server_error
  | Some currentUser =>
    list_response page limit (populate db limit skip (Friends.friends currentUser))
  end.

(** GET /api/users/:userId/followers *)
Definition get_followers (userId : UserId) (page limit : option Z)
    (db : gmap UserId Follows.User) : ListResponse :=
  let page := default 1%Z page in
  let limit := default 20%Z limit in
  let skip := ((page - 1) * limit)%Z in
  match db !! userId with
  | None => list_failed Friends.user_not_found
  | Some user =>
    list_response page limit (populate db limit skip (Follows.followers user))
  end.

(** GET /api/users/:userId/following *)
Definition get_following (userId : UserId) (page limit : option Z)
    (db : gmap UserId Follows.User) : ListResponse :=
  let page := default 1%Z page in
  let limit := default 20%Z limit in
  let skip := ((page - 1) * limit)%Z in
  match db !! userId with
  | None => list_failed Friends.user_not_found
  | Some user =>
    list_response page limit (populate db limit skip (Follows.following user))
  end.

End PopulatedLists.

Module PopulatedListsProps.
Import Paging PopulatedLists.


(** *** Example collection *)


End PopulatedListsProps.

(** ** The posts of a user, GET /api/posts/user/:userId

    The route is registered without [protect]: the request gives the
    handler the user id of the path and the [status] of the query string,
    ['published'] when absent. *)
Module UserPosts.
Import PostModel.

(** [publishedAt: { $lte: now }]; a post without the date does not match. *)
Definition published_by (now : Z) (post : Post) : Prop :=
  match publishedAt post with
  | Some date => (date ≤ now)%Z
  | None => False
  end.

#[global] Instance published_by_dec now post : Decision (published_by now post).
Proof. unfold published_by. destruct (publishedAt post); apply _. Defined.

(** The [query] the handler builds. *)
Definition query (userId : UserId) (status : string) (now : Z) (post : Post)
  : Prop :=
  author post = userId
  ∧ if decide (status = "published")
    then PostModel.status post = published ∧ published_by now post
    else if decide (status = "draft") then PostModel.status post = draft
    else True.

#[global] Instance query_dec userId status now post :
  Decision (query userId status now post).
Proof. unfold query. repeat case_decide; apply _. Defined.

(** The posts [Post.find(query)] selects; the page of the response is cut
    from them after a sort on [createdAt], which the record leaves out. *)
Definition found (userId : UserId) (status : option string) (now : Z)
    (db : gmap PostId Post) : gmap PostId Post :=
  filter (λ p, query userId (default "published" status) now p.2) db.

(** [Post.countDocuments(query)]: the [total] of the response. *)
Definition total (userId : UserId) (status : option string) (now : Z)
    (db : gmap PostId Post) : nat :=
  size (found userId status now db).


End UserPosts.

(** * Properties *)

(** ** The friend-request state machine *)
Module FriendsTheory.
Import Friends FriendsProps.

Lemma find_request_None id l :
  find_request id l = None ↔ ∀ r, r ∈ l → from r ≠ id.
Proof. unfold find_request. by rewrite list_find_None, Forall_forall. Qed.

Lemma find_request_Some id l i r :
  find_request id l = Some (i, r) → l !! i = Some r ∧ from r = id.
Proof. unfold find_request. intros H. apply list_find_Some in H. tauto. Qed.

Lemma find_request_elem id l :
  (∃ r, r ∈ l ∧ from r = id) ↔ is_Some (find_request id l).
Proof.
  split.
  - intros (r & Hr & Hid). eapply list_find_elem_of; eauto.
  - intros [[i r] H]. apply find_request_Some in H as [H1 H2].
    exists r. split; [by eapply list_elem_of_lookup_2 | done].
Qed.

Lemma elem_of_without_requests_from id l r :
  r ∈ without_requests_from id l ↔ r ∈ l ∧ from r ≠ id.
Proof. unfold without_requests_from. rewrite list_elem_of_filter. tauto. Qed.

Lemma find_without_requests_from id l :
  find_request id (without_requests_from id l) = None.
Proof.
  apply find_request_None. intros r Hr.
  by apply elem_of_without_requests_from in Hr as [_ ?].
Qed.

Lemma without_requests_from_fixed id l :
  (∀ r, r ∈ l → from r ≠ id) → without_requests_from id l = l.
Proof.
  unfold without_requests_from. induction l as [|r l IH]; intros H; [done|].
  rewrite filter_cons_True by (apply H; left).
  f_equal. apply IH. intros r' Hr'. apply H. by right.
Qed.

Lemma without_requests_from_idemp id l :
  without_requests_from id (without_requests_from id l)
  = without_requests_from id l.
Proof.
  apply without_requests_from_fixed. intros r Hr.
  by apply elem_of_without_requests_from in Hr as [_ ?].
Qed.

Lemma not_in_no_friends (id : UserId) : id ∉ friends new_user.
Proof. apply not_elem_of_nil. Qed.

Lemma no_request_on_new_user (id : UserId) : ¬ has_request_from id new_user.
Proof. intros (r & Hr & _). by apply not_elem_of_nil in Hr. Qed.

(** *** Send *)

(** Claim C3, as amended. Send request compares the target id as the
    request spells it with the requester's id and with the requester's
    friends, and looks the target up under the ObjectId the id casts to.
    It fails with InvalidTarget when the id as spelled is the requester's,
    otherwise with 500 when the id is no ObjectId, otherwise with NotFound
    when the target does not exist, otherwise with AlreadyFriends when the
    id as spelled is in the requester's friends, otherwise with
    DuplicateRequest when a request of the requester, pending or already
    rejected, is on the target's record; otherwise it succeeds, appends
    [{from: requester, status: pending}] to the target's [friendRequests]
    and changes nothing else. The requester's own id in another spelling
    passes the first check and a friend's id in another spelling the
    fourth. *)
Theorem send_request_outcomes (db : gmap UserId User) (requester : UserId)
    (target : IdParam) :
  (spelling target = requester →
     send_request requester target db = (InvalidTarget, db))
  ∧ (spelling target ≠ requester → objectId target = None →
       send_request requester target db = (server_error, db))
  ∧ (∀ t, spelling target ≠ requester → objectId target = Some t →
       db !! t = None →
       send_request requester target db = (NotFound, db))
  ∧ (∀ t tu cu, spelling target ≠ requester → objectId target = Some t →
       db !! t = Some tu → db !! requester = Some cu →
       (spelling target ∈ friends cu →
          send_request requester target db = (AlreadyFriends, db))
       ∧ (spelling target ∉ friends cu → has_request_from requester tu →
          send_request requester target db = (DuplicateRequest, db))
       ∧ (spelling target ∉ friends cu → ¬ has_request_from requester tu →
          send_request requester target db
          = (request_sent,
             <[t := {| friends := friends tu;
                       friendRequests := friendRequests tu
                         ++ [{| from := requester; status := pending |}] |}]> db))).
Proof.
  unfold send_request. split; [|split; [|split]].
  - intros ->. by rewrite decide_True.
  - intros Hne Hnone. rewrite decide_False by done. by rewrite Hnone.
  - intros t Hne Hcast Hnone. rewrite decide_False by done.
    by rewrite Hcast, Hnone.
  - intros t tu cu Hne Hcast Ht Hc. rewrite decide_False by done.
    rewrite Hcast, Ht, Hc.
    split; [|split].
    + intros Hin. by rewrite decide_True.
    + intros Hnin Hreq. rewrite decide_False by done.
      apply find_request_elem in Hreq as [? ->]. done.
    + intros Hnin Hreq. rewrite decide_False by done.
      destruct (find_request requester (friendRequests tu)) eqn:Hf; [|done].
      exfalso. apply Hreq. apply find_request_elem. eauto.
Qed.

(** The outcomes of Send on the example collections, for ids in their
    stored spelling, for an id that is no ObjectId, and for A's own id and
    the id of A's friend B in another spelling. *)
Lemma send_request_outcomes_witness :
  send_request "A" (stored "A") strangers = (InvalidTarget, strangers)
  ∧ send_request "A" {| spelling := "me"; objectId := None |} strangers
    = (server_error, strangers)
  ∧ send_request "A" (stored "C") strangers = (NotFound, strangers)
  ∧ send_request "A" (stored "B") crossed = (AlreadyFriends, crossed)
  ∧ send_request "A" (stored "B") asked = (DuplicateRequest, asked)
  ∧ send_request "A" (stored "B") strangers = (request_sent, asked)
  ∧ send_request "A" (respelled "A" "a") strangers = (request_sent, self_asked)
  ∧ (send_request "B" (respelled "A" "a") crossed).1 = DuplicateRequest.
Proof.
  assert (Hne : "B" ≠ "A") by discriminate.
  assert (Hne' : "a" ≠ "A") by discriminate.
  assert (Hne'' : "a" ≠ "B") by discriminate.
  split; [|split; [|split; [|split; [|split; [|split; [|split]]]]]].
  - by apply (send_request_outcomes strangers "A" (stored "A")).
  - apply (send_request_outcomes strangers "A"
             {| spelling := "me"; objectId := None |});
      [discriminate | reflexivity].
  - eapply (send_request_outcomes strangers "A" (stored "C"));
      [discriminate | reflexivity | reflexivity].
  - eapply (send_request_outcomes crossed "A" (stored "B"));
      [exact Hne | reflexivity | reflexivity | reflexivity | by left].
  - eapply (send_request_outcomes asked "A" (stored "B"));
      [exact Hne | reflexivity | reflexivity | reflexivity
      | apply not_in_no_friends | ].
    eexists. split; [by left | done].
  - exact (proj2 (proj2
             (proj2 (proj2 (proj2
                (send_request_outcomes strangers "A" (stored "B"))))
                "B" new_user new_user Hne eq_refl eq_refl eq_refl))
             (not_in_no_friends "B") (no_request_on_new_user "A")).
  - exact (proj2 (proj2
             (proj2 (proj2 (proj2
                (send_request_outcomes strangers "A" (respelled "A" "a"))))
                "A" new_user new_user Hne' eq_refl eq_refl eq_refl))
             (not_in_no_friends "a") (no_request_on_new_user "A")).
  - assert (Hnf : "a" ∉ ["A"]).
    { intros Hin. apply list_elem_of_singleton in Hin. discriminate Hin. }
    assert (Hreq : has_request_from "B"
              {| friends := ["B"];
                 friendRequests := [{| from := "B"; status := pending |}] |}).
    { eexists. split; [by left | done]. }
    pose proof (proj1 (proj2
             (proj2 (proj2 (proj2
                (send_request_outcomes crossed "B" (respelled "A" "a"))))
                "A" _ _ Hne'' eq_refl eq_refl eq_refl)) Hnf Hreq) as Hsend.
    by rewrite Hsend.
Defined.

(** Claim C3 as first stated fails: with a rejected request of A on B's
    record, A is not B, B exists, B is not A's friend and no pending request
    of A is on B's record, and yet Send answers DuplicateRequest. *)
Lemma send_after_rejection_refused :
  ∃ tu cu,
    refused !! "B" = Some tu ∧ refused !! "A" = Some cu
    ∧ "A" ≠ "B" ∧ ("B" ∉ friends cu) ∧ (¬ has_pending_from "A" tu)
    ∧ send_request "A" (stored "B") refused = (DuplicateRequest, refused)
    ∧ ¬ (∃ db', send_request "A" (stored "B") refused = (request_sent, db')).
Proof.
  eexists _, _. split; [reflexivity|]. split; [reflexivity|].
  split; [discriminate|]. split; [apply not_in_no_friends|]. split.
  - intros (r & Hr & _ & Hs). simpl in Hr.
    apply list_elem_of_singleton in Hr as ->. discriminate Hs.
  - split; [vm_compute; reflexivity|].
    intros [db' H]. vm_compute in H. discriminate H.
Qed.

(** A Send of A under another spelling of A's own id is not refused: it
    puts a request of A on A's record. *)
Lemma self_request_reachable :
  perform_all [Send "A" (respelled "A" "a")] strangers = self_asked.
Proof. vm_compute. reflexivity. Qed.

(** *** Accept *)

Lemma alter_insert_other (db : gmap UserId User) (f : User → User)
    (k k' : UserId) (u u' : User) :
  k ≠ k' → db !! k = Some u →
  alter f k (<[k' := u']> db) = <[k := f u]> (<[k' := u']> db).
Proof.
  intros Hne Hk. apply map_eq. intros j.
  destruct (decide (j = k)) as [->|Hj].
  - by rewrite lookup_alter_eq, lookup_insert_eq, lookup_insert_ne, Hk.
  - by rewrite lookup_alter_ne, (lookup_insert_ne _ k j) by done.
Qed.

(** Claim C1, as amended. Ids are in their stored spelling. When the
    request of the requester that Accept finds on the accepter's record is
    pending and the requester's record exists, then: if neither user is in
    the other's friends list, Accept succeeds; afterwards the requester is
    in the accepter's friends, the accepter is in the requester's friends
    and no request of the requester is left on the accepter's record, the
    requests of other users and all other records being as before (each
    list gets one new entry; an accepter who is the requester gets two
    entries of their own id). If either user is in the other's friends list
    already, Accept answers 400 "Users are already friends" and changes
    nothing. *)
Theorem accept_request_befriends (db : gmap UserId User)
    (accepter requester : UserId) (cu ru : User) :
  db !! accepter = Some cu →
  db !! requester = Some ru →
  found_pending_from requester cu →
  (requester ∉ friends cu → accepter ∉ friends ru →
     ∃ db' cu' ru',
       accept_request accepter (stored requester) db = (request_accepted, db')
       ∧ db' !! accepter = Some cu' ∧ db' !! requester = Some ru'
       ∧ requester ∈ friends cu' ∧ accepter ∈ friends ru'
       ∧ (¬ has_request_from requester cu')
       ∧ (∀ r, from r ≠ requester →
            r ∈ friendRequests cu' ↔ r ∈ friendRequests cu)
       ∧ (accepter ≠ requester →
            friends cu' = friends cu ++ [requester]
            ∧ friends ru' = friends ru ++ [accepter]
            ∧ friendRequests ru' = friendRequests ru)
       ∧ (accepter = requester →
            friends cu' = friends cu ++ [accepter; accepter])
       ∧ (∀ k, k ≠ accepter → k ≠ requester → db' !! k = db !! k))
  ∧ (requester ∈ friends cu ∨ accepter ∈ friends ru →
       accept_request accepter (stored requester) db
       = (users_already_friends, db)).
Proof.
  intros Hc Hr (i & r & Hfind & Hpending). split.
  - intros Hnc Hnr.
    unfold accept_request, stored, UserId in *. simpl. rewrite Hr, Hc, Hfind.
    rewrite decide_False by (intros ?; done).
    rewrite decide_False by tauto.
    destruct (decide (accepter = requester)) as [->|Hne].
    + assert (ru = cu) as -> by congruence.
      eexists _, _, _. split; [reflexivity|].
      split; [by rewrite lookup_alter_eq, lookup_insert_eq|].
      split; [by rewrite lookup_alter_eq, lookup_insert_eq|].
      simpl.
      split; [rewrite !elem_of_app, !list_elem_of_singleton; tauto|].
      split; [rewrite !elem_of_app, !list_elem_of_singleton; tauto|].
      split; [|split; [|split; [|split]]].
      * intros (r' & Hr' & Hfrom). simpl in Hr'.
        by apply elem_of_without_requests_from in Hr' as [_ ?].
      * intros r' Hfrom. simpl. rewrite elem_of_without_requests_from. tauto.
      * done.
      * intros _. by rewrite <- app_assoc.
      * intros k Hk _. by rewrite lookup_alter_ne, lookup_insert_ne.
    + rewrite (alter_insert_other _ _ requester accepter ru) by done.
      eexists _, _, _. split; [reflexivity|].
      split; [by rewrite lookup_insert_ne, lookup_insert_eq|].
      split; [by rewrite lookup_insert_eq|].
      split; [apply elem_of_app; right; by left|].
      split; [apply elem_of_app; right; by left|].
      split; [|split; [|split; [|split]]].
      * intros (r' & Hr' & Hfrom). simpl in Hr'.
        by apply elem_of_without_requests_from in Hr' as [_ ?].
      * intros r' Hfrom. simpl. rewrite elem_of_without_requests_from. tauto.
      * done.
      * done.
      * intros k Hk1 Hk2. by rewrite !lookup_insert_ne.
  - intros Hfriends.
    unfold accept_request, stored, UserId in *. simpl. rewrite Hr, Hc, Hfind.
    rewrite decide_False by (intros ?; done).
    by rewrite decide_True.
Qed.

(** B accepts the request A has sent; A accepts a request of A's own; in
    [crossed], where A and B are friends, A's Accept of B's pending request
    is refused. *)
Lemma accept_request_befriends_witness :
  (∃ db' cu' ru',
     accept_request "B" (stored "A") asked = (request_accepted, db')
     ∧ db' !! "B" = Some cu' ∧ db' !! "A" = Some ru'
     ∧ friends cu' = ["A"] ∧ friends ru' = ["B"]
     ∧ (¬ has_request_from "A" cu'))
  ∧ (∃ db' cu',
       accept_request "A" (stored "A") self_asked = (request_accepted, db')
       ∧ db' !! "A" = Some cu' ∧ friends cu' = ["A"; "A"]
       ∧ (¬ has_request_from "A" cu'))
  ∧ accept_request "A" (stored "B") crossed = (users_already_friends, crossed).
Proof.
  assert (Hne : "B" ≠ "A") by discriminate.
  assert (Hfound : ∀ id l, found_pending_from id
            {| friends := l;
               friendRequests := [{| from := id; status := pending |}] |}).
  { intros id l. exists 0, {| from := id; status := pending |}.
    split; [|done]. unfold find_request. simpl. by rewrite decide_True. }
  split; [|split].
  - destruct (proj1 (accept_request_befriends asked "B" "A" _ new_user
                       eq_refl eq_refl (Hfound "A" []))
                (not_in_no_friends "A") (not_in_no_friends "B"))
      as (db' & cu' & ru' & Ha & Hcu & Hru & _ & _ & Hreq & _ & Hd & _).
    destruct (Hd Hne) as (Hf1 & Hf2 & _).
    exists db', cu', ru'. by repeat split.
  - destruct (proj1 (accept_request_befriends self_asked "A" "A" _ _
                       eq_refl eq_refl (Hfound "A" []))
                (not_in_no_friends "A") (not_in_no_friends "A"))
      as (db' & cu' & ru' & Ha & Hcu & _ & _ & _ & Hreq & _ & _ & Hs & _).
    exists db', cu'. split; [done|]. split; [done|]. split; [|done].
    exact (Hs eq_refl).
  - apply (accept_request_befriends crossed "A" "B" _ _
             eq_refl eq_refl (Hfound "B" ["B"])).
    left. by left.
Defined.

(** Claim C1 as first stated fails: in [crossed] a pending request of B is
    on A's record and B's record exists, and Accept answers that the users
    are already friends. *)
Lemma accept_refused_between_friends :
  ∃ cu ru,
    crossed !! "A" = Some cu ∧ crossed !! "B" = Some ru
    ∧ has_pending_from "B" cu
    ∧ accept_request "A" (stored "B") crossed = (users_already_friends, crossed)
    ∧ ¬ (∃ db', accept_request "A" (stored "B") crossed = (request_accepted, db')).
Proof.
  eexists _, _. split; [reflexivity|]. split; [reflexivity|]. split.
  - eexists. split; [by left | done].
  - split; [vm_compute; reflexivity|].
    intros [db' H]. vm_compute in H. discriminate H.
Qed.

(** The API reaches [crossed] from two users who do not know each other. *)
Lemma crossed_reachable :
  perform_all [Send "A" (stored "B"); Send "B" (stored "A");
               Accept "B" (stored "A")] strangers = crossed.
Proof. vm_compute. reflexivity. Qed.

(** *** Reject *)




(** After a rejection between friends the resend is answered by the
    friends check: A and B ask each other, A accepts, B rejects. *)
Lemma resend_after_reject_between_friends :
  (perform (Reject "B" "A")
     (perform_all [Send "A" (stored "B"); Send "B" (stored "A");
                   Accept "A" (stored "B")] strangers)).1 = request_rejected
  ∧ (send_request "A" (stored "B")
       (perform_all [Send "A" (stored "B"); Send "B" (stored "A");
                     Accept "A" (stored "B"); Reject "B" "A"] strangers)).1
    = AlreadyFriends.
Proof. vm_compute. by split. Qed.

(** *** Cancel *)

(** Claim C8, as amended. For every requester and existing target, Cancel
    succeeds, present request or not; it removes every request of the
    requester from the target's [friendRequests] and nothing else; a second
    Cancel succeeds and leaves the collection as the first did; and after a
    Cancel a Send of the requester to the target succeeds provided the
    requester is not the target and the target is not in the requester's
    friends. *)
Theorem cancel_request_idempotent (db : gmap UserId User)
    (requester target : UserId) (tu : User) :
  db !! target = Some tu →
  ∃ db1 tu1,
    cancel_request requester target db = (request_cancelled, db1)
    ∧ db1 !! target = Some tu1
    ∧ (¬ has_request_from requester tu1)
    ∧ (∀ r, r ∈ friendRequests tu1 ↔ r ∈ friendRequests tu ∧ from r ≠ requester)
    ∧ friends tu1 = friends tu
    ∧ (∀ k, k ≠ target → db1 !! k = db !! k)
    ∧ cancel_request requester target db1 = (request_cancelled, db1)
    ∧ (∀ cu, requester ≠ target → db !! requester = Some cu →
         target ∉ friends cu →
         ∃ db2, send_request requester (stored target) db1 = (request_sent, db2)).
Proof.
  intros Ht. unfold cancel_request at 1. rewrite Ht.
  eexists _, _. split; [reflexivity|].
  split; [apply lookup_insert_eq|].
  split; [|split; [|split; [|split; [|split]]]].
  - intros (r & Hr & Hfrom). simpl in Hr.
    by apply elem_of_without_requests_from in Hr as [_ ?].
  - intros r. simpl. apply elem_of_without_requests_from.
  - done.
  - intros k Hk. by rewrite lookup_insert_ne.
  - unfold cancel_request. rewrite lookup_insert_eq. simpl.
    rewrite without_requests_from_idemp. by rewrite insert_insert_eq.
  - intros cu Hne Hc Hnf. unfold send_request, stored, UserId in *. simpl.
    rewrite decide_False by done. rewrite lookup_insert_eq.
    rewrite lookup_insert_ne by done. rewrite Hc.
    rewrite decide_False by done. simpl.
    rewrite find_without_requests_from. eauto.
Qed.

(** A cancels the request it has sent to B. *)
Lemma cancel_request_idempotent_witness :
  ∃ db1 tu1,
    cancel_request "A" "B" asked = (request_cancelled, db1)
    ∧ db1 !! "B" = Some tu1
    ∧ (¬ has_request_from "A" tu1)
    ∧ (∀ r, r ∈ friendRequests tu1
            ↔ r ∈ [{| from := "A"; status := pending |}] ∧ from r ≠ "A")
    ∧ friends tu1 = []
    ∧ (∀ k, k ≠ "B" → db1 !! k = asked !! k)
    ∧ cancel_request "A" "B" db1 = (request_cancelled, db1)
    ∧ (∀ cu, "A" ≠ "B" → asked !! "A" = Some cu → "B" ∉ friends cu →
         ∃ db2, send_request "A" (stored "B") db1 = (request_sent, db2)).
Proof.
  exact (cancel_request_idempotent asked "A" "B" _ eq_refl).
Defined.

(** Claim C8 as first stated fails: in [crossed] B cancels its pending
    request to A, which succeeds, and B's new Send to A is refused because
    the two are friends by then. *)
Lemma resend_refused_between_friends :
  (∃ tu, crossed !! "A" = Some tu ∧ has_pending_from "B" tu)
  ∧ cancel_request "B" "A" crossed = (request_cancelled, crossed_cancelled)
  ∧ send_request "B" (stored "A") crossed_cancelled
    = (AlreadyFriends, crossed_cancelled)
  ∧ ¬ (∃ db', send_request "B" (stored "A") crossed_cancelled
              = (request_sent, db')).
Proof.
  split.
  { eexists. split; [reflexivity|]. eexists. split; [by left | done]. }
  split; [vm_compute; reflexivity|]. split; [vm_compute; reflexivity|].
  intros [db' H]. vm_compute in H. discriminate H.
Qed.

(** *** Symmetry of the friend lists *)

Lemma symmetric_unchanged (db : gmap UserId User) (k : UserId) (u u' : User) :
  db !! k = Some u → friends u' = friends u →
  symmetric db → symmetric (<[k := u']> db).
Proof.
  intros Hk Hf Hsym a b ua ub Ha Hb.
  destruct (decide (a = k)) as [->|Hak], (decide (b = k)) as [->|Hbk];
    simplify_map_eq; rewrite ?Hf; eauto.
Qed.

Ltac by_symmetry Hsym :=
  try tauto;
  try (match goal with
       | Ha : ?db !! ?a = Some ?ua, Hb : ?db !! ?b = Some ?ub |- _ =>
           pose proof (Hsym a b ua ub Ha Hb); tauto
       end).

Ltac pairs_of me t Hsym :=
  let a := fresh "a" in let b := fresh "b" in
  let ua := fresh "ua" in let ub := fresh "ub" in
  let Ha := fresh "Ha" in let Hb := fresh "Hb" in
  intros a b ua ub Ha Hb;
  destruct (decide (a = t)), (decide (b = t)),
    (decide (a = me)), (decide (b = me));
  simplify_map_eq;
  rewrite ?elem_of_app, ?list_elem_of_singleton, ?list_elem_of_filter;
  by_symmetry Hsym.

Lemma send_request_symmetric me t (db : gmap UserId User) :
  symmetric db → symmetric (send_request me t db).2.
Proof.
  intros Hsym. unfold send_request.
  repeat (case_decide || case_match); simpl; try done.
  eapply symmetric_unchanged; eauto.
Qed.

Lemma accept_request_symmetric me t (db : gmap UserId User) :
  symmetric db → symmetric (accept_request me t db).2.
Proof.
  intros Hsym. unfold accept_request, push_friend.
  destruct (objectId t) as [requester|]; [|done].
  repeat (case_decide || case_match); simpl; try done; simplify_eq;
    pairs_of me requester Hsym.
Qed.

Lemma reject_request_symmetric me t (db : gmap UserId User) :
  symmetric db → symmetric (reject_request me t db).2.
Proof.
  intros Hsym. unfold reject_request.
  repeat (case_decide || case_match); simpl; try done.
  eapply symmetric_unchanged; eauto.
Qed.

Lemma cancel_request_symmetric me t (db : gmap UserId User) :
  symmetric db → symmetric (cancel_request me t db).2.
Proof.
  intros Hsym. unfold cancel_request.
  repeat (case_decide || case_match); simpl; try done.
  eapply symmetric_unchanged; eauto.
Qed.

Lemma remove_friend_symmetric me t (db : gmap UserId User) :
  symmetric db → symmetric (remove_friend me t db).2.
Proof.
  intros Hsym. unfold remove_friend, without_friend.
  repeat (case_decide || case_match); simpl; try done; simplify_eq;
    pairs_of me t Hsym.
Qed.

(** Claim C6. Friend-list symmetry is an invariant: from a symmetric
    collection, after any single Send, Accept, Reject, Cancel or Remove,
    whatever its response, for all users A and B of the collection B is in
    A's friends iff A is in B's friends. *)
Theorem friends_stay_symmetric (op : Operation) (db : gmap UserId User) :
  symmetric db → symmetric (perform op db).2.
Proof.
  intros Hsym. destruct op as [me t|me t|me t|me t|me t]; simpl.
  - by apply send_request_symmetric.
  - by apply accept_request_symmetric.
  - by apply reject_request_symmetric.
  - by apply cancel_request_symmetric.
  - by apply remove_friend_symmetric.
Qed.

Lemma symmetric_empty : symmetric ∅.
Proof. intros a b ua ub Ha. by rewrite lookup_empty in Ha. Qed.

Lemma symmetric_insert_new (db : gmap UserId User) (k : UserId) :
  symmetric db → (∀ a ua, db !! a = Some ua → k ∉ friends ua) →
  symmetric (<[k := new_user]> db).
Proof.
  intros Hsym Hk a b ua ub Ha Hb.
  destruct (decide (a = k)) as [->|Hak], (decide (b = k)) as [->|Hbk];
    simplify_map_eq.
  - done.
  - split; [intros Hin; by apply not_elem_of_nil in Hin|].
    intros Hin. by apply (Hk b ub) in Hin.
  - split; [|intros Hin; by apply not_elem_of_nil in Hin].
    intros Hin. by apply (Hk a ua) in Hin.
  - eauto.
Qed.

Lemma strangers_symmetric : symmetric strangers.
Proof.
  unfold strangers. apply symmetric_insert_new.
  - apply symmetric_insert_new; [apply symmetric_empty|].
    intros a ua Ha. by rewrite lookup_empty in Ha.
  - intros a ua Ha. apply lookup_insert_Some in Ha as [[_ <-]|[_ Ha]].
    + apply not_elem_of_nil.
    + by rewrite lookup_empty in Ha.
Qed.

(** Property X1. Every collection a sequence of relationship operations
    reaches from a symmetric one is symmetric. *)
Theorem symmetric_perform_all (ops : list Operation) (db : gmap UserId User) :
  symmetric db → symmetric (perform_all ops db).
Proof.
  revert db. induction ops as [|op ops IH]; intros db Hsym; [done|].
  simpl. apply IH.
  destruct op; simpl;
    auto using send_request_symmetric, accept_request_symmetric,
      reject_request_symmetric, cancel_request_symmetric,
      remove_friend_symmetric.
Qed.

Lemma crossed_symmetric : symmetric crossed.
Proof.
  intros a b ua ub Ha Hb. unfold crossed in *.
  apply lookup_insert_Some in Ha as [[<- <-]|[_ Ha]];
    [|apply lookup_insert_Some in Ha as [[<- <-]|[_ Ha]];
      [|by rewrite lookup_empty in Ha]];
  (apply lookup_insert_Some in Hb as [[<- <-]|[_ Hb]];
    [|apply lookup_insert_Some in Hb as [[<- <-]|[_ Hb]];
      [|by rewrite lookup_empty in Hb]]);
  simpl; first [done | split; intros _; by left].
Qed.

(** A removes B from its friends in [crossed]. *)
Lemma friends_stay_symmetric_witness :
  symmetric (perform (Remove "A" "B") crossed).2.
Proof.
  exact (friends_stay_symmetric (Remove "A" "B") crossed crossed_symmetric).
Defined.

Lemma remove_in_crossed :
  (perform (Remove "A" "B") crossed).1 = friend_removed
  ∧ (perform (Remove "A" "B") crossed).2 !! "A"
    = Some {| friends := [];
              friendRequests := [{| from := "B"; status := pending |}] |}
  ∧ (perform (Remove "A" "B") crossed).2 !! "B" = Some new_user.
Proof. vm_compute. repeat split. Qed.

(** Requests and removals among two strangers keep the lists symmetric. *)
Lemma symmetric_perform_all_witness :
  symmetric
    (perform_all [Send "A" (stored "B"); Accept "B" (stored "A");
                  Remove "B" "A"; Send "B" (stored "A")]
       strangers).
Proof.
  exact (symmetric_perform_all
           [Send "A" (stored "B"); Accept "B" (stored "A");
            Remove "B" "A"; Send "B" (stored "A")]
           strangers strangers_symmetric).
Defined.

(** *** One request per sender *)

(** On a record with one request per sender, a pending request of the
    requester is the one the handlers find. *)
Lemma found_pending_of_unique requester u :
  one_request_per_sender u → has_pending_from requester u →
  found_pending_from requester u.
Proof.
  unfold one_request_per_sender. intros Hnd (r & Hr & Hfrom & Hpending).
  destruct (proj1 (find_request_elem requester (friendRequests u)))
    as [[i r'] Hfind]; [by eauto|].
  exists i, r'. split; [done|].
  apply find_request_Some in Hfind as [Hi Hfrom'].
  apply list_elem_of_lookup in Hr as [j Hj].
  assert (i = j) as ->.
  { apply (NoDup_lookup (from <$> friendRequests u) i j requester Hnd).
    - by rewrite list_lookup_fmap, Hi; simpl; rewrite Hfrom'.
    - by rewrite list_lookup_fmap, Hj; simpl; rewrite Hfrom. }
  by simplify_eq.
Qed.

Lemma one_request_per_sender_each_insert (db : gmap UserId User) k u :
  one_request_per_sender_each db → one_request_per_sender u →
  one_request_per_sender_each (<[k := u]> db).
Proof.
  intros Hdb Hu k' u' Hk'.
  apply lookup_insert_Some in Hk' as [[_ <-]|[_ Hk']]; [done|].
  by apply (Hdb k').
Qed.

Lemma one_request_per_sender_each_alter (db : gmap UserId User) k f :
  (∀ u, friendRequests (f u) = friendRequests u) →
  one_request_per_sender_each db →
  one_request_per_sender_each (alter f k db).
Proof.
  intros Hf Hdb k' u' Hk'.
  apply lookup_alter_Some in Hk' as [[_ (u & Hu & Hu')]|[_ Hk']].
  - subst u'. unfold one_request_per_sender. rewrite Hf. by apply (Hdb k').
  - by apply (Hdb k').
Qed.

Lemma one_request_per_sender_without id u :
  one_request_per_sender u →
  NoDup (from <$> without_requests_from id (friendRequests u)).
Proof.
  unfold one_request_per_sender, without_requests_from. intros Hnd.
  eapply sublist_NoDup; [exact Hnd|].
  apply fmap_sublist, sublist_filter.
Qed.

Lemma one_request_per_sender_each_strangers :
  one_request_per_sender_each strangers.
Proof.
  unfold strangers.
  repeat apply one_request_per_sender_each_insert; try apply NoDup_nil_2.
  intros k u Hk. by rewrite lookup_empty in Hk.
Qed.

Ltac one_per_sender Hdb :=
  unfold one_request_per_sender; simpl;
  first [ by eapply Hdb
        | by (apply one_request_per_sender_without; eapply Hdb) ].

Ltac handler_cases :=
  repeat (case_decide || case_match); simpl; try done; simplify_eq.

(** Property X2. No operation puts a second request of the same sender on
    a record: Send refuses while any request of the sender is there, Reject
    rewrites the entry in place, Accept and Cancel only remove entries. *)
Theorem perform_keeps_one_request_per_sender (op : Operation)
    (db : gmap UserId User) :
  one_request_per_sender_each db →
  one_request_per_sender_each (perform op db).2.
Proof.
  intros Hdb. destruct op as [me t|me t|me t|me t|me t]; simpl.
  - unfold send_request. handler_cases.
    apply one_request_per_sender_each_insert; [done|].
    unfold one_request_per_sender. simpl. rewrite fmap_app. simpl.
    apply NoDup_app. split; [by eapply Hdb|]. split; [|apply NoDup_singleton].
    intros x Hx Hx'. apply list_elem_of_singleton in Hx' as ->.
    apply list_elem_of_fmap in Hx as (r & Hfrom & Hr).
    match goal with
    | H : find_request _ _ = None |- _ =>
        by apply (proj1 (find_request_None _ _) H r Hr)
    end.
  - unfold accept_request. handler_cases;
      (apply one_request_per_sender_each_alter; [done|]);
      (apply one_request_per_sender_each_insert; [done|]);
      one_per_sender Hdb.
  - unfold reject_request. handler_cases.
    apply one_request_per_sender_each_insert; [done|].
    unfold one_request_per_sender. simpl.
    match goal with
    | H : find_request _ _ = Some _ |- _ =>
        apply find_request_Some in H as [Hi _]
    end.
    rewrite list_fmap_insert. simpl.
    rewrite list_insert_id; [by eapply Hdb|].
    by rewrite list_lookup_fmap, Hi.
  - unfold cancel_request. handler_cases;
      repeat apply one_request_per_sender_each_insert; try done;
      one_per_sender Hdb.
  - unfold remove_friend. handler_cases;
      repeat apply one_request_per_sender_each_insert; try done;
      one_per_sender Hdb.
Qed.

(** A sends a request to B, a stranger. *)
Lemma perform_keeps_one_request_per_sender_witness :
  one_request_per_sender_each (perform (Send "A" (stored "B")) strangers).2.
Proof.
  exact (perform_keeps_one_request_per_sender (Send "A" (stored "B")) strangers
           one_request_per_sender_each_strangers).
Defined.

(** *** Remove friend *)



(** The scenario of the specification: A asks B, B accepts, A removes B. *)
Example friendship_scenario :
  (send_request "A" (stored "B") strangers).2 = asked
  ∧ (accept_request "B" (stored "A") asked).2
    = <["A" := {| friends := ["B"]; friendRequests := [] |}]>
        (<["B" := {| friends := ["A"]; friendRequests := [] |}]> ∅)
  ∧ (remove_friend "A" "B" (accept_request "B" (stored "A") asked).2).2
    = strangers.
Proof. vm_compute. repeat split. Qed.

End FriendsTheory.

(** ** The scheduled publisher *)
Module PublisherTheory.
Import PostModel Publisher PublisherProps.

Section loop.
Variable save_ok : PostId → bool.
Variable now : Z.

(** While the saves succeed the loop goes on with the rest of the batch. *)
Lemma publish_loop_app l1 l2 db log :
  (∀ k p, (k, p) ∈ l1 → save_ok k = true) →
  publish_loop save_ok now (l1 ++ l2) db log
  = publish_loop save_ok now l2
      (publish_loop save_ok now l1 db log).1
      (publish_loop save_ok now l1 db log).2.
Proof.
  revert db log. induction l1 as [|[k p] l1 IH]; intros db log Hok; [done|].
  simpl. rewrite (Hok k p) by left.
  apply IH. intros k' p' Hin. apply (Hok k' p'). by right.
Qed.

(** A batch whose saves all succeed is published whole. *)
Lemma publish_loop_all_saved l db log :
  (∀ k p, (k, p) ∈ l → save_ok k = true) →
  NoDup l.*1 →
  (publish_loop save_ok now l db log).2
  = log ++ (published_scheduled_post ∘ fst <$> l)
  ∧ (∀ k p, (k, p) ∈ l →
       (publish_loop save_ok now l db log).1 !! k = Some (publish now p))
  ∧ (∀ k, k ∉ l.*1 → (publish_loop save_ok now l db log).1 !! k = db !! k).
Proof.
  revert db log. induction l as [|[k p] l IH]; intros db log Hok Hnd.
  - simpl. rewrite app_nil_r. split; [done|]. split; [|done].
    intros k p Hin. by apply not_elem_of_nil in Hin.
  - simpl in *. apply NoDup_cons in Hnd as [Hk Hnd].
    rewrite (Hok k p) by left.
    destruct (IH (<[k:=publish now p]> db) (log ++ [published_scheduled_post k]))
      as (Hlog & Hin & Hout); [|done|].
    { intros k' p' Hin. apply (Hok k' p'). by right. }
    split; [|split].
    + rewrite Hlog. by rewrite <- app_assoc.
    + intros k' p' Hkp. apply elem_of_cons in Hkp as [Heq|Hkp].
      * simplify_eq. rewrite Hout by done. apply lookup_insert_eq.
      * by apply Hin.
    + intros k' Hk'. apply not_elem_of_cons in Hk' as [Hne Hk'].
      rewrite Hout by done. by rewrite lookup_insert_ne.
Qed.

End loop.

Lemma elem_of_getScheduledPostsToPublish now db k p :
  (k, p) ∈ getScheduledPostsToPublish now db
  ↔ db !! k = Some p ∧ is_due now p = true.
Proof.
  unfold getScheduledPostsToPublish.
  rewrite elem_of_map_to_list, map_lookup_filter_Some. simpl.
  split; intros [? ?]; split; try done; by apply Is_true_true.
Qed.

Lemma NoDup_getScheduledPostsToPublish now db :
  NoDup (getScheduledPostsToPublish now db).*1.
Proof. apply NoDup_fst_map_to_list. Qed.

Lemma is_due_spec now post :
  is_due now post = true
  ↔ status post = scheduled ∧ ∃ t, scheduledFor post = Some t ∧ (t ≤ now)%Z.
Proof.
  unfold is_due. rewrite andb_true_iff, bool_decide_eq_true.
  destruct (scheduledFor post) as [t|]; rewrite ?bool_decide_eq_true; split.
  - intros [? ?]. eauto.
  - intros (? & t' & ? & ?). by simplify_eq.
  - by intros [? ?].
  - by intros (? & t' & ? & ?).
Qed.




(** Claim C5, as amended. Within one tick the batch is processed in order
    inside a single [try]: when the save of a post fails, the failure is
    logged and the tick ends there. The posts before it in the batch are
    published; the failing post and the posts after it are left as they
    were, scheduled and due, for the next tick to select again. *)
Theorem tick_stops_at_failed_save (save_ok : PostId → bool) (now : Z)
    (db : gmap PostId Post) (saved : list (PostId * Post))
    (id : PostId) (post : Post) (rest : list (PostId * Post)) :
  getScheduledPostsToPublish now db = saved ++ (id, post) :: rest →
  (∀ k p, (k, p) ∈ saved → save_ok k = true) →
  save_ok id = false →
  (tick save_ok now db).2
  = (published_scheduled_post ∘ fst <$> saved) ++ [error_in_publisher id]
  ∧ (∀ k p, (k, p) ∈ saved →
       (tick save_ok now db).1 !! k = Some (publish now p))
  ∧ (∀ k p, (k, p) ∈ (id, post) :: rest →
       (tick save_ok now db).1 !! k = Some p
       ∧ status p = scheduled ∧ is_due now p = true).
Proof.
  intros Hbatch Hsaved Hfail. unfold tick.
  pose proof (NoDup_getScheduledPostsToPublish now db) as Hnd.
  assert (Hmem : ∀ k p, (k, p) ∈ saved ++ (id, post) :: rest →
                        db !! k = Some p ∧ is_due now p = true).
  { intros k p Hkp. rewrite <- Hbatch in Hkp.
    by apply elem_of_getScheduledPostsToPublish. }
  rewrite Hbatch in *. rewrite fmap_app in Hnd.
  apply NoDup_app in Hnd as (Hnd1 & Hdisj & Hnd2).
  rewrite publish_loop_app by done.
  destruct (publish_loop_all_saved save_ok now saved db [] Hsaved Hnd1)
    as (Hlog & Hin & Hout).
  simpl. rewrite Hfail. simpl. split; [|split].
  - by rewrite Hlog.
  - done.
  - intros k p Hkp.
    destruct (Hmem k p) as [Hk Hd]; [apply elem_of_app; by right|].
    split; [|split; [by apply is_due_spec in Hd as [? _] | done]].
    rewrite Hout; [done|]. intros Hfst. apply (Hdisj k Hfst).
    apply list_elem_of_fmap. by exists (k, p).
Qed.

(** A tick at 10 over [queue] when the save of p1 fails: p3 is published,
    p1 and p2 stay scheduled. *)
Lemma tick_stops_at_failed_save_witness :
  (tick p1_fails 10 queue).2
  = [published_scheduled_post "p3"; error_in_publisher "p1"]
  ∧ (∀ k p, (k, p) ∈ [("p3", scheduled_at 9)] →
       (tick p1_fails 10 queue).1 !! k = Some (publish 10 p))
  ∧ (∀ k p, (k, p) ∈ [("p1", scheduled_at 5); ("p2", scheduled_at 7)] →
       (tick p1_fails 10 queue).1 !! k = Some p
       ∧ status p = scheduled ∧ is_due 10 p = true).
Proof.
  apply (tick_stops_at_failed_save p1_fails 10 queue
           [("p3", scheduled_at 9)] "p1" (scheduled_at 5)
           [("p2", scheduled_at 7)]).
  - vm_compute. reflexivity.
  - intros k p Hkp. apply list_elem_of_singleton in Hkp.
    injection Hkp as -> _. reflexivity.
  - reflexivity.
Defined.

(** Claim C5 as first stated fails: p2 is due and its own save would
    succeed, but the save of p1 before it fails, and after the tick p2 is
    still scheduled and unpublished. *)
Lemma later_post_left_scheduled :
  queue !! "p2" = Some (scheduled_at 7)
  ∧ is_due 10 (scheduled_at 7) = true
  ∧ p1_fails "p2" = true
  ∧ (tick p1_fails 10 queue).2
    = [published_scheduled_post "p3"; error_in_publisher "p1"]
  ∧ (tick p1_fails 10 queue).1 !! "p2" = Some (scheduled_at 7)
  ∧ (tick p1_fails 10 queue).1 !! "p2" ≠ Some (publish 10 (scheduled_at 7)).
Proof.
  split; [reflexivity|]. split; [reflexivity|]. split; [reflexivity|].
  split; [vm_compute; reflexivity|]. split; [vm_compute; reflexivity|].
  vm_compute. discriminate.
Qed.

(** *** Retry and idempotence *)

(** After the loop a post is as before or, if in the batch, published. *)
Lemma publish_loop_lookup save_ok now l db log k :
  (publish_loop save_ok now l db log).1 !! k = db !! k
  ∨ ∃ p, (k, p) ∈ l
         ∧ (publish_loop save_ok now l db log).1 !! k = Some (publish now p).
Proof.
  revert db log. induction l as [|[k0 p0] l IH]; intros db log; [by left|].
  simpl. destruct (save_ok k0); [|by left].
  destruct (IH (<[k0:=publish now p0]> db) (log ++ [published_scheduled_post k0]))
    as [Heq|(p & Hp & Heq)].
  - destruct (decide (k0 = k)) as [->|Hne].
    + right. exists p0. split; [by left|]. by rewrite Heq, lookup_insert_eq.
    + left. by rewrite Heq, lookup_insert_ne.
  - right. exists p. split; [by right | done].
Qed.

(** After a tick a post is as before or, if it was due, published. *)
Lemma tick_lookup_any save_ok now db k p :
  db !! k = Some p →
  (tick save_ok now db).1 !! k = Some p
  ∨ (is_due now p = true ∧ (tick save_ok now db).1 !! k = Some (publish now p)).
Proof.
  intros Hk. unfold tick.
  destruct (publish_loop_lookup save_ok now
              (getScheduledPostsToPublish now db) db [] k)
    as [Heq|(p' & Hp' & Heq)].
  - left. by rewrite Heq.
  - right. apply elem_of_getScheduledPostsToPublish in Hp' as [Hk' Hd].
    by simplify_eq.
Qed.

Lemma tick_lookup_None save_ok now db k :
  db !! k = None → (tick save_ok now db).1 !! k = None.
Proof.
  intros Hk. unfold tick.
  destruct (publish_loop_lookup save_ok now
              (getScheduledPostsToPublish now db) db [] k)
    as [Heq|(p' & Hp' & Heq)].
  - by rewrite Heq.
  - apply elem_of_getScheduledPostsToPublish in Hp' as [Hk' Hd]. congruence.
Qed.

(** The posts after a tick whose saves succeed. *)
Lemma tick_lookup save_ok now db k :
  (∀ id post, db !! id = Some post → is_due now post = true → save_ok id = true) →
  (tick save_ok now db).1 !! k
  = (λ p, if is_due now p then publish now p else p) <$> db !! k.
Proof.
  intros Hsave. destruct (db !! k) as [p|] eqn:Hk; simpl.
  - unfold tick.
    destruct (publish_loop_all_saved save_ok now
                (getScheduledPostsToPublish now db) db [])
      as (_ & Hin & Hout).
    { intros k' p' Hkp. apply elem_of_getScheduledPostsToPublish in Hkp as [? ?].
      eauto. }
    { apply NoDup_getScheduledPostsToPublish. }
    destruct (is_due now p) eqn:Hd.
    + apply Hin. by apply elem_of_getScheduledPostsToPublish.
    + rewrite Hout; [done|].
      intros Hfst. apply list_elem_of_fmap in Hfst as ([k' p'] & -> & Hkp).
      apply elem_of_getScheduledPostsToPublish in Hkp as [Hk' Hd'].
      simpl in *. congruence.
  - by apply tick_lookup_None.
Qed.

Lemma is_due_publish now now' p : is_due now' (publish now p) = false.
Proof. done. Qed.

Lemma is_due_later now now' p :
  (now ≤ now')%Z → is_due now p = true → is_due now' p = true.
Proof.
  intros Hle Hd. apply is_due_spec in Hd as (Hs & t & Ht & Hle').
  apply is_due_spec. split; [done|]. exists t. split; [done | lia].
Qed.

Lemma nothing_due_tick save_ok now db :
  (∀ k p, db !! k = Some p → is_due now p = false) →
  tick save_ok now db = (db, []).
Proof.
  intros Hnone. unfold tick.
  assert (getScheduledPostsToPublish now db = []) as ->; [|done].
  unfold getScheduledPostsToPublish. apply map_to_list_empty_iff.
  apply map_empty_filter. intros k p Hk. simpl. rewrite (Hnone k p Hk). auto.
Qed.

(** Property X4. Publishing is idempotent: after a tick whose saves
    succeeded, a second tick at the same time selects nothing, writes
    nothing and logs nothing. *)
Theorem tick_twice (save_ok save_ok' : PostId → bool) (now : Z)
    (db : gmap PostId Post) :
  (∀ id post, db !! id = Some post → is_due now post = true → save_ok id = true) →
  tick save_ok' now (tick save_ok now db).1 = ((tick save_ok now db).1, []).
Proof.
  intros Hsave. apply nothing_due_tick. intros k p1 Hk1.
  rewrite tick_lookup in Hk1 by done.
  destruct (db !! k) as [p|]; simpl in Hk1; [|done].
  destruct (is_due now p) eqn:Hd; by simplify_eq.
Qed.

(** A tick at 10 over [queue], twice. *)
Lemma tick_twice_witness :
  tick p1_fails 10 (tick store_up 10 queue).1 = ((tick store_up 10 queue).1, []).
Proof.
  apply (tick_twice store_up p1_fails 10 queue). done.
Defined.

(** The posts after a tick that stopped at a failing save. *)
Lemma tick_lookup_stopped (save_ok : PostId → bool) (now : Z)
    (db : gmap PostId Post) (saved : list (PostId * Post))
    (id : PostId) (post : Post) (rest : list (PostId * Post)) :
  getScheduledPostsToPublish now db = saved ++ (id, post) :: rest →
  (∀ k p, (k, p) ∈ saved → save_ok k = true) →
  save_ok id = false →
  (∀ k p, (k, p) ∈ saved →
     (tick save_ok now db).1 !! k = Some (publish now p))
  ∧ (∀ k p, (k, p) ∈ (id, post) :: rest →
       (tick save_ok now db).1 !! k = Some p ∧ is_due now p = true).
Proof.
  intros Hbatch Hsaved Hfail. unfold tick.
  pose proof (NoDup_getScheduledPostsToPublish now db) as Hnd.
  assert (Hmem : ∀ k p, (k, p) ∈ saved ++ (id, post) :: rest →
                        db !! k = Some p ∧ is_due now p = true).
  { intros k p Hkp. rewrite <- Hbatch in Hkp.
    by apply elem_of_getScheduledPostsToPublish. }
  rewrite Hbatch in *. rewrite fmap_app in Hnd.
  apply NoDup_app in Hnd as (Hnd1 & Hdisj & Hnd2).
  rewrite publish_loop_app by done.
  destruct (publish_loop_all_saved save_ok now saved db [] Hsaved Hnd1)
    as (Hlog & Hin & Hout).
  simpl. rewrite Hfail. simpl. split; [done|].
  intros k p Hkp.
  destruct (Hmem k p) as [Hk Hd]; [apply elem_of_app; by right|].
  split; [|done].
  rewrite Hout; [done|]. intros Hfst. apply (Hdisj k Hfst).
  apply list_elem_of_fmap. by exists (k, p).
Qed.

(** Property X5. When a tick at [now] stops at a failing save and a later
    tick at [now'] has all its saves succeed, the failing post and the posts
    after it in the batch, which the first tick left as they were, are
    published by the later tick with [publishedAt = now']; the posts the
    first tick published keep [publishedAt = now]. *)
Theorem failed_save_retried (save_ok save_ok' : PostId → bool) (now now' : Z)
    (db : gmap PostId Post) (saved : list (PostId * Post))
    (id : PostId) (post : Post) (rest : list (PostId * Post)) :
  (now ≤ now')%Z →
  (∀ k p, db !! k = Some p → save_ok' k = true) →
  getScheduledPostsToPublish now db = saved ++ (id, post) :: rest →
  (∀ k p, (k, p) ∈ saved → save_ok k = true) →
  save_ok id = false →
  (∀ k p, (k, p) ∈ (id, post) :: rest →
     (tick save_ok now db).1 !! k = Some p
     ∧ ∃ post', (tick save_ok' now' (tick save_ok now db).1).1 !! k = Some post'
                ∧ post' = publish now' p
                ∧ status post' = published ∧ publishedAt post' = Some now')
  ∧ (∀ k p, (k, p) ∈ saved →
       (tick save_ok now db).1 !! k = Some (publish now p)
       ∧ ∃ post', (tick save_ok' now' (tick save_ok now db).1).1 !! k = Some post'
                  ∧ post' = publish now p
                  ∧ status post' = published ∧ publishedAt post' = Some now).
Proof.
  intros Hle Hsave Hbatch Hsaved Hfail.
  destruct (tick_lookup_stopped save_ok now db saved id post rest
              Hbatch Hsaved Hfail) as [Hfirst Hleft].
  assert (Hsave' : ∀ k p, (tick save_ok now db).1 !! k = Some p →
                     is_due now' p = true → save_ok' k = true).
  { intros k p Hk _. destruct (db !! k) as [p0|] eqn:Hk0.
    - by apply (Hsave k p0).
    - by rewrite tick_lookup_None in Hk. }
  split.
  - intros k p Hkp. destruct (Hleft k p Hkp) as [Hk Hd].
    split; [done|]. exists (publish now' p).
    rewrite tick_lookup by done. rewrite Hk. simpl.
    by rewrite (is_due_later now now' p Hle Hd).
  - intros k p Hkp. pose proof (Hfirst k p Hkp) as Hk.
    split; [done|]. exists (publish now p).
    rewrite tick_lookup by done. by rewrite Hk.
Qed.

(** The tick at 10 over [queue] stops at p1 after publishing p3; the tick
    at 11 publishes p1 and p2 with [publishedAt = 11], and p3 keeps 10. *)
Lemma failed_save_retried_witness :
  (∀ k p, (k, p) ∈ [("p1", scheduled_at 5); ("p2", scheduled_at 7)] →
     (tick p1_fails 10 queue).1 !! k = Some p
     ∧ ∃ post', (tick store_up 11 (tick p1_fails 10 queue).1).1 !! k = Some post'
                ∧ post' = publish 11 p
                ∧ status post' = published ∧ publishedAt post' = Some 11%Z)
  ∧ (∀ k p, (k, p) ∈ [("p3", scheduled_at 9)] →
       (tick p1_fails 10 queue).1 !! k = Some (publish 10 p)
       ∧ ∃ post', (tick store_up 11 (tick p1_fails 10 queue).1).1 !! k = Some post'
                  ∧ post' = publish 10 p
                  ∧ status post' = published ∧ publishedAt post' = Some 10%Z).
Proof.
  apply (failed_save_retried p1_fails store_up 10 11 queue
           [("p3", scheduled_at 9)] "p1" (scheduled_at 5)
           [("p2", scheduled_at 7)]).
  - lia.
  - done.
  - vm_compute. reflexivity.
  - intros k p Hkp. apply list_elem_of_singleton in Hkp.
    injection Hkp as -> _. reflexivity.
  - reflexivity.
Defined.

End PublisherTheory.

(** ** Likes *)
Module LikesTheory.
Import Likes.

Lemma isLikedBy_likers userId likes :
  isLikedBy userId likes = true ↔ userId ∈ likers likes.
Proof.
  unfold isLikedBy, likers. rewrite bool_decide_eq_true, Exists_exists.
  rewrite list_elem_of_fmap. split.
  - intros (like & Hin & Hu). eauto.
  - intros (like & Hu & Hin). eauto.
Qed.

Lemma isLikedBy_false userId likes :
  isLikedBy userId likes = false ↔ userId ∉ likers likes.
Proof.
  rewrite <- isLikedBy_likers. by destruct (isLikedBy userId likes).
Qed.

Lemma toggleLike_not_liked userId now likes :
  userId ∉ likers likes →
  toggleLike userId now likes
  = (true, likes ++ [{| user := userId; createdAt := now |}]).
Proof.
  intros Hnot. unfold toggleLike.
  destruct (list_find _ likes) as [[i like]|] eqn:Hf; [|done].
  apply list_find_Some in Hf as (Hi & Hu & _). exfalso. apply Hnot.
  apply list_elem_of_fmap. exists like. split; [done|].
  by eapply list_elem_of_lookup_2.
Qed.

Lemma toggleLike_liked userId now likes :
  userId ∈ likers likes →
  ∃ i like, likes !! i = Some like ∧ user like = userId
            ∧ toggleLike userId now likes = (false, delete i likes).
Proof.
  intros Hin. unfold toggleLike.
  apply list_elem_of_fmap in Hin as (like & Hu & Hin).
  destruct (list_find_elem_of (λ like, user like = userId) likes like)
    as [[i like'] Hf]; [done..|].
  rewrite Hf. apply list_find_Some in Hf as (Hi & Hu' & _). eauto.
Qed.

Lemma likers_delete i likes : likers (delete i likes) = delete i (likers likes).
Proof.
  apply list_fmap_delete.
Qed.

Lemma NoDup_delete_not_elem {A} (l : list A) i x :
  NoDup l → l !! i = Some x → x ∉ delete i l.
Proof.
  intros Hnd Hi. rewrite <- (take_drop_middle l i x Hi) in Hnd.
  rewrite delete_take_drop.
  apply NoDup_app in Hnd as (_ & Hdisj & Hnd). apply NoDup_cons in Hnd as [Hx _].
  intros Hin. apply elem_of_app in Hin as [Hin|Hin]; [|done].
  apply (Hdisj x Hin). by left.
Qed.

Lemma NoDup_delete {A} (l : list A) i : NoDup l → NoDup (delete i l).
Proof.
  intros Hnd. exact (sublist_NoDup (delete i l) l Hnd (sublist_delete l i)).
Qed.

(** One toggle: the flag returned is the user's new state. *)
Lemma toggleLike_flips userId now likes :
  NoDup (likers likes) →
  ∃ likes', toggleLike userId now likes
            = (negb (isLikedBy userId likes), likes')
    ∧ isLikedBy userId likes' = negb (isLikedBy userId likes)
    ∧ NoDup (likers likes')
    ∧ (isLikedBy userId likes = false →
         likes' = likes ++ [{| user := userId; createdAt := now |}])
    ∧ (isLikedBy userId likes = true →
         userId :: likers likes' ≡ₚ likers likes).
Proof.
  intros Hnd. destruct (isLikedBy userId likes) eqn:Hl.
  - apply isLikedBy_likers in Hl.
    destruct (toggleLike_liked userId now likes Hl) as (i & like & Hi & Hu & Ht).
    assert (Hi' : likers likes !! i = Some userId).
    { unfold likers. rewrite list_lookup_fmap, Hi. simpl. by rewrite Hu. }
    exists (delete i likes). rewrite Ht. simpl. split; [done|].
    split; [|split; [|split]].
    + apply isLikedBy_false. rewrite likers_delete.
      by apply NoDup_delete_not_elem.
    + rewrite likers_delete. by apply NoDup_delete.
    + done.
    + intros _. rewrite likers_delete. symmetry. by apply delete_Permutation.
  - apply isLikedBy_false in Hl.
    exists (likes ++ [{| user := userId; createdAt := now |}]).
    rewrite toggleLike_not_liked by done. simpl. split; [done|].
    split; [|split; [|split]].
    + apply isLikedBy_likers. unfold likers. rewrite fmap_app.
      apply elem_of_app. right. simpl. by left.
    + unfold likers. rewrite fmap_app. simpl.
      apply NoDup_app. split; [done|]. split; [|apply NoDup_singleton].
      intros x Hx Hx'. apply list_elem_of_singleton in Hx'. by subst.
    + done.
    + done.
Qed.

(** Liking and then unliking leaves the array as it was. *)
Lemma toggleLike_twice_not_liked userId now1 now2 likes :
  userId ∉ likers likes →
  toggleLike userId now2 (toggleLike userId now1 likes).2 = (false, likes).
Proof.
  intros Hnot. rewrite (toggleLike_not_liked userId now1 likes) by done.
  simpl. unfold toggleLike.
  assert (Hnone : list_find (λ like, user like = userId) likes = None).
  { apply list_find_None, Forall_forall. intros like Hin Hu. apply Hnot.
    apply list_elem_of_fmap. eauto. }
  rewrite list_find_app_r by done. simpl.
  rewrite decide_True by done. simpl.
  f_equal.
  rewrite delete_take_drop, take_app_length.
  rewrite drop_ge by (rewrite length_app; simpl; lia).
  apply app_nil_r.
Qed.

(** Two toggles in a row on a [likes] array. *)
Lemma toggleLike_twice userId now1 now2 likes :
  NoDup (likers likes) →
  ∃ likes1 likes2,
    toggleLike userId now1 likes = (negb (isLikedBy userId likes), likes1)
    ∧ toggleLike userId now2 likes1 = (isLikedBy userId likes, likes2)
    ∧ isLikedBy userId likes1 = negb (isLikedBy userId likes)
    ∧ isLikedBy userId likes2 = isLikedBy userId likes
    ∧ likesCount likes2 = likesCount likes
    ∧ likers likes2 ≡ₚ likers likes
    ∧ (isLikedBy userId likes = false → likes2 = likes).
Proof.
  intros Hnd.
  destruct (toggleLike_flips userId now1 likes Hnd)
    as (likes1 & Ht1 & Hl1 & Hnd1 & Hadd1 & Hdel1).
  destruct (toggleLike_flips userId now2 likes1 Hnd1)
    as (likes2 & Ht2 & Hl2 & Hnd2 & Hadd2 & Hdel2).
  rewrite Hl1, negb_involutive in Ht2, Hl2.
  exists likes1, likes2.
  split; [done|]. split; [done|]. split; [done|]. split; [done|].
  assert (Hperm : likers likes2 ≡ₚ likers likes).
  { destruct (isLikedBy userId likes) eqn:Hl; simpl in *.
    - specialize (Hdel1 eq_refl). specialize (Hadd2 Hl1). subst likes2.
      unfold likers in *. rewrite fmap_app. simpl. rewrite <- Hdel1.
      symmetry. apply Permutation_cons_append.
    - specialize (Hadd1 eq_refl). specialize (Hdel2 Hl1). subst likes1.
      unfold likers in *. rewrite fmap_app in Hdel2. simpl in Hdel2.
      rewrite <- Permutation_cons_append in Hdel2.
      by apply Permutation_cons_inv in Hdel2. }
  split; [|split].
  - unfold likesCount. apply Permutation_length in Hperm.
    unfold likers in Hperm. by rewrite !length_fmap in Hperm.
  - done.
  - intros Hl. rewrite Hl in *.
    assert (Hnot : userId ∉ likers likes) by by apply isLikedBy_false.
    pose proof (toggleLike_twice_not_liked userId now1 now2 likes Hnot) as H2.
    rewrite Ht1 in H2. simpl in H2. rewrite Ht2 in H2. by simplify_eq.
Qed.

End LikesTheory.

(** ** Like and single-post routes *)
Module PostRoutesTheory.
Import Likes PostModel PostRoutes LikesTheory PostRoutesProps.

(** Claim C7, as amended. For every post whose [likes] hold each user at
    most once and every user, each toggle answers with the user's new
    liked state and the new count, and two toggles in a row bring back the
    original [likesCount] and the original set of likers. The second
    response reports the user's original state: [isLiked = false] when the
    user had not liked the post, in which case the post is exactly as
    before, and [isLiked = true] when the user had. *)
Theorem like_post_twice (me : UserId) (id : PostId) (now1 now2 : Z)
    (db : gmap PostId Post) (post : Post) :
  db !! id = Some post →
  NoDup (likers (likes post)) →
  ∃ post1 post2 msg1 msg2,
    like_post me id now1 db
    = (like_success msg1 (negb (isLikedBy me (likes post))) (likesCount post1),
       <[id := post1]> db)
    ∧ like_post me id now2 (<[id := post1]> db)
      = (like_success msg2 (isLikedBy me (likes post)) (likesCount post2),
         <[id := post2]> db)
    ∧ isLikedBy me (likes post1) = negb (isLikedBy me (likes post))
    ∧ isLikedBy me (likes post2) = isLikedBy me (likes post)
    ∧ likesCount post2 = likesCount post
    ∧ likers (likes post2) ≡ₚ likers (likes post)
    ∧ (isLikedBy me (likes post) = false → post2 = post).
Proof.
  intros Hid Hnd.
  destruct (toggleLike_twice me now1 now2 (likes post) Hnd)
    as (likes1 & likes2 & Ht1 & Ht2 & Hl1 & Hl2 & Hcount & Hperm & Hsame).
  exists (set_likes likes1 post), (set_likes likes2 post).
  eexists _, _. unfold like_post, toggleLike.
  rewrite Hid, Ht1, lookup_insert_eq. simpl. rewrite Ht2.
  rewrite insert_insert_eq.
  split; [reflexivity|]. split; [reflexivity|].
  split; [done|]. split; [done|]. split; [done|]. split; [done|].
  intros Hl. rewrite (Hsame Hl). by destruct post.
Qed.

(** A likes, then unlikes, a post nobody has liked. *)
Lemma like_post_twice_witness :
  ∃ post1 post2 msg1 msg2,
    like_post "A" "q" 2 blog
    = (like_success msg1 (negb (isLikedBy "A" (likes unliked_post)))
         (likesCount post1),
       <["q" := post1]> blog)
    ∧ like_post "A" "q" 3 (<["q" := post1]> blog)
      = (like_success msg2 (isLikedBy "A" (likes unliked_post))
           (likesCount post2),
         <["q" := post2]> blog)
    ∧ isLikedBy "A" (likes post1) = negb (isLikedBy "A" (likes unliked_post))
    ∧ isLikedBy "A" (likes post2) = isLikedBy "A" (likes unliked_post)
    ∧ likesCount post2 = likesCount unliked_post
    ∧ likers (likes post2) ≡ₚ likers (likes unliked_post)
    ∧ (isLikedBy "A" (likes unliked_post) = false → post2 = unliked_post).
Proof.
  apply (like_post_twice "A" "q" 2 3 blog unliked_post); [reflexivity|].
  apply NoDup_nil_2.
Defined.

(** Claim C7 as first stated fails: A has liked the post; the first toggle
    unlikes it and the second answers [isLiked = true], and the like it
    pushes is a new element. *)
Lemma second_toggle_reports_liked :
  blog !! "p" = Some liked_post
  ∧ (like_post "A" "p" 2 blog).1 = like_success "Post unliked" false 0
  ∧ (like_post "A" "p" 3 (like_post "A" "p" 2 blog).2).1
    = like_success "Post liked" true 1
  ∧ (like_post "A" "p" 3 (like_post "A" "p" 2 blog).2).2 !! "p"
    = Some (set_likes [{| user := "A"; createdAt := 3 |}] liked_post)
  ∧ (like_post "A" "p" 3 (like_post "A" "p" 2 blog).2).2 !! "p"
    ≠ Some liked_post.
Proof.
  split; [reflexivity|]. split; [vm_compute; reflexivity|].
  split; [vm_compute; reflexivity|]. split; [vm_compute; reflexivity|].
  vm_compute. discriminate.
Qed.

(** Claim C10. Fetching a post by id checks neither status, visibility
    nor the caller: for every existing post, whatever its status and
    [isPublic] flag, whatever the caller sent and however the request spells
    the id, the response carries the post with every field as stored except
    [views], and the stored view counter is one higher after each fetch.
    NotFound is the answer exactly when the id is an ObjectId under which no
    post is stored, and the collection is then unchanged; a path segment
    that is no ObjectId is answered 500, not NotFound. *)
Theorem get_post_unguarded (caller : Caller) (id : IdParam)
    (db : gmap PostId Post) :
  (∀ _id post, objectId id = Some _id → db !! _id = Some post →
     ∃ post', get_post caller id db = (get_post_success post', <[_id := post']> db)
       ∧ views post' = S (views post)
       ∧ author post' = author post ∧ title post' = title post
       ∧ content post' = content post ∧ status post' = status post
       ∧ scheduledFor post' = scheduledFor post
       ∧ publishedAt post' = publishedAt post ∧ likes post' = likes post
       ∧ isPublic post' = isPublic post
       ∧ allowComments post' = allowComments post)
  ∧ ((get_post caller id db).1 = get_post_failed post_not_found
     ↔ ∃ _id, objectId id = Some _id ∧ db !! _id = None)
  ∧ (objectId id = None →
       get_post caller id db = (get_post_failed get_post_error, db))
  ∧ ((∀ post, (get_post caller id db).1 ≠ get_post_success post) →
       (get_post caller id db).2 = db).
Proof.
  unfold get_post. split; [|split; [|split]].
  - intros _id post -> ->. eexists. split; [reflexivity|]. by repeat split.
  - destruct (objectId id) as [_id|]; simpl.
    + destruct (db !! _id) eqn:Hid; simpl; split.
      * done.
      * intros (? & ? & ?). simplify_eq.
      * intros _. by exists _id.
      * done.
    + split; [done|]. by intros (? & ? & _).
  - by intros ->.
  - destruct (objectId id) as [_id|]; [|done].
    destruct (db !! _id) as [post|]; [|done]. simpl. intros H.
    by destruct (H (incrementViews post)).
Qed.

(** The draft [private_draft], which is not public, is served to a caller
    without a token, and its view counter goes from 7 to 8; the path segment
    "categories", which is no ObjectId, is answered 500. *)
Lemma get_post_unguarded_witness :
  (∃ post', get_post anonymous (stored "d") blog
            = (get_post_success post', <["d" := post']> blog)
     ∧ views post' = 8
     ∧ status post' = draft ∧ isPublic post' = false
     ∧ title post' = "Notes" ∧ content post' = "Not ready")
  ∧ get_post anonymous {| spelling := "categories"; objectId := None |} blog
    = (get_post_failed get_post_error, blog).
Proof.
  split.
  - destruct (proj1 (get_post_unguarded anonymous (stored "d") blog)
                "d" private_draft eq_refl eq_refl)
      as (post' & Hget & Hviews & _ & Htitle & Hcontent & Hstatus & _ & _ & _
          & Hpublic & _).
    exists post'. by repeat split.
  - by apply (get_post_unguarded anonymous
                {| spelling := "categories"; objectId := None |} blog).
Defined.

End PostRoutesTheory.

(** ** Like route of the comments *)
Module CommentRoutesTheory.
Import Likes CommentRoutes LikesTheory CommentRoutesProps.

(** Property X6. The like route of the comments behaves as the one of the
    posts: on a comment whose [likes] hold each user at most once, each
    toggle answers with the user's new state and the new count, and two
    toggles in a row bring back the original count, the original likers
    and, in the second response, the user's original state. *)
Theorem like_comment_twice (me : UserId) (id : CommentId) (now1 now2 : Z)
    (db : gmap CommentId Comment) (comment : Comment) :
  db !! id = Some comment →
  NoDup (likers (likes comment)) →
  ∃ comment1 comment2 msg1 msg2,
    like_comment me id now1 db
    = (PostRoutes.like_success msg1 (negb (isLikedBy me (likes comment)))
         (likesCount comment1),
       <[id := comment1]> db)
    ∧ like_comment me id now2 (<[id := comment1]> db)
      = (PostRoutes.like_success msg2 (isLikedBy me (likes comment))
           (likesCount comment2),
         <[id := comment2]> db)
    ∧ isLikedBy me (likes comment1) = negb (isLikedBy me (likes comment))
    ∧ isLikedBy me (likes comment2) = isLikedBy me (likes comment)
    ∧ likesCount comment2 = likesCount comment
    ∧ likers (likes comment2) ≡ₚ likers (likes comment)
    ∧ (isLikedBy me (likes comment) = false → comment2 = comment).
Proof.
  intros Hid Hnd.
  destruct (toggleLike_twice me now1 now2 (likes comment) Hnd)
    as (likes1 & likes2 & Ht1 & Ht2 & Hl1 & Hl2 & Hcount & Hperm & Hsame).
  exists (set_likes likes1 comment), (set_likes likes2 comment).
  eexists _, _. unfold like_comment, toggleLike.
  rewrite Hid, Ht1, lookup_insert_eq. simpl. rewrite Ht2.
  rewrite insert_insert_eq.
  split; [reflexivity|]. split; [reflexivity|].
  split; [done|]. split; [done|]. split; [done|]. split; [done|].
  intros Hl. rewrite (Hsame Hl). by destruct comment.
Qed.

(** A unlikes, then likes again, a comment it had liked. *)
Lemma like_comment_twice_witness :
  ∃ comment1 comment2 msg1 msg2,
    like_comment "A" "c" 2 thread
    = (PostRoutes.like_success msg1 (negb (isLikedBy "A" (likes liked_comment)))
         (likesCount comment1),
       <["c" := comment1]> thread)
    ∧ like_comment "A" "c" 3 (<["c" := comment1]> thread)
      = (PostRoutes.like_success msg2 (isLikedBy "A" (likes liked_comment))
           (likesCount comment2),
         <["c" := comment2]> thread)
    ∧ isLikedBy "A" (likes comment1) = negb (isLikedBy "A" (likes liked_comment))
    ∧ isLikedBy "A" (likes comment2) = isLikedBy "A" (likes liked_comment)
    ∧ likesCount comment2 = likesCount liked_comment
    ∧ likers (likes comment2) ≡ₚ likers (likes liked_comment)
    ∧ (isLikedBy "A" (likes liked_comment) = false → comment2 = liked_comment).
Proof.
  apply (like_comment_twice "A" "c" 2 3 thread liked_comment); [reflexivity|].
  apply NoDup_singleton.
Defined.

End CommentRoutesTheory.

(** ** Direct messages *)
Module MessagesTheory.
Import Messages MessagesProps.


(** *** Sending *)



(** A blank content passes the validation chain ([notEmpty] runs before
    [trim]) and is refused by the schema: the handler answers 500. *)
Example blank_message_refused :
  validation_errors (js := ascii_strings) "  " = []
  ∧ send_message (js := ascii_strings) alice (stored "B") "  " 5 one_sided []
    = (error_sending, []).
Proof. vm_compute. by split. Qed.

(** B's id in another spelling names B's record but is not found in A's
    friends. *)
Example respelled_friend_refused :
  send_message (js := ascii_strings) alice (respelled "B" "b") "hi" 5
    one_sided []
  = (Forbidden, []).
Proof. vm_compute. reflexivity. Qed.

End MessagesTheory.

(** ** Pagination and the lists of friend requests *)
Module PagingTheory.
Import Paging.


Lemma slice_sublist {A} (start stop : Z) (l : list A) :
  slice start stop l `sublist_of` l.
Proof.
  unfold slice. etrans; [apply sublist_take | apply sublist_drop].
Qed.




(** A slice that stops at index 0 is empty, wherever it starts. *)
Lemma slice_stop_0 {A} (start : Z) (l : list A) : slice start 0 l = [].
Proof.
  unfold slice. simpl. rewrite Z.min_l by lia.
  match goal with |- take ?n _ = _ => replace n with 0%nat; [done|] end.
  destruct (Z.ltb_spec start 0); lia.
Qed.

End PagingTheory.

Module FriendListsTheory.
Import Friends FriendsProps Paging PagingTheory FriendLists FriendListsProps.

Lemma elem_of_pendingRequests db cu r :
  r ∈ pendingRequests db cu
  ↔ r ∈ friendRequests cu ∧ status r = pending ∧ is_Some (db !! from r).
Proof. unfold pendingRequests. rewrite list_elem_of_filter. tauto. Qed.

(** Property X7. GET /api/friends/requests answers 404 'User not found'
    when the caller's record is gone. Otherwise, whatever the page and the
    limit, the requests it lists are entries of the caller's friendRequests,
    in their order, each of them pending and with a sender whose record
    exists; a request that is not pending is never listed; and [total]
    counts the pending requests of existing senders. *)
Theorem get_requests_lists_pending (me : UserId) (page limit : option Z)
    (db : gmap UserId User) :
  (db !! me = None → get_requests me page limit db = requests_failed user_not_found)
  ∧ (∀ cu, db !! me = Some cu →
       ∃ rs p, get_requests me page limit db = requests_listed rs p
         ∧ rs `sublist_of` friendRequests cu
         ∧ (∀ r, r ∈ rs → status r = pending ∧ is_Some (db !! from r))
         ∧ total p = Z.of_nat (List.length (pendingRequests db cu))
         ∧ (∀ r, r ∈ friendRequests cu → status r ≠ pending → r ∉ rs)).
Proof.
  unfold get_requests. split; [by intros ->|].
  intros cu ->. eexists _, _. split; [reflexivity|].
  assert (Hsub : ∀ a b r, r ∈ slice a b (pendingRequests db cu) →
                          r ∈ pendingRequests db cu).
  { intros a b r Hr. eapply elem_of_sublist; [exact Hr | apply slice_sublist]. }
  split; [|split; [|split]].
  - etrans; [apply slice_sublist|]. apply sublist_filter.
  - intros r Hr. apply Hsub, elem_of_pendingRequests in Hr. tauto.
  - done.
  - intros r _ Hs Hr. apply Hsub, elem_of_pendingRequests in Hr. tauto.
Qed.


(** Property X9. For a page and a limit that are safe integers, outside
    that range the list is cut by [slice] as follows. Page 0 lists nothing,
    whatever the limit. With limit 0 every page lists nothing, [pages] is
    null, and [hasNext] is true exactly when some request is pending. A
    negative page with a limit of at least 1 counts from the end: it lists
    [limit] requests starting [(1 - page) * limit] before the end of the
    pending requests, when there are that many. *)
Theorem get_requests_edge_pages (me : UserId) (db : gmap UserId User)
    (cu : User) :
  db !! me = Some cu →
  (∀ limit, safe_query limit →
     listed (get_requests me (Some 0%Z) limit db) = [])
  ∧ (∀ page, safe_query page → ∃ p,
       get_requests me page (Some 0%Z) db = requests_listed [] p
       ∧ pages p = None
       ∧ (hasNext p = true ↔ pendingRequests db cu ≠ []))
  ∧ (∀ page limit, safe_integer page → safe_integer limit →
       (page < 0)%Z → (1 ≤ limit)%Z →
       ((1 - page) * limit ≤ Z.of_nat (List.length (pendingRequests db cu)))%Z →
       listed (get_requests me (Some page) (Some limit) db)
       = take (Z.to_nat limit)
           (drop (List.length (pendingRequests db cu)
                  - Z.to_nat ((1 - page) * limit))
              (pendingRequests db cu))).
Proof.
  intros Hme. unfold get_requests. rewrite Hme. simpl.
  set (l := pendingRequests db cu). split; [|split].
  - intros limit _.
    replace ((0 - 1) * default 10 limit + default 10 limit)%Z with 0%Z by lia.
    apply slice_stop_0.
  - intros page _. eexists. split.
    + f_equal. unfold slice.
      replace ((default 1 page - 1) * 0 + 0)%Z with 0%Z by lia.
      replace ((default 1 page - 1) * 0)%Z with 0%Z by lia.
      simpl. by rewrite Z.min_l by lia.
    + simpl. split; [done|]. rewrite bool_decide_eq_true.
      rewrite <- length_zero_iff_nil. lia.
  - intros page limit _ _ Hp Hl Hlen. unfold slice.
    assert (((page - 1) * limit <? 0)%Z = true) as -> by nia.
    assert (((page - 1) * limit + limit <? 0)%Z = true) as -> by nia.
    rewrite !Z.max_l by nia. f_equal; [nia|]. f_equal. nia.
Qed.

Lemma get_requests_lists_pending_witness :
  ∃ p, get_requests "B" None None inbox
       = requests_listed [{| from := "A"; status := pending |};
                          {| from := "E"; status := pending |};
                          {| from := "F"; status := pending |}] p
       ∧ total p = 3%Z.
Proof.
  destruct (proj2 (get_requests_lists_pending "B" None None inbox) _ eq_refl)
    as (rs & p & Hget & _ & _ & Htotal & _).
  exists p. split; [|exact Htotal].
  rewrite Hget. vm_compute in Hget. injection Hget as <- _. reflexivity.
Defined.


Lemma get_requests_edge_pages_witness :
  listed (get_requests "B" (Some 0%Z) None inbox) = []
  ∧ (∃ p, get_requests "B" (Some 3%Z) (Some 0%Z) inbox = requests_listed [] p
          ∧ pages p = None ∧ hasNext p = true)
  ∧ listed (get_requests "B" (Some (-1)%Z) (Some 1%Z) inbox)
    = [{| from := "E"; status := pending |}].
Proof.
  assert (Hsafe : ∀ n, (-1 ≤ n ≤ 3)%Z → safe_integer n).
  { intros n Hn. unfold safe_integer.
    change (2 ^ 53 - 1)%Z with 9007199254740991%Z. lia. }
  pose proof (get_requests_edge_pages "B" inbox _ eq_refl)
    as (H0 & Hnone & Hneg).
  split; [by apply H0|]. split.
  - destruct (Hnone (Some 3%Z)) as (p & Hget & Hpages & Hnext).
    { apply Hsafe. lia. }
    exists p. split; [exact Hget|]. split; [exact Hpages|].
    apply Hnext. vm_compute. discriminate.
  - rewrite Hneg;
      [reflexivity | apply Hsafe; lia | apply Hsafe; lia | lia | lia
      | vm_compute; discriminate].
Defined.

(** Property X10. The [total] of GET /api/friends/requests/sent is at
    least the number of users on whose record a request of the caller is
    pending, and it is more as soon as some user holds a request of the
    caller that is not pending next to a pending request of anybody: the
    two conditions of the query may hold of different elements of
    [friendRequests]. *)
Theorem sent_requests_total_overcounts (me : UserId) (db : gmap UserId User) :
  (awaiting_total me db ≤ sent_requests_total me db)%nat
  ∧ (∀ t u, db !! t = Some u →
       has_request_from me u → ¬ pending_from me u →
       (∃ r, r ∈ friendRequests u ∧ status r = pending) →
       (awaiting_total me db < sent_requests_total me db)%nat).
Proof.
  assert (Hsub : filter (λ ku : UserId * User, pending_from me ku.2) db
                 ⊆ filter (λ ku : UserId * User, sent_requests_filter me ku.2) db).
  { apply map_filter_subseteq_ext. intros i x _. simpl.
    unfold pending_from, sent_requests_filter. rewrite !Exists_exists.
    intros (r & Hr & Hf & Hs). split; exists r; done. }
  split; [by apply map_subseteq_size|].
  intros t u Ht (r & Hr & Hf) Hnp (r' & Hr' & Hs').
  apply map_subset_size. split; [exact Hsub|].
  intros Hsup. rewrite map_subseteq_spec in Hsup.
  specialize (Hsup t u). rewrite !map_lookup_filter_Some in Hsup.
  destruct Hsup as [_ Hp]; [|done].
  split; [done|]. simpl. unfold sent_requests_filter.
  rewrite !Exists_exists. split; eauto.
Qed.

Lemma sent_requests_total_overcounts_witness :
  awaiting_total "A" refused_then_asked = 0%nat
  ∧ (0 < sent_requests_total "A" refused_then_asked)%nat.
Proof.
  assert (H0 : awaiting_total "A" refused_then_asked = 0%nat)
    by (vm_compute; reflexivity).
  split; [exact H0|]. rewrite <- H0.
  apply (proj2 (sent_requests_total_overcounts "A" refused_then_asked) "B"
           {| friends := [];
              friendRequests := [{| from := "A"; status := rejected |};
                                 {| from := "C"; status := pending |}] |}).
  - vm_compute; reflexivity.
  - exists {| from := "A"; status := rejected |}. split; [left|done].
  - intros H. vm_compute in H. rewrite Exists_exists in H.
    destruct H as (r & Hr & Hf & Hs).
    rewrite !elem_of_cons in Hr. destruct Hr as [->| [->|Hr]]; try done.
    by apply elem_of_nil in Hr.
  - exists {| from := "C"; status := pending |}. split; [right; left|done].
Defined.
End FriendListsTheory.

(** ** The message box *)
Module MessageBoxTheory.
Import Messages MessagesProps Paging MessageBox MessageBoxProps.

(** Property X11. PUT /api/messages/:userId/read changes nothing but read
    marks. Every message keeps its place, sender, recipient, content and
    date; an unread message of [userId] to the caller becomes read, with
    [readAt] the time of the call; every other message is unchanged, so a
    message read before keeps its [readAt]. Afterwards no message of
    [userId] to the caller is unread, the caller's unread count has gone down
    by the number of messages marked, nobody else's unread count has changed,
    and a second call changes nothing. *)
Theorem mark_read_marks_one_sender (me userId : UserId) (now : Z)
    (messages : list Message) :
  let after := (mark_read me userId now messages).2 in
  (∀ i m, messages !! i = Some m →
     ∃ m', after !! i = Some m'
       ∧ sender m' = sender m ∧ recipient m' = recipient m
       ∧ content m' = content m ∧ createdAt m' = createdAt m
       ∧ (unread_from userId me m → read m' = true ∧ readAt m' = Some now)
       ∧ (¬ unread_from userId me m → m' = m))
  ∧ List.length after = List.length messages
  ∧ (∀ m', m' ∈ after → ¬ unread_from userId me m')
  ∧ (unread_count me after
     + List.length (filter (unread_from userId me) messages)
     = unread_count me messages)%nat
  ∧ (∀ other, other ≠ me →
       unread_count other after = unread_count other messages)
  ∧ (∀ later, (mark_read me userId later after).2 = after).
Proof.
  simpl. split; [|split; [|split; [|split; [|split]]]].
  - intros i m Hi. rewrite list_lookup_fmap, Hi. simpl. eexists. split; [done|].
    case_decide; simpl; repeat split; done.
  - by rewrite length_fmap.
  - intros m' Hm'. apply list_elem_of_fmap in Hm' as (m & -> & _).
    case_decide as Hu; [|done]. intros (_ & _ & Hr). done.
  - unfold unread_count. induction messages as [|m messages IH]; [done|].
    rewrite fmap_cons, !filter_cons.
    destruct (decide (unread_from userId me m)) as [Hu|Hu].
    + destruct Hu as (Hs & Hrc & Hr).
      rewrite decide_False by (unfold unread_for; simpl; intros [_ ?]; done).
      rewrite (decide_True (P := unread_for me m)) by done.
      simpl. lia.
    + destruct (decide (unread_for me m)); simpl; lia.
  - intros other Hother. unfold unread_count.
    induction messages as [|m messages IH]; [done|].
    rewrite fmap_cons, !filter_cons.
    destruct (decide (unread_from userId me m)) as [(Hs & Hrc & Hr)|Hu].
    + rewrite !decide_False; [exact IH|..]; unfold unread_for; simpl;
        intros [? ?]; congruence.
    + destruct (decide (unread_for other m)); simpl; by rewrite IH.
  - intros later. rewrite <- list_fmap_compose. apply list_fmap_ext.
    intros i m _. simpl.
    destruct (decide (unread_from userId me m)) as [Hu|Hu].
    + rewrite decide_False; [done|]. intros (_ & _ & Hr). done.
    + by rewrite decide_False.
Qed.


Lemma mark_read_marks_one_sender_witness :
  (unread_count "A" (mark_read "A" "B" 9 mailbox).2 + 2 = 4)%nat.
Proof.
  exact (proj1 (proj2 (proj2 (proj2
           (mark_read_marks_one_sender "A" "B" 9 mailbox))))).
Defined.

(** *** The conversation list *)

#[local] Instance newer_first_trans {A} (key : A → Message) :
  Transitive (newer_first key).
Proof. intros x y z. unfold newer_first. lia. Qed.

#[local] Instance newer_first_total {A} (key : A → Message) :
  Total (newer_first key).
Proof. intros x y. unfold newer_first. lia. Qed.

Lemma between_counterpart me c m :
  between me c m ↔ (sender m = me ∨ recipient m = me) ∧ counterpart me m = c.
Proof.
  unfold between, counterpart. case_decide; split; intros H'; intuition congruence.
Qed.

Lemma unread_from_between me c m :
  unread_from c me m ↔ between me c m ∧ unread_for me m.
Proof. unfold unread_from, between, unread_for. intuition congruence. Qed.

Lemma groups_lookup me docs c :
  foldl (group_step me) ∅ docs !! c
  = match filter (λ m, counterpart me m = c) docs with
    | [] => None
    | m :: rest =>
      Some {| lastMessage := m;
              unreadCount := List.length (filter (unread_for me) (m :: rest)) |}
    end.
Proof.
  induction docs as [|x docs IH] using rev_ind; [done|].
  rewrite foldl_app, filter_app. simpl. unfold group_step at 1.
  destruct (decide (counterpart me x = c)) as [<-|Hne].
  - rewrite (filter_cons_True _ x) by done. rewrite filter_nil, IH.
    destruct (filter _ docs) as [|m rest]; rewrite lookup_insert_eq; simpl.
    + rewrite filter_cons, filter_nil. by case_decide.
    + do 2 f_equal. rewrite !filter_cons, filter_app, filter_cons, filter_nil.
      repeat case_decide; simpl; rewrite ?length_app; simpl; lia.
  - rewrite (filter_cons_False _ x) by done. rewrite filter_nil, app_nil_r.
    destruct (_ !! counterpart me x); by rewrite lookup_insert_ne.
Qed.

Lemma unread_in_comm (j1 j2 : UserId) (z1 z2 : Conversation) (y : nat) :
  (unreadCount z1 + (unreadCount z2 + y) = unreadCount z2 + (unreadCount z1 + y))%nat.
Proof. lia. Qed.

Lemma unread_in_insert cs c g :
  cs !! c = None → unread_in (<[c := g]> cs) = (unreadCount g + unread_in cs)%nat.
Proof.
  intros Hc. unfold unread_in. rewrite map_fold_insert_L; [done| |done].
  intros. apply unread_in_comm; done.
Qed.

Lemma unread_in_delete cs c g :
  cs !! c = Some g → unread_in cs = (unreadCount g + unread_in (delete c cs))%nat.
Proof.
  intros Hc. unfold unread_in. rewrite (map_fold_delete_L _ _ c g cs); [done| |done].
  intros. apply unread_in_comm; done.
Qed.

Lemma unread_in_groups me docs :
  unread_in (foldl (group_step me) ∅ docs)
  = List.length (filter (unread_for me) docs).
Proof.
  induction docs as [|x docs IH] using rev_ind; [done|].
  rewrite foldl_app, filter_app, length_app, <- IH. simpl. unfold group_step.
  destruct (_ !! counterpart me x) as [g|] eqn:Hg.
  - rewrite <- insert_delete_eq, unread_in_insert by apply lookup_delete_eq.
    rewrite (unread_in_delete _ _ _ Hg). simpl.
    rewrite filter_cons, filter_nil. case_decide; simpl; lia.
  - rewrite unread_in_insert by done. simpl.
    rewrite filter_cons, filter_nil. case_decide; simpl; lia.
Qed.

Lemma unread_in_filter (P : UserId * Conversation → Prop)
    `{!∀ x, Decision (P x)} (cs : gmap UserId Conversation) :
  (unread_in (filter P cs) ≤ unread_in cs)%nat
  ∧ ((∀ k g, cs !! k = Some g → ¬ P (k, g) → unreadCount g = 0%nat) →
     unread_in (filter P cs) = unread_in cs).
Proof.
  induction cs as [|k g cs Hk [IHle IHeq]] using map_ind.
  - by rewrite map_filter_empty.
  - rewrite map_filter_insert, unread_in_insert by done.
    assert (Heq' : (∀ k' g', <[k:=g]> cs !! k' = Some g' → ¬ P (k', g') →
                             unreadCount g' = 0%nat) →
                   unread_in (filter P cs) = unread_in cs).
    { intros Hz. apply IHeq. intros k' g' Hk' HP. apply (Hz k'); [|done].
      rewrite lookup_insert_ne; [done|]. intros <-. congruence. }
    case_decide as HP.
    + rewrite unread_in_insert by (rewrite map_lookup_filter_None; by left).
      split; [lia|]. intros Hz. by rewrite Heq'.
    + rewrite delete_id by done. split; [lia|].
      intros Hz. rewrite Heq' by done.
      rewrite (Hz k g); [done| |done]. by rewrite lookup_insert_eq.
Qed.


Lemma StronglySorted_sublist {A} (R : relation A) (l1 l2 : list A) :
  l1 `sublist_of` l2 → StronglySorted R l2 → StronglySorted R l1.
Proof.
  induction 1 as [|x l1 l2 Hsub IH|x l1 l2 Hsub IH]; intros Hs; [done|..];
    apply StronglySorted_inv in Hs as [Hs Hall].
  - constructor; [by apply IH|].
    rewrite Forall_forall in Hall |- *. intros y Hy. apply Hall.
    by eapply elem_of_sublist.
  - by apply IH.
Qed.

(** The first message of a sorted thread is one of its newest. *)
Lemma sorted_head_newest (P : Message → Prop) `{!∀ m, Decision (P m)}
    (docs : list Message) (m0 : Message) (rest : list Message) :
  filter P (merge_sort (newer_first id) docs) = m0 :: rest →
  m0 ∈ docs ∧ P m0
  ∧ ∀ m, m ∈ docs → P m → (createdAt m ≤ createdAt m0)%Z.
Proof.
  intros Hf.
  assert (Hin : ∀ m, m ∈ m0 :: rest ↔ m ∈ docs ∧ P m).
  { intros m. rewrite <- Hf, list_elem_of_filter, merge_sort_Permutation. tauto. }
  split; [apply Hin; left|]. split; [apply Hin; left|].
  intros m Hm HP.
  assert (Hs : StronglySorted (newer_first id) (m0 :: rest)).
  { rewrite <- Hf. eapply StronglySorted_sublist; [apply sublist_filter|].
    apply StronglySorted_merge_sort; apply _. }
  apply StronglySorted_inv in Hs as [_ Hall]. rewrite Forall_forall in Hall.
  assert (m ∈ m0 :: rest) as [->|Hr]%elem_of_cons by (by apply Hin).
  - lia.
  - apply (Hall m Hr).
Qed.

(** Property X12. The conversation list of a user has one entry for each
    other party whose record exists and with whom a message was exchanged.
    The [unreadCount] of the entry is the number of unread messages the
    party sent to the user, those PUT /api/messages/:userId/read would mark;
    its [lastMessage] is a message between the two, and none of their
    messages is later. The [unreadCount]s add up to at most the count of
    GET /api/messages/unread/count, and to that count when the sender of
    every unread message still exists. *)
Theorem conversations_summarise_threads (me : UserId)
    (users : gmap UserId Friends.User) (messages : list Message) :
  let conversations := getUserConversations me users messages in
  (∀ c, is_Some (conversations !! c)
        ↔ is_Some (users !! c) ∧ ∃ m, m ∈ messages ∧ between me c m)
  ∧ (∀ c g, conversations !! c = Some g →
       unreadCount g = List.length (filter (unread_from c me) messages)
       ∧ lastMessage g ∈ messages ∧ between me c (lastMessage g)
       ∧ ∀ m, m ∈ messages → between me c m →
              (createdAt m ≤ createdAt (lastMessage g))%Z)
  ∧ (unread_in conversations ≤ unread_count me messages)%nat
  ∧ ((∀ m, m ∈ messages → unread_for me m → is_Some (users !! sender m)) →
     unread_in conversations = unread_count me messages).
Proof.
  simpl. unfold getUserConversations.
  set (matched := filter (λ m, sender m = me ∨ recipient m = me) messages).
  set (sorted := merge_sort (newer_first id) matched).
  assert (Hthread : ∀ c m, m ∈ filter (λ m, counterpart me m = c) sorted
                           ↔ m ∈ messages ∧ between me c m).
  { intros c m. unfold sorted, matched.
    rewrite list_elem_of_filter, merge_sort_Permutation, list_elem_of_filter,
      between_counterpart. tauto. }
  assert (Hlookup : ∀ c g,
    filter (λ g, is_Some (users !! g.1)) (foldl (group_step me) ∅ sorted) !! c
      = Some g
    ↔ is_Some (users !! c)
      ∧ ∃ m rest, filter (λ m, counterpart me m = c) sorted = m :: rest
          ∧ g = {| lastMessage := m;
                   unreadCount := List.length (filter (unread_for me) (m :: rest)) |}).
  { intros c g. rewrite map_lookup_filter_Some, groups_lookup. simpl.
    destruct (filter _ sorted) as [|m rest].
    - split; [by intros [? _]|]. by intros (_ & ? & ? & ? & _).
    - split.
      + intros [[= <-] ?]. eauto.
      + intros (? & ? & ? & [= <- <-] & ->). done. }
  assert (Hunread : unread_in (foldl (group_step me) ∅ sorted)
                    = unread_count me messages).
  { rewrite unread_in_groups. unfold unread_count, sorted, matched.
    rewrite merge_sort_Permutation, list_filter_filter. f_equal.
    apply list_filter_iff. intros m. unfold unread_for. tauto. }
  split; [|split; [|split]].
  - intros c. split.
    + intros [g (Hu & m & rest & Hf & _)%Hlookup]. split; [done|].
      exists m. apply Hthread. rewrite Hf. left.
    + intros (Hu & m & Hm). apply Hthread in Hm.
      destruct (filter (λ m, counterpart me m = c) sorted) as [|m0 rest] eqn:Hf;
        [by apply elem_of_nil in Hm|].
      eexists. apply Hlookup. eauto.
  - intros c g (Hu & m0 & rest & Hf & ->)%Hlookup. simpl.
    split.
    { rewrite <- Hf. unfold sorted, matched.
      rewrite !list_filter_filter, merge_sort_Permutation, list_filter_filter.
      f_equal. apply list_filter_iff. intros m.
      rewrite unread_from_between, between_counterpart. tauto. }
    apply sorted_head_newest in Hf as (Hm0 & Hc0 & Hnewest).
    apply list_elem_of_filter in Hm0 as [Hi0 Hm0].
    split; [done|]. split; [by apply between_counterpart|].
    intros m Hm Hb. apply between_counterpart in Hb as [Hi Hc].
    apply Hnewest; [|done]. by apply list_elem_of_filter.
  - rewrite <- Hunread. apply unread_in_filter.
  - intros Hexist. rewrite <- Hunread. apply unread_in_filter.
    intros k g Hk Hno. simpl in Hno. rewrite groups_lookup in Hk.
    destruct (filter (λ m, counterpart me m = k) sorted) as [|m0 rest] eqn:Hf;
      [done|]. injection Hk as <-. simpl.
    destruct (filter (unread_for me) (m0 :: rest)) as [|m l] eqn:Hu; [done|].
    exfalso. apply Hno.
    assert (Hm : m ∈ filter (unread_for me) (m0 :: rest)) by (rewrite Hu; left).
    apply list_elem_of_filter in Hm as [Hum Hm]. rewrite <- Hf in Hm.
    apply Hthread in Hm as [Hm Hb].
    assert (sender m = k) as <-; [|by apply Hexist].
    by apply (unread_from_between me k m).
Qed.


Lemma conversations_summarise_threads_witness :
  (unread_in (getUserConversations "A" one_sided mailbox) ≤ 4)%nat
  ∧ ∀ g, getUserConversations "A" one_sided mailbox !! "D" ≠ Some g.
Proof.
  pose proof (conversations_summarise_threads "A" one_sided mailbox)
    as (Hlisted & _ & Hle & _).
  split; [exact Hle|]. intros g Hg.
  destruct (proj1 (Hlisted "D")) as [[u Hu] _]; [by exists g|].
  vm_compute in Hu. discriminate Hu.
Defined.

(** *** A page of a conversation *)

Lemma elem_of_documents (d : nat * Message) (messages : list Message) :
  d ∈ documents messages ↔ messages !! d.1 = Some d.2.
Proof.
  unfold documents. rewrite elem_of_lookup_imap. destruct d as [i m]. simpl.
  split; [by intros (? & ? & [= -> ->] & ?)|eauto].
Qed.

Lemma NoDup_documents (messages : list Message) :
  NoDup ((documents messages).*1).
Proof.
  unfold documents. rewrite fmap_imap.
  rewrite (imap_ext _ (λ j _, id j)) by done.
  rewrite imap_seq_0, list_fmap_id. apply NoDup_seq.
Qed.

Lemma save_all_lookup (docs : list (nat * Message)) (messages : list Message) :
  NoDup (docs.*1) →
  (∀ d, d ∈ docs → (d.1 < List.length messages)%nat) →
  List.length (save_all docs messages) = List.length messages
  ∧ (∀ d, d ∈ docs → save_all docs messages !! d.1 = Some d.2)
  ∧ (∀ j, j ∉ docs.*1 → save_all docs messages !! j = messages !! j).
Proof.
  revert messages. induction docs as [|d docs IH]; intros messages Hnd Hlt.
  - split; [done|]. split; [|done]. intros d Hd. by apply elem_of_nil in Hd.
  - rewrite fmap_cons in Hnd. apply NoDup_cons in Hnd as [Hd Hnd].
    unfold save_all. simpl. fold (save_all docs (<[d.1 := d.2]> messages)).
    destruct (IH (<[d.1 := d.2]> messages) Hnd) as (Hlen & Hin & Hout).
    { intros d' Hd'. rewrite length_insert. apply Hlt. by right. }
    rewrite length_insert in Hlen. split; [done|]. split.
    + intros d' [->|Hd']%elem_of_cons; [|by apply Hin].
      rewrite Hout by done. apply list_lookup_insert_eq. apply Hlt. left.
    + intros j Hj. change (j ∉ d.1 :: docs.*1) in Hj.
      rewrite not_elem_of_cons in Hj.
      destruct Hj as [Hne Hj]. rewrite Hout by done.
      by apply list_lookup_insert_ne.
Qed.


Lemma imap_filter_snd (P : Message → Prop) `{!∀ m, Decision (P m)}
    (g : nat → nat) (messages : list Message) :
  (filter (λ d : nat * Message, P d.2) (imap (λ i m, (g i, m)) messages)).*2
  = filter P messages.
Proof.
  revert g. induction messages as [|m messages IH]; intros g; [done|].
  rewrite imap_cons, !filter_cons. simpl.
  case_decide; csimpl; f_equal; apply (IH (g ∘ S)).
Qed.

Lemma documents_filter (P : Message → Prop) `{!∀ m, Decision (P m)}
    (messages : list Message) :
  (filter (λ d : nat * Message, P d.2) (documents messages)).*2
  = filter P messages.
Proof. apply (imap_filter_snd P id). Qed.

Lemma getConversation_page (me userId : UserId) (page limit : Z)
    (messages : list Message) :
  (1 ≤ page)%Z → (1 ≤ limit)%Z →
  ∃ found, getConversation me userId page limit messages = Some found
    ∧ (Z.of_nat (List.length found) ≤ limit)%Z
    ∧ StronglySorted (newer_first snd) found
    ∧ NoDup (found.*1)
    ∧ (∀ d, d ∈ found → messages !! d.1 = Some d.2 ∧ between me userId d.2)
    ∧ (page = 1%Z →
       (Z.of_nat (List.length (filter (between me userId) messages)) ≤ limit)%Z →
       ∀ d, messages !! d.1 = Some d.2 → between me userId d.2 → d ∈ found).
Proof.
  intros Hp Hl. unfold getConversation.
  set (cand := filter (λ d : nat * Message, between me userId d.2) (documents messages)).
  set (sorted := merge_sort (newer_first snd) cand).
  rewrite decide_False by nia. rewrite decide_False by lia.
  eexists. split; [reflexivity|].
  set (found := take _ _).
  assert (Hsub : found `sublist_of` sorted).
  { unfold found. etrans; [apply sublist_take | apply sublist_drop]. }
  assert (Hin : ∀ d, d ∈ sorted ↔ messages !! d.1 = Some d.2 ∧ between me userId d.2).
  { intros d. unfold sorted, cand.
    rewrite merge_sort_Permutation, list_elem_of_filter, elem_of_documents. tauto. }
  split; [|split; [|split; [|split]]].
  - unfold found. rewrite length_take. lia.
  - eapply StronglySorted_sublist; [exact Hsub|].
    apply StronglySorted_merge_sort; apply _.
  - eapply sublist_NoDup; [|apply fmap_sublist, Hsub].
    unfold sorted. rewrite merge_sort_Permutation.
    eapply sublist_NoDup; [apply NoDup_documents|].
    apply fmap_sublist, sublist_filter.
  - intros d Hd. apply Hin. by eapply elem_of_sublist.
  - intros -> Hfit d Hd Hb.
    assert (found = sorted) as ->; [|by apply Hin].
    unfold found. simpl. rewrite drop_0. apply take_ge.
    unfold sorted. rewrite merge_sort_Permutation. unfold cand.
    rewrite <- (length_fmap snd).
    match goal with |- (List.length ?l ≤ _)%nat =>
      replace l with (filter (between me userId) messages)
        by (symmetry; exact (documents_filter (between me userId) messages)) end.
    lia.
Qed.


Lemma markAsRead_unread now m :
  read m = false →
  markAsRead now m
  = {| sender := sender m; recipient := recipient m; content := content m;
       read := true; readAt := Some now; createdAt := createdAt m |}.
Proof. unfold markAsRead. by intros ->. Qed.

(** The page is a segment of the conversation put newest first. *)
Lemma getConversation_segment (me userId : UserId) (page limit : Z)
    (messages : list Message) :
  (1 ≤ page)%Z → (1 ≤ limit)%Z →
  ∃ found before rest,
    getConversation me userId page limit messages = Some found
    ∧ before ++ found ++ rest
      ≡ₚ filter (λ d : nat * Message, between me userId d.2) (documents messages)
    ∧ StronglySorted (newer_first snd) (before ++ found ++ rest)
    ∧ (List.length before = Z.to_nat ((page - 1) * limit)
       ∨ (found = [] ∧ rest = []))
    ∧ (Z.of_nat (List.length found) = limit ∨ rest = []).
Proof.
  intros Hp Hl. unfold getConversation.
  set (cand := filter (λ d : nat * Message, between me userId d.2)
                 (documents messages)).
  set (sorted := merge_sort (newer_first snd) cand).
  rewrite decide_False by nia. rewrite decide_False by lia.
  set (k := Z.to_nat ((page - 1) * limit)).
  set (n := Z.to_nat (Z.abs limit)).
  exists (take n (drop k sorted)), (take k sorted), (drop n (drop k sorted)).
  split; [reflexivity|].
  rewrite (take_drop n (drop k sorted)), (take_drop k sorted).
  split; [apply merge_sort_Permutation|].
  split; [apply StronglySorted_merge_sort; apply _|].
  split.
  - destruct (decide (k ≤ List.length sorted)%nat) as [Hk|Hk].
    + left. rewrite length_take. lia.
    + right. rewrite (drop_ge sorted k) by lia. by rewrite take_nil, drop_nil.
  - destruct (decide (n ≤ List.length (drop k sorted))%nat) as [Hn|Hn].
    + left. rewrite length_take. lia.
    + right. apply drop_ge. lia.
Qed.

(** Property X13. GET /api/messages/:userId answers 500 when the id is no
    ObjectId and 404 when it names no user. For a page and a limit of at
    least 1 (safe integers) the page is the segment of [limit] messages,
    fewer at the end, that follows the first [(page - 1) * limit] messages
    of the conversation of the two users put newest first. The response
    shows the messages of the page in this order, those addressed to the
    caller as read; [totalMessages] counts all the messages between the two.
    In the collection every unread message of [userId] to the caller that
    is on the page is marked read at the time of the call, and every other
    message, an unread one beyond the page included, is as before. When the
    whole conversation fits on page 1 the collection afterwards is the one
    PUT /api/messages/:userId/read leaves. *)
Theorem get_conversation_marks_page (me : UserId) (userId : IdParam)
    (page limit : Z) (now : Z) (users : gmap UserId Friends.User)
    (messages : list Message) :
  (objectId userId = None →
   get_conversation me userId (Some page) (Some limit) now users messages
   = (conversation_failed Friends.server_error, messages))
  ∧ (∀ other, objectId userId = Some other → users !! other = None →
     get_conversation me userId (Some page) (Some limit) now users messages
     = (conversation_failed Friends.user_not_found, messages))
  ∧ (∀ other, objectId userId = Some other → is_Some (users !! other) →
     safe_integer page → safe_integer limit → (1 ≤ page)%Z → (1 ≤ limit)%Z →
     ∃ found before rest shown p after,
       get_conversation me userId (Some page) (Some limit) now users messages
       = (conversation_page shown p, after)
       ∧ before ++ found ++ rest
         ≡ₚ filter (λ d : nat * Message, between me other d.2) (documents messages)
       ∧ StronglySorted (newer_first snd) (before ++ found ++ rest)
       ∧ (List.length before = Z.to_nat ((page - 1) * limit)
          ∨ (found = [] ∧ rest = []))
       ∧ (Z.of_nat (List.length found) = limit ∨ rest = [])
       ∧ shown = (λ d : nat * Message,
                    if decide (unread_for me d.2) then markAsRead now d.2
                    else d.2) <$> found
       ∧ (Z.of_nat (List.length shown) ≤ limit)%Z
       ∧ StronglySorted (newer_first id) shown
       ∧ (∀ m, m ∈ shown →
            between me other m ∧ (recipient m = me → read m = true))
       ∧ total p = Z.of_nat (List.length (filter (between me other) messages))
       ∧ List.length after = List.length messages
       ∧ (∀ i m, messages !! i = Some m →
            after !! i
            = Some (if decide ((i, m) ∈ found ∧ unread_from other me m)
                    then markAsRead now m else m))
       ∧ (page = 1%Z → (total p ≤ limit)%Z →
          after = (mark_read me other now messages).2)).
Proof.
  unfold get_conversation. simpl. split; [by intros ->|].
  split; [by intros other -> ->|].
  intros other -> [u ->] _ _ Hp Hl.
  destruct (getConversation_page me other page limit messages Hp Hl)
    as (found & Hfound & Hlen & Hsorted & Hnd & Hin & Hall).
  destruct (getConversation_segment me other page limit messages Hp Hl)
    as (found' & before & rest & Hfound' & Hperm & Hsorted' & Hbefore & Hrest).
  assert (found' = found) as -> by congruence.
  rewrite Hfound. clear Hfound'.
  set (unread := λ d : nat * Message, read d.2 = false ∧ recipient d.2 = me).
  set (saved := (λ d : nat * Message, (d.1, markAsRead now d.2))
                  <$> filter unread found).
  set (f := λ d : nat * Message,
              if decide (read d.2 = false ∧ recipient d.2 = me)
              then markAsRead now d.2 else d.2).
  assert (Hkeys : saved.*1 = (filter unread found).*1).
  { unfold saved. rewrite <- list_fmap_compose. by apply list_fmap_ext. }
  assert (Hone : ∀ d d', d ∈ found → d' ∈ found → d.1 = d'.1 → d = d').
  { intros [i m] [i' m'] [Hd _]%Hin [Hd' _]%Hin. simpl in *. intros <-.
    congruence. }
  destruct (save_all_lookup saved messages) as (Hlen' & Hsaved & Hkept).
  { rewrite Hkeys. eapply sublist_NoDup; [exact Hnd|].
    apply fmap_sublist, sublist_filter. }
  { intros d' (d & -> & [_ Hd]%list_elem_of_filter)%list_elem_of_fmap. simpl.
    apply lookup_lt_Some with d.2. by apply Hin. }
  assert (Hafter : ∀ d, d ∈ found →
            save_all saved messages !! d.1 = Some (f d)).
  { intros d Hd. unfold f.
    destruct (decide (read d.2 = false ∧ recipient d.2 = me)) as [Hu|Hu].
    - apply (Hsaved (d.1, markAsRead now d.2)).
      apply list_elem_of_fmap. exists d. split; [done|].
      by apply list_elem_of_filter.
    - rewrite Hkept; [by apply Hin|]. rewrite Hkeys.
      intros (d' & Heq & [Hu' Hd']%list_elem_of_filter)%list_elem_of_fmap.
      by rewrite (Hone d d' Hd Hd' Heq) in Hu. }
  assert (Hcond : ∀ m, between me other m →
            (read m = false ∧ recipient m = me) ↔ unread_from other me m).
  { intros m Hb. rewrite unread_from_between. unfold unread_for. tauto. }
  exists found, before, rest. eexists _, _, _. split; [reflexivity|].
  split; [exact Hperm|]. split; [exact Hsorted'|].
  split; [exact Hbefore|]. split; [exact Hrest|].
  split; [|split; [by rewrite length_fmap|]].
  { apply list_fmap_ext. intros _ d _. unfold f, unread_for.
    destruct (decide (read d.2 = false ∧ recipient d.2 = me)) as [Hc|Hc].
    - rewrite decide_True; [done | tauto].
    - rewrite decide_False; [done | tauto]. }
  split; [|split; [|split; [|split; [|split]]]].
  - apply (StronglySorted_fmap _ (newer_first snd)); [|done].
    intros x y. unfold newer_first, f, markAsRead. simpl.
    repeat case_decide; repeat (destruct (read _)); simpl; done.
  - intros m (d & -> & Hd)%list_elem_of_fmap.
    apply Hin in Hd as [_ Hb]. unfold f.
    destruct (decide (read d.2 = false ∧ recipient d.2 = me)) as [[Hr Hrc]|Hc].
    + rewrite markAsRead_unread by done. split; [exact Hb|done].
    + split; [done|]. intros Hrc. apply not_false_is_true. intros Hr.
      by apply Hc.
  - done.
  - done.
  - intros i m Hi.
    destruct (decide ((i, m) ∈ found)) as [Hd|Hd].
    + destruct (Hin (i, m) Hd) as [_ Hb]. simpl in Hb.
      pose proof (Hafter (i, m) Hd) as Hs. simpl in Hs. rewrite Hs.
      unfold f. simpl. f_equal.
      destruct (decide (read m = false ∧ recipient m = me)) as [Hc|Hc].
      * rewrite decide_True; [done|]. split; [done | by apply Hcond].
      * rewrite decide_False; [done|]. intros [_ Hu]. by apply Hc, Hcond.
    + rewrite decide_False by tauto.
      rewrite Hkept; [done|]. rewrite Hkeys.
      intros (d & Heq & [_ Hd']%list_elem_of_filter)%list_elem_of_fmap.
      apply Hd. destruct d as [j m']. simpl in Heq. subst j.
      destruct (Hin _ Hd') as [Hm _]. simpl in Hm. congruence.
  - intros -> Hfit.
    apply list_eq. intros i. rewrite list_lookup_fmap.
    destruct (messages !! i) as [m|] eqn:Hi; simpl.
    + destruct (decide (between me other m)) as [Hb|Hb].
      * assert (Hd : (i, m) ∈ found) by (by apply Hall).
        pose proof (Hafter (i, m) Hd) as Hs. simpl in Hs. rewrite Hs.
        unfold f. simpl. f_equal.
        destruct (decide (read m = false ∧ recipient m = me)) as [Hc|Hc].
        -- rewrite decide_True by (by apply Hcond).
           apply markAsRead_unread. tauto.
        -- rewrite decide_False; [done|]. intros Hu. by apply Hc, Hcond.
      * rewrite Hkept.
        -- rewrite Hi. f_equal. rewrite decide_False; [done|].
           intros Hu. apply Hb. by apply unread_from_between in Hu as [? _].
        -- rewrite Hkeys.
           intros (d & -> & [_ Hd]%list_elem_of_filter)%list_elem_of_fmap.
           apply Hin in Hd as [Hdm Hdb]. apply Hb. congruence.
    + apply lookup_ge_None. rewrite Hlen'. by apply lookup_ge_None.
Qed.

(** Page 1 with limit 2 of the conversation of A and B in [mailbox] holds
    the two newest of its three messages: B's message of time 5 is marked,
    B's message of time 1, beyond the page, stays unread. *)
Lemma get_conversation_marks_page_witness :
  ∃ found before rest shown p after,
    get_conversation "A" (stored "B") (Some 1%Z) (Some 2%Z) 9 one_sided mailbox
    = (conversation_page shown p, after)
    ∧ before ++ found ++ rest
      ≡ₚ filter (λ d : nat * Message, between "A" "B" d.2) (documents mailbox)
    ∧ (Z.of_nat (List.length shown) ≤ 2)%Z
    ∧ total p = 3%Z
    ∧ after !! 4%nat
      = Some {| sender := "B"; recipient := "A"; content := "again";
                read := true; readAt := Some 9%Z; createdAt := 5 |}
    ∧ after !! 0%nat
      = Some {| sender := "B"; recipient := "A"; content := "hi";
                read := false; readAt := None; createdAt := 1 |}.
Proof.
  assert (Hsafe : ∀ n, (1 ≤ n ≤ 2)%Z → safe_integer n).
  { intros n Hn. unfold safe_integer.
    change (2 ^ 53 - 1)%Z with 9007199254740991%Z. lia. }
  assert (Hsome : is_Some (one_sided !! "B")) by by eexists.
  destruct (proj2 (proj2 (get_conversation_marks_page "A" (stored "B") 1 2 9
                            one_sided mailbox))
              "B" eq_refl Hsome (Hsafe 1%Z ltac:(lia)) (Hsafe 2%Z ltac:(lia))
              ltac:(lia) ltac:(lia))
    as (found & before & rest & shown & p & after & Heq & Hperm & _ & _ & _
        & _ & Hlen & _ & _ & Htotal & _ & Hafter & _).
  exists found, before, rest, shown, p, after.
  split; [exact Heq|]. split; [exact Hperm|]. split; [exact Hlen|].
  split; [exact Htotal|].
  vm_compute in Heq. injection Heq as _ _ <-.
  split; reflexivity.
Defined.

End MessageBoxTheory.

(** ** Comment threads *)
Module CommentThreadsTheory.
Import PostRoutesProps CommentRoutes CommentThreads CommentThreadsProps.

(** A record rewritten in place with the same parent and replies. *)
Lemma lookup_insert_same_links (db : gmap CommentId Comment) id c c' k x :
  db !! id = Some c →
  parentComment c' = parentComment c → replies c' = replies c →
  <[id := c']> db !! k = Some x →
  ∃ x0, db !! k = Some x0
        ∧ parentComment x = parentComment x0 ∧ replies x = replies x0.
Proof.
  intros Hid Hp Hr [[<- <-]|[Hne Hk]]%lookup_insert_Some; eauto.
Qed.

Lemma linked_insert_same (db : gmap CommentId Comment) id c c' :
  db !! id = Some c →
  parentComment c' = parentComment c → replies c' = replies c →
  linked db → linked (<[id := c']> db).
Proof.
  intros Hid Hp Hr [H1 H2]. split.
  - intros k x p pc Hk Hxp Hpc.
    destruct (lookup_insert_same_links db id c c' k x Hid Hp Hr Hk)
      as (x0 & Hk0 & Hp0 & _).
    destruct (lookup_insert_same_links db id c c' p pc Hid Hp Hr Hpc)
      as (pc0 & Hpc0 & _ & Hr0).
    rewrite Hr0. eapply H1; [exact Hk0| |exact Hpc0]. congruence.
  - intros p pc k x Hpc Hin Hk.
    destruct (lookup_insert_same_links db id c c' k x Hid Hp Hr Hk)
      as (x0 & Hk0 & Hp0 & _).
    destruct (lookup_insert_same_links db id c c' p pc Hid Hp Hr Hpc)
      as (pc0 & Hpc0 & _ & Hr0).
    rewrite Hp0. eapply H2; [exact Hpc0| |exact Hk0]. congruence.
Qed.

Lemma linked_filter (P : CommentId * Comment → Prop) `{!∀ x, Decision (P x)}
    (db : gmap CommentId Comment) :
  linked db → linked (filter P db).
Proof.
  intros [H1 H2]. split.
  - intros k x p pc [Hk _]%map_lookup_filter_Some Hxp [Hpc _]%map_lookup_filter_Some.
    eauto.
  - intros p pc k x [Hpc _]%map_lookup_filter_Some Hin [Hk _]%map_lookup_filter_Some.
    eauto.
Qed.

Lemma linked_add_top (db : gmap CommentId Comment) id c :
  unused id db → parentComment c = None → replies c = [] →
  linked db → linked (<[id := c]> db).
Proof.
  intros [Hid Hun] Hp Hr [H1 H2]. split.
  - intros k x p pc [[<- <-]|[Hne Hk]]%lookup_insert_Some Hxp
      [[<- <-]|[Hne' Hpc]]%lookup_insert_Some; try congruence.
    + destruct (Hun k x Hk) as [Hno _]. congruence.
    + eauto.
  - intros p pc k x [[<- <-]|[Hne Hpc]]%lookup_insert_Some Hin
      [[<- <-]|[Hne' Hk]]%lookup_insert_Some.
    + rewrite Hr in Hin. by apply elem_of_nil in Hin.
    + rewrite Hr in Hin. by apply elem_of_nil in Hin.
    + destruct (Hun p pc Hpc) as [_ Hno]. done.
    + eauto.
Qed.

Lemma linked_add_reply (db : gmap CommentId Comment) id c parent pc :
  unused id db → db !! parent = Some pc →
  parentComment c = Some parent → replies c = [] →
  linked db → linked (alter (push_reply id) parent (<[id := c]> db)).
Proof.
  intros [Hid Hun] Hparent Hp Hr [H1 H2].
  assert (Hne : parent ≠ id) by congruence.
  assert (Hlook : ∀ k x, alter (push_reply id) parent (<[id := c]> db) !! k = Some x →
    (k = id ∧ x = c)
    ∨ (k = parent ∧ x = push_reply id pc)
    ∨ (k ≠ id ∧ k ≠ parent ∧ db !! k = Some x)).
  { intros k x [[<- (x0 & Hx0 & ->)]|[Hne' Hk]]%lookup_alter_Some.
    - rewrite lookup_insert_ne in Hx0 by done. right; left. split; congruence.
    - apply lookup_insert_Some in Hk as [[<- <-]|[? ?]]; eauto. }
  split.
  - intros k x p px Hk Hxp Hpx.
    apply Hlook in Hk as [[-> ->]|[[-> ->]|(Hk1 & Hk2 & Hk)]];
      apply Hlook in Hpx as [[-> ->]|[[-> ->]|(Hp1 & Hp2 & Hpx)]]; simpl in *;
      try congruence.
    + apply elem_of_app. right. left.
    + rewrite Hr. destruct (Hun parent pc Hparent) as [Hno _]. congruence.
    + apply elem_of_app. left. eauto.
    + eauto.
    + destruct (Hun k x Hk) as [Hno _]. congruence.
    + apply elem_of_app. left. eauto.
    + eauto.
  - intros p px k x Hpx Hin Hk.
    apply Hlook in Hk as [[-> ->]|[[-> ->]|(Hk1 & Hk2 & Hk)]];
      apply Hlook in Hpx as [[-> ->]|[[-> ->]|(Hp1 & Hp2 & Hpx)]]; simpl in *;
      try (rewrite Hr in Hin; by apply elem_of_nil in Hin); try congruence.
    + destruct (Hun p px Hpx) as [_ Hno]. done.
    + apply elem_of_app in Hin as [Hin|Hin%list_elem_of_singleton]; [|congruence].
      eauto.
    + eauto.
    + apply elem_of_app in Hin as [Hin|Hin%list_elem_of_singleton]; [|congruence].
      eauto.
    + eauto.
Qed.


Lemma perform_keeps_links `{js : JsString} (op : Operation) (store : Store) :
  match op with
  | Add _ _ _ _ id => unused id store.2
  | _ => True
  end →
  linked store.2 → linked (perform op store).2.
Proof.
  destruct store as [posts db].
  destruct op as [user post content parent id|user id content now|user id
                 |me id now|user id]; simpl; intros Hnew Hl.
  - unfold add_comment. repeat case_match; simpl; try done.
    + eapply linked_add_reply; eauto.
    + by apply linked_add_top.
  - unfold update_comment. repeat case_match; simpl; try done.
    eapply linked_insert_same; eauto.
  - unfold delete_comment. repeat case_match; simpl; try done.
    eapply linked_insert_same; eauto.
  - unfold like_comment. destruct (db !! id) as [c|] eqn:Hid; [|done].
    unfold toggleLike. destruct (Likes.toggleLike me now (likes c)) as [b l].
    simpl. eapply linked_insert_same; eauto.
  - unfold delete_post. repeat case_match; simpl; try done.
    by apply linked_filter.
Qed.

(** Property X14. [replies] and [parentComment] stay in agreement: if,
    among the comments that exist, every reply is listed by its parent and
    every listed comment names the lister as its parent, this still holds
    after any sequence of adding (under ids not used before), editing,
    deleting and liking comments and of deleting posts, whatever the
    responses. *)
Theorem comment_operations_keep_links `{js : JsString}
    (ops : list Operation) (store : Store) :
  linked store.2 → new_ids ops store → linked (perform_all ops store).2.
Proof.
  revert store. induction ops as [|op ops IH]; intros store Hl Hnew; [done|].
  destruct Hnew as [Hop Hnew]. simpl. apply IH; [|done].
  by apply perform_keeps_links.
Qed.


(** A comments on the post p, B answers, the moderator deletes A's comment,
    B deletes the post; on strings of the ASCII range. *)
Lemma comment_operations_keep_links_witness :
  linked (perform_all (js := ascii_strings)
            [Add ann (stored "p") "Hello" no_parent "c1";
             Add bob (stored "p") "Re" (parent_id "c1") "c2";
             Delete moderator "c1"; DeletePost bob "p"] (blog, ∅)).2.
Proof.
  assert (Hfirst :
    perform (js := ascii_strings)
      (Add ann (stored "p") "Hello" no_parent "c1") (blog, ∅)
    = (blog,
       <["c1" := {| post := "p"; author := "A"; content := "Hello";
                    parentComment := None; replies := []; likes := [];
                    isEdited := false; editedAt := None;
                    isDeleted := false |}]> ∅))
    by (vm_compute; reflexivity).
  apply (comment_operations_keep_links (js := ascii_strings)).
  - split; simpl; intros ? ? ? ? H; by rewrite lookup_empty in H.
  - cbn [new_ids]. rewrite Hfirst. split; [|split; [|done]].
    + split; [done|]. simpl. intros k c H. by rewrite lookup_empty in H.
    + split; [reflexivity|]. simpl. intros k c H.
      apply lookup_insert_Some in H as [[_ <-]|[_ H]].
      * split; [discriminate | apply not_elem_of_nil].
      * by rewrite lookup_empty in H.
Defined.

(** *** Counting after a write *)

Lemma size_filter_insert (P : CommentId * Comment → Prop)
    `{!∀ x, Decision (P x)} (db : gmap CommentId Comment) id c c' :
  db !! id = Some c →
  size (filter P (<[id := c']> db))
  = if decide (P (id, c'))
    then (if decide (P (id, c)) then size (filter P db)
          else S (size (filter P db)))
    else (if decide (P (id, c)) then pred (size (filter P db))
          else size (filter P db)).
Proof.
  intros Hid. rewrite map_filter_insert.
  destruct (decide (P (id, c'))) as [Hc'|Hc'].
  - rewrite map_size_insert.
    destruct (decide (P (id, c))) as [Hc|Hc].
    + by rewrite (map_lookup_filter_Some_2 P db id c).
    + rewrite (proj2 (map_lookup_filter_None P db id)); [done|].
      right. intros x Hx. congruence.
  - rewrite map_filter_delete, map_size_delete.
    destruct (decide (P (id, c))) as [Hc|Hc].
    + by rewrite (map_lookup_filter_Some_2 P db id c).
    + rewrite (proj2 (map_lookup_filter_None P db id)); [done|].
      right. intros x Hx. congruence.
Qed.

Lemma size_filter_insert_new (P : CommentId * Comment → Prop)
    `{!∀ x, Decision (P x)} (db : gmap CommentId Comment) id c :
  db !! id = None →
  size (filter P (<[id := c]> db))
  = if decide (P (id, c)) then S (size (filter P db)) else size (filter P db).
Proof.
  intros Hid. rewrite map_filter_insert. case_decide.
  - rewrite map_size_insert_None; [done|].
    apply map_lookup_filter_None. by left.
  - by rewrite delete_id.
Qed.

Lemma size_filter_alter (P : CommentId * Comment → Prop)
    `{!∀ x, Decision (P x)} (f : Comment → Comment)
    (db : gmap CommentId Comment) id :
  (∀ c, P (id, f c) ↔ P (id, c)) →
  size (filter P (alter f id db)) = size (filter P db).
Proof.
  intros Hf. destruct (db !! id) as [c|] eqn:Hid.
  - rewrite <- (insert_id db id c) at 1 by done.
    rewrite alter_insert_eq, (size_filter_insert P db id c) by done.
    destruct (decide (P (id, c))); [rewrite decide_True|rewrite decide_False];
      try done; by rewrite Hf.
  - by rewrite alter_id by (intros ? ?; congruence).
Qed.

(** Property X15. DELETE /api/comments/:id answers 404 for a missing
    comment and 403 for a caller who is neither the author nor an admin.
    Otherwise the comment stays in the collection: it is marked deleted, its
    content is replaced by '[Comment deleted]', its post, author, parent,
    replies and likes are kept, and no other comment changes, so its parent
    still lists it. Deleting it again succeeds and changes nothing. The
    total of visible replies of its parent, or of visible comments of its
    post, goes down by one exactly when the comment was not deleted
    before. *)
Theorem delete_comment_soft (user : ReqUser) (id : CommentId)
    (db : gmap CommentId Comment) :
  (db !! id = None → delete_comment user id db = (comment_not_found, db))
  ∧ (∀ c, db !! id = Some c →
       (author c ≠ _id user → role user ≠ "admin" →
        delete_comment user id db = (not_authorized_delete, db))
       ∧ (author c = _id user ∨ role user = "admin" →
          ∃ c', let after := <[id := c']> db in
            delete_comment user id db = (comment_deleted, after)
            ∧ isDeleted c' = true ∧ content c' = "[Comment deleted]"
            ∧ post c' = post c ∧ author c' = author c
            ∧ parentComment c' = parentComment c
            ∧ replies c' = replies c ∧ likes c' = likes c
            ∧ delete_comment user id after = (comment_deleted, after)
            ∧ (∀ p, replies_total p after
                    = if decide (parentComment c = Some p ∧ isDeleted c = false)
                      then pred (replies_total p db) else replies_total p db)
            ∧ (∀ postId, comments_total postId after
                    = if decide (post c = postId ∧ parentComment c = None
                                 ∧ isDeleted c = false)
                      then pred (comments_total postId db)
                      else comments_total postId db))).
Proof.
  unfold delete_comment. split; [by intros ->|].
  intros c Hid. rewrite Hid. split.
  - intros Ha Hr. by rewrite decide_True.
  - intros Hok.
    assert (Hno : ¬ (author c ≠ _id user ∧ role user ≠ "admin")).
    { intros [? ?]. by destruct Hok. }
    exists (softDelete c). simpl. rewrite decide_False by done.
    repeat (split; [done|]). split; [|split].
    + rewrite lookup_insert_eq. simpl. rewrite decide_False by done.
      by rewrite insert_insert_eq.
    + intros p. unfold replies_total.
      rewrite (size_filter_insert _ db id c) by done. simpl.
      rewrite decide_False by (by intros [_ ?]).
      repeat case_decide; done.
    + intros postId. unfold comments_total.
      rewrite (size_filter_insert _ db id c) by done. simpl.
      rewrite decide_False by (by intros (_ & _ & ?)).
      repeat case_decide; done.
Qed.

Lemma delete_comment_soft_witness :
  ∃ c', delete_comment moderator "c2" discussion
        = (comment_deleted, <["c2" := c']> discussion)
        ∧ isDeleted c' = true ∧ replies_total "c1" (<["c2" := c']> discussion)
                                = pred (replies_total "c1" discussion).
Proof.
  destruct (proj2 (proj2 (delete_comment_soft moderator "c2" discussion)
                     answer ltac:(vm_compute; reflexivity))
              (or_intror eq_refl))
    as (c' & Heq & Hdel & _ & _ & _ & _ & _ & _ & _ & Hreplies & _).
  exists c'. split; [exact Heq|]. split; [exact Hdel|].
  pose proof (Hreplies "c1") as H.
  rewrite decide_True in H by (split; reflexivity). exact H.
Defined.

(** Property X16. PUT /api/comments/:id answers 400 when the content is
    empty or longer than 1000 characters, then 500 when the id is no
    ObjectId, then 404 for a missing comment, then 403 for anyone but the
    author: an admin, who may delete the comment, may not edit it. The
    author's edit is refused with a 500 when the content has more than 1000
    code units, which the schema counts; otherwise it replaces the content,
    sets [isEdited] and [editedAt] and keeps the rest, [isDeleted]
    included: editing a deleted comment does not bring it back, and the
    visible totals are unchanged. *)
Theorem update_comment_author_only `{js : JsString} (user : ReqUser)
    (id : IdParam) (content : string) (now : Z) (db : gmap CommentId Comment) :
  (content = "" ∨ (1000 < chars content)%nat →
   update_comment user id content now db = (validation_failed, db))
  ∧ (content ≠ "" → (chars content ≤ 1000)%nat →
     (objectId id = None →
      update_comment user id content now db = (error_updating, db))
     ∧ (∀ cid, objectId id = Some cid →
        (db !! cid = None →
         update_comment user id content now db = (comment_not_found, db))
        ∧ (∀ c, db !! cid = Some c →
             (author c ≠ _id user →
              update_comment user id content now db
              = (not_authorized_update, db)
              ∧ (role user = "admin" →
                 (delete_comment user cid db).1 = comment_deleted))
             ∧ (author c = _id user → (1000 < units content)%nat →
                update_comment user id content now db = (error_updating, db))
             ∧ (author c = _id user → (units content ≤ 1000)%nat →
                let after :=
                  <[cid := {| post := post c; author := author c;
                              CommentRoutes.content := content;
                              parentComment := parentComment c;
                              replies := replies c; likes := likes c;
                              isEdited := true; editedAt := Some now;
                              isDeleted := isDeleted c |}]> db in
                update_comment user id content now db = (comment_updated, after)
                ∧ (∀ p, replies_total p after = replies_total p db)
                ∧ (∀ postId, comments_total postId after
                             = comments_total postId db))))).
Proof.
  unfold update_comment, content_errors, schema_accepts. split.
  - intros [->|Hlong]; [done|].
    rewrite (decide_True (P := (1000 < _)%nat)) by done.
    rewrite decide_True; [done|]. by case_decide.
  - intros Hne Hlen.
    rewrite (decide_False (P := content = "")) by done.
    rewrite (decide_False (P := (1000 < _)%nat)) by lia.
    simpl. split; [by intros ->|]. intros cid ->.
    unfold CommentId in *.
    split; [by intros ->|]. intros c Hid. rewrite Hid.
    split; [|split].
    + intros Ha. rewrite decide_True by done. split; [done|]. intros Hadmin.
      unfold delete_comment, CommentId. rewrite Hid, decide_False; [done|].
      by intros [_ ?].
    + intros Ha Hlong. rewrite decide_False by (by intros ?).
      rewrite (bool_decide_eq_false_2 (units content ≤ 1000)%nat) by lia.
      by rewrite andb_false_r.
    + intros Ha Hshort. rewrite decide_False by (by intros ?).
      rewrite bool_decide_eq_true_2 by done.
      rewrite bool_decide_eq_true_2 by done. simpl.
      split; [done|]. split.
      * intros p. unfold replies_total.
        rewrite (size_filter_insert _ db cid c) by done. simpl.
        repeat case_decide; tauto.
      * intros postId. unfold comments_total.
        rewrite (size_filter_insert _ db cid c) by done. simpl.
        repeat case_decide; tauto.
Qed.

(** The moderator may delete A's reply c2 but not edit it; A edits it; an
    id that is no ObjectId is answered 500. Strings of the ASCII range. *)
Lemma update_comment_author_only_witness :
  update_comment (js := ascii_strings) moderator (stored "c2") "Edited" 9
    discussion
  = (not_authorized_update, discussion)
  ∧ (delete_comment moderator "c2" discussion).1 = comment_deleted
  ∧ (update_comment (js := ascii_strings) ann (stored "c2") "Edited" 9
       discussion).1 = comment_updated
  ∧ update_comment (js := ascii_strings) ann
      {| spelling := "replies"; objectId := None |} "Edited" 9 discussion
    = (error_updating, discussion).
Proof.
  pose proof (proj2 (update_comment_author_only (js := ascii_strings)
                       moderator (stored "c2") "Edited" 9 discussion)
                ltac:(done) ltac:(vm_compute; lia)) as [_ Hm].
  destruct (proj1 (proj2 (Hm "c2" eq_refl) answer
                            ltac:(vm_compute; reflexivity))
              ltac:(done)) as [Hupdate Hdelete].
  pose proof (proj2 (update_comment_author_only (js := ascii_strings)
                       ann (stored "c2") "Edited" 9 discussion)
                ltac:(done) ltac:(vm_compute; lia)) as [_ Ha].
  destruct (proj2 (proj2 (proj2 (Ha "c2" eq_refl) answer
                                   ltac:(vm_compute; reflexivity)))
              eq_refl ltac:(vm_compute; lia)) as [Hedit _].
  pose proof (proj2 (update_comment_author_only (js := ascii_strings)
                       ann {| spelling := "replies"; objectId := None |}
                       "Edited" 9 discussion)
                ltac:(done) ltac:(vm_compute; lia)) as [Hcast _].
  split; [exact Hupdate|]. split; [by apply Hdelete|].
  split; [by rewrite Hedit|]. by apply Hcast.
Defined.

Lemma add_comment_valid `{js : JsString} user post content parent id posts db :
  spelling post ≠ "" → content ≠ "" → (chars content ≤ 1000)%nat →
  parent ≠ not_an_id →
  add_comment user post content parent id posts db
  = match objectId post with
    | None => (error_adding, db)
    | Some post =>
      match posts !! post with
      | None => (PostRoutes.post_not_found, db)
      | Some postDoc =>
        if negb (PostModel.allowComments postDoc) then (comments_disabled, db)
        else
          let comment :=
            {| CommentRoutes.post := post; author := _id user;
               CommentRoutes.content := content;
               parentComment := parent_of parent;
               replies := []; likes := []; isEdited := false;
               editedAt := None; isDeleted := false |} in
          match parent_of parent with
          | None =>
            if bool_decide (units content ≤ 1000)%nat
            then (comment_added, <[id := comment]> db)
            else (error_adding, db)
          | Some parent =>
            match db !! parent with
            | None => (parent_not_found, db)
            | Some _ =>
              if bool_decide (units content ≤ 1000)%nat
              then (comment_added,
                    alter (push_reply id) parent (<[id := comment]> db))
              else (error_adding, db)
            end
          end
      end
    end.
Proof.
  intros Hp Hc Hlen Hparent.
  unfold add_comment, post_errors, content_errors, schema_accepts.
  rewrite (decide_False (P := spelling post = "")) by done.
  rewrite (decide_False (P := content = "")) by done.
  rewrite (decide_False (P := (1000 < _)%nat)) by lia.
  rewrite (bool_decide_eq_true_2 (content ≠ "")) by done.
  destruct parent; done.
Qed.

Lemma alter_other (f : Comment → Comment) (db : gmap CommentId Comment)
    p pc id c :
  db !! p = Some pc → p ≠ id →
  alter f p (<[id := c]> db) = <[p := f pc]> (<[id := c]> db).
Proof.
  intros Hpc Hne. apply map_eq. intros k. destruct (decide (k = p)) as [->|Hk].
  - by rewrite lookup_alter_eq, lookup_insert_eq, lookup_insert_ne, Hpc.
  - by rewrite lookup_alter_ne, (lookup_insert_ne _ p k).
Qed.

(** Property X17. POST /api/comments answers, in this order, 400 when the
    post id or the content is empty, the content is longer than 1000
    characters or a parent id is given that is no Mongo id; 500 when the
    post id is no ObjectId; 404 when the post does not exist; 400 when the
    post has comments disabled; 404 when the parent comment does not exist;
    500 when the content has more than 1000 code units, which the schema
    counts. Otherwise it stores the new comment, without likes or replies,
    neither edited nor deleted, under its new id. A top-level comment
    raises the total of visible comments of its post by one. A reply is
    appended to the [replies] of its parent, whatever the post, the state
    and the level of the parent; it raises the parent's total of visible
    replies by one and no total of visible top-level comments. *)
Theorem add_comment_outcomes `{js : JsString} (user : ReqUser) (post : IdParam)
    (content : string) (parent : ParentField) (id : CommentId)
    (posts : gmap PostId PostModel.Post) (db : gmap CommentId Comment) :
  (spelling post = "" ∨ content = "" ∨ (1000 < chars content)%nat
   ∨ parent = not_an_id →
   add_comment user post content parent id posts db = (validation_failed, db))
  ∧ (spelling post ≠ "" → content ≠ "" → (chars content ≤ 1000)%nat →
     parent ≠ not_an_id →
     (objectId post = None →
      add_comment user post content parent id posts db = (error_adding, db))
     ∧ (∀ pid, objectId post = Some pid →
        let comment :=
          {| CommentRoutes.post := pid; author := _id user;
             CommentRoutes.content := content;
             parentComment := parent_of parent;
             replies := []; likes := []; isEdited := false; editedAt := None;
             isDeleted := false |} in
        (posts !! pid = None →
         add_comment user post content parent id posts db
         = (PostRoutes.post_not_found, db))
        ∧ (∀ postDoc, posts !! pid = Some postDoc →
           (PostModel.allowComments postDoc = false →
            add_comment user post content parent id posts db
            = (comments_disabled, db))
           ∧ (PostModel.allowComments postDoc = true →
              (∀ p, parent = parent_id p → db !! p = None →
                 add_comment user post content parent id posts db
                 = (parent_not_found, db))
              ∧ ((∀ p, parent = parent_id p → is_Some (db !! p)) →
                 (1000 < units content)%nat →
                 add_comment user post content parent id posts db
                 = (error_adding, db))
              ∧ (parent = no_parent → (units content ≤ 1000)%nat →
                 db !! id = None →
                 let after := <[id := comment]> db in
                 add_comment user post content parent id posts db
                 = (comment_added, after)
                 ∧ comments_total pid after = S (comments_total pid db)
                 ∧ ∀ p, replies_total p after = replies_total p db)
              ∧ (∀ p pc, parent = parent_id p → db !! p = Some pc →
                 (units content ≤ 1000)%nat → db !! id = None →
                 let after :=
                   <[p := push_reply id pc]> (<[id := comment]> db) in
                 add_comment user post content parent id posts db
                 = (comment_added, after)
                 ∧ replies_total p after = S (replies_total p db)
                 ∧ ∀ postId, comments_total postId after
                             = comments_total postId db))))).
Proof.
  split.
  - intros Hbad. unfold add_comment, post_errors, content_errors.
    rewrite decide_True; [done|].
    destruct Hbad as [->|[->|[Hlong| ->]]].
    + done.
    + by case_decide.
    + rewrite (decide_True (P := (1000 < _)%nat)) by done.
      repeat case_decide; done.
    + simpl. intros Hnil. repeat apply app_eq_nil in Hnil as [_ Hnil]. done.
  - intros Hp Hc Hlen Hparent. rewrite add_comment_valid by done.
    unfold PostId, CommentId in *.
    split; [by intros ->|]. intros pid ->. simpl.
    split; [by intros ->|]. intros postDoc ->. split; [by intros ->|].
    intros ->. simpl. split; [|split; [|split]].
    + intros p -> Hnone. simpl. by rewrite Hnone.
    + intros Hthere Hlong.
      rewrite (bool_decide_eq_false_2 (units content ≤ 1000)%nat) by lia.
      destruct parent as [|p|]; simpl; [done| |done].
      by destruct (Hthere p eq_refl) as [pc ->].
    + intros -> Hshort Hid. simpl.
      rewrite bool_decide_eq_true_2 by done.
      split; [done|]. split.
      * unfold comments_total. rewrite size_filter_insert_new by done.
        by rewrite decide_True.
      * intros p. unfold replies_total. rewrite size_filter_insert_new by done.
        by rewrite decide_False by (by intros [? _]).
    + intros p pc -> Hpc Hshort Hid. simpl. rewrite Hpc.
      rewrite bool_decide_eq_true_2 by done.
      assert (Hne : p ≠ id) by congruence.
      pose proof (alter_other (push_reply id) db p pc id
                    {| CommentRoutes.post := pid; author := _id user;
                       CommentRoutes.content := content;
                       parentComment := Some p; replies := []; likes := [];
                       isEdited := false; editedAt := None;
                       isDeleted := false |} Hpc Hne) as Halter.
      unfold PostId, CommentId in *.
      split; [by rewrite Halter|]. rewrite <- Halter. split.
      * unfold replies_total. rewrite size_filter_alter by done.
        rewrite size_filter_insert_new by done. by rewrite decide_True.
      * intros postId. unfold comments_total.
        rewrite size_filter_alter by done.
        rewrite size_filter_insert_new by done.
        by rewrite decide_False by (by intros (_ & ? & _)).
Qed.

(** B answers the comment c1 of the post p with a comment on the post q; a
    parent id that is no Mongo id is answered 400 and a post id that is no
    ObjectId 500. Strings of the ASCII range. *)
Lemma add_comment_outcomes_witness :
  (add_comment (js := ascii_strings) bob (stored "q") "Third"
     (parent_id "c1") "c4" blog discussion).1
  = comment_added
  ∧ replies_total "c1"
      (add_comment (js := ascii_strings) bob (stored "q") "Third"
         (parent_id "c1") "c4" blog discussion).2
    = S (replies_total "c1" discussion)
  ∧ add_comment (js := ascii_strings) bob (stored "q") "Third" not_an_id "c4"
      blog discussion
    = (validation_failed, discussion)
  ∧ add_comment (js := ascii_strings) bob
      {| spelling := "latest"; objectId := None |} "Third" no_parent "c4"
      blog discussion
    = (error_adding, discussion).
Proof.
  pose proof (add_comment_outcomes (js := ascii_strings) bob (stored "q")
                "Third" (parent_id "c1") "c4" blog discussion) as [_ Hvalid].
  destruct (Hvalid ltac:(done) ltac:(done) ltac:(vm_compute; lia) ltac:(done))
    as [_ Hcast].
  destruct (Hcast "q" eq_refl) as [_ Hpost].
  destruct (Hpost unliked_post ltac:(vm_compute; reflexivity)) as [_ Hallowed].
  destruct (Hallowed eq_refl) as (_ & _ & _ & Hreply).
  destruct (Hreply "c1" opening eq_refl ltac:(vm_compute; reflexivity)
              ltac:(vm_compute; lia) ltac:(vm_compute; reflexivity))
    as (Heq & Htotal & _).
  rewrite Heq. split; [done|]. split; [exact Htotal|]. split.
  - apply (add_comment_outcomes (js := ascii_strings) bob (stored "q")
             "Third" not_an_id "c4" blog discussion).
    by right; right; right.
  - apply (add_comment_outcomes (js := ascii_strings) bob
             {| spelling := "latest"; objectId := None |} "Third" no_parent
             "c4" blog discussion); [discriminate | done | vm_compute; lia
                                     | done | reflexivity].
Defined.

(** Property X18. DELETE /api/posts/:id answers 404 for a missing post and
    403 for a caller who is neither the author nor an admin. Otherwise the
    post is removed together with exactly the comments whose [post] it is:
    a comment is there afterwards iff it was there and belongs to another
    post, no visible comment of the deleted post is left, the totals of the
    other posts are unchanged and no total of visible replies grows. *)
Theorem delete_post_cascade (user : ReqUser) (id : PostId)
    (posts : gmap PostId PostModel.Post) (db : gmap CommentId Comment) :
  (posts !! id = None →
   delete_post user id posts db = (PostRoutes.post_not_found, posts, db))
  ∧ (∀ p, posts !! id = Some p →
       (PostModel.author p ≠ _id user → role user ≠ "admin" →
        delete_post user id posts db = (not_authorized_delete_post, posts, db))
       ∧ (PostModel.author p = _id user ∨ role user = "admin" →
          ∃ db', delete_post user id posts db
                 = (post_deleted, delete id posts, db')
            ∧ (∀ k c, db' !! k = Some c ↔ db !! k = Some c ∧ post c ≠ id)
            ∧ comments_total id db' = 0%nat
            ∧ (∀ other, other ≠ id →
                 comments_total other db' = comments_total other db)
            ∧ (∀ c, (replies_total c db' ≤ replies_total c db)%nat))).
Proof.
  unfold delete_post. split; [by intros ->|]. intros p ->. split.
  - intros Ha Hr. by rewrite decide_True.
  - intros Hok. rewrite decide_False by (intros [? ?]; by destruct Hok).
    eexists. split; [reflexivity|]. split; [|split; [|split]].
    + intros k c. by rewrite map_lookup_filter_Some.
    + unfold comments_total. apply map_size_empty_iff, map_empty_filter.
      intros k c [Hk Hpost]%map_lookup_filter_Some. simpl in *. tauto.
    + intros other Hother. unfold comments_total. f_equal.
      apply map_filter_strong_ext. intros k c. rewrite map_lookup_filter_Some.
      simpl. split; [tauto|]. intros ((Hpost & ? & ?) & Hk).
      repeat split; try done. congruence.
    + intros c. unfold replies_total. apply map_subseteq_size.
      apply map_filter_subseteq_mono, map_filter_subseteq.
Qed.


Lemma delete_post_cascade_witness :
  ∃ db', delete_post bob "p" blog discussion
         = (post_deleted, delete "p" blog, db')
    ∧ db' !! "c1" = None ∧ db' !! "c3" = Some aside.
Proof.
  destruct (proj2 (proj2 (delete_post_cascade bob "p" blog discussion)
                     liked_post ltac:(vm_compute; reflexivity))
              (or_introl eq_refl)) as (db' & Heq & Hkept & _).
  exists db'. split; [exact Heq|]. split.
  - destruct (db' !! "c1") as [c|] eqn:Hc; [|done].
    apply Hkept in Hc as [Hc Hpost]. vm_compute in Hc. injection Hc as <-.
    exfalso. apply Hpost. reflexivity.
  - apply Hkept. split; [vm_compute; reflexivity|done].
Defined.

End CommentThreadsTheory.

(** ** The route tables *)
Module RoutingTheory.
Import Routing.

Ltac route_cases :=
  repeat (case_decide || case_match || simplify_eq/= || done).

Lemma posts_get_one_segment (seg : string) :
  seg ≠ "" → dispatch posts_routes GET [seg] = Some (get_post, [("id", seg)]).
Proof. intros Hseg. simpl. by rewrite decide_False. Qed.

Lemma users_get_one_segment (seg : string) :
  seg ≠ "" → dispatch users_routes GET [seg] = Some (get_profile, [("username", seg)]).
Proof. intros Hseg. simpl. by rewrite decide_False. Qed.

Lemma get_categories_shadowed (m : Method) (path : list string) params :
  dispatch posts_routes m path ≠ Some (get_categories, params).
Proof.
  destruct m; destruct path as [|x [|y [|z path]]]; simpl; route_cases.
Qed.


Lemma users_search_shadowed (m : Method) (path : list string) params :
  dispatch users_routes m path ≠ Some (search_users, params)
  ∧ dispatch users_routes m path ≠ Some (user_suggestions, params).
Proof.
  split; destruct m; destruct path as [|x [|y [|z path]]]; simpl; route_cases.
Qed.

Lemma mounted_Some {H} prefix (routes : list (Route H)) target m path t :
  mounted prefix routes target m path = Some t →
  ∃ rest h params, below prefix path = Some rest
    ∧ dispatch routes m rest = Some (h, params) ∧ t = target h params.
Proof.
  unfold mounted. destruct (below prefix path) as [rest|]; [|done]. simpl.
  destruct (dispatch routes m rest) as [[h params]|] eqn:Hd; [|done]. simpl.
  intros [= <-]. by exists rest, h, params.
Qed.

(** A request the application hands to a router is one the router's table
    answers with that handler. *)
Lemma app_target (m : Method) (path : list string) :
  match app m path with
  | posts h params => ∃ rest, dispatch posts_routes m rest = Some (h, params)
  | users h params => ∃ rest, dispatch users_routes m rest = Some (h, params)
  | friends h params => ∃ rest, dispatch friends_routes m rest = Some (h, params)
  | comments h params => ∃ rest, dispatch comments_routes m rest = Some (h, params)
  | _ => True
  end.
Proof.
  unfold app.
  destruct (below ["api"; "auth"] path); [done|].
  destruct (mounted _ posts_routes _ _ _) as [t|] eqn:Hp.
  { apply mounted_Some in Hp as (rest & h & params & _ & Hd & ->). eauto. }
  destruct (mounted _ users_routes _ _ _) as [t|] eqn:Hu.
  { apply mounted_Some in Hu as (rest & h & params & _ & Hd & ->). eauto. }
  destruct (mounted _ friends_routes _ _ _) as [t|] eqn:Hf.
  { apply mounted_Some in Hf as (rest & h & params & _ & Hd & ->). eauto. }
  destruct (mounted _ comments_routes _ _ _) as [t|] eqn:Hc.
  { apply mounted_Some in Hc as (rest & h & params & _ & Hd & ->). eauto. }
  destruct (below ["uploads"] path); [done|]. by case_decide.
Qed.

(** Property X19. In the route tables as registered, a handler answers
    some request iff no earlier route shadows it. GET /api/posts/categories,
    GET /api/users/search and GET /api/users/suggestions are never reached:
    the one-segment routes GET /:id and GET /:username are registered before
    them and answer every such request, with the segment as [id] or
    [username]. Every other route of the posts, users, friends and comments
    routers answers some request. *)
Theorem shadowed_routes_never_answer :
  (∀ h, (∃ m path params, app m path = posts h params) ↔ h ≠ get_categories)
  ∧ (∀ h, (∃ m path params, app m path = users h params)
          ↔ h ≠ search_users ∧ h ≠ user_suggestions)
  ∧ (∀ h, ∃ m path params, app m path = friends h params)
  ∧ (∀ h, ∃ m path params, app m path = comments h params)
  ∧ (∀ seg, seg ≠ "" →
       app GET ["api"; "posts"; seg] = posts get_post [("id", seg)]
       ∧ app GET ["api"; "users"; seg] = users get_profile [("username", seg)]).
Proof.
  split; [|split; [|split; [|split]]].
  - intros h. split.
    + intros (m & path & params & Happ) ->.
      pose proof (app_target m path) as Ht. rewrite Happ in Ht.
      destruct Ht as [rest Hd]. by apply get_categories_shadowed in Hd.
    + intros Hh. destruct h; try done.
      * by exists GET, ["api"; "posts"], [].
      * by exists GET, ["api"; "posts"; "x"], [("id", "x")].
      * by exists POST, ["api"; "posts"], [].
      * by exists PUT, ["api"; "posts"; "x"], [("id", "x")].
      * by exists DELETE, ["api"; "posts"; "x"], [("id", "x")].
      * by exists POST, ["api"; "posts"; "x"; "like"], [("id", "x")].
      * by exists POST, ["api"; "posts"; "x"; "share"], [("id", "x")].
      * by exists POST, ["api"; "posts"; "upload-image"], [].
      * by exists GET, ["api"; "posts"; "user"; "x"], [("userId", "x")].
  - intros h. split.
    + intros (m & path & params & Happ).
      pose proof (app_target m path) as Ht. rewrite Happ in Ht.
      destruct Ht as [rest Hd].
      split; intros ->; by apply users_search_shadowed in Hd.
    + intros [Hs Hu]. destruct h; try done.
      * by exists GET, ["api"; "users"; "x"], [("username", "x")].
      * by exists POST, ["api"; "users"; "x"; "follow"], [("userId", "x")].
      * by exists DELETE, ["api"; "users"; "x"; "follow"], [("userId", "x")].
      * by exists GET, ["api"; "users"; "x"; "followers"], [("userId", "x")].
      * by exists GET, ["api"; "users"; "x"; "following"], [("userId", "x")].
  - intros h. destruct h.
    + by exists POST, ["api"; "friends"; "request"; "x"], [("userId", "x")].
    + by exists PUT, ["api"; "friends"; "accept"; "x"], [("userId", "x")].
    + by exists PUT, ["api"; "friends"; "reject"; "x"], [("userId", "x")].
    + by exists DELETE, ["api"; "friends"; "x"], [("userId", "x")].
    + by exists GET, ["api"; "friends"; "requests"], [].
    + by exists GET, ["api"; "friends"; "requests"; "sent"], [].
    + by exists GET, ["api"; "friends"], [].
    + by exists DELETE, ["api"; "friends"; "request"; "x"], [("userId", "x")].
    + by exists GET, ["api"; "friends"; "suggestions"], [].
  - intros h. destruct h.
    + by exists GET, ["api"; "comments"; "post"; "x"], [("postId", "x")].
    + by exists POST, ["api"; "comments"], [].
    + by exists PUT, ["api"; "comments"; "x"], [("id", "x")].
    + by exists DELETE, ["api"; "comments"; "x"], [("id", "x")].
    + by exists POST, ["api"; "comments"; "x"; "like"], [("id", "x")].
    + by exists GET, ["api"; "comments"; "x"; "replies"], [("id", "x")].
  - intros seg Hseg. unfold app, mounted. simpl.
    split; rewrite decide_False by done; reflexivity.
Qed.

Lemma shadowed_routes_never_answer_witness :
  app GET ["api"; "posts"; "categories"] = posts get_post [("id", "categories")]
  ∧ app GET ["api"; "users"; "search"] = users get_profile [("username", "search")].
Proof.
  pose proof shadowed_routes_never_answer as (_ & _ & _ & _ & Hseg).
  split.
  - by apply (Hseg "categories").
  - by apply (Hseg "search").
Defined.

(** Property X20. server.js does not mount routes/messages.js: every
    request below /api/messages, in whatever letter case, ends at the 404
    handler 'Route not found', although each route of the messages router
    answers some request of the router. *)
Theorem messages_routes_not_mounted :
  (∀ m a b rest, lower a = "api" → lower b = "messages" →
     app m (a :: b :: rest) = route_not_found)
  ∧ (∀ h, ∃ m rest params, dispatch messages_routes m rest = Some (h, params)).
Proof.
  split.
  - intros m a b rest Ha Hb. unfold app, mounted. simpl. rewrite Ha, Hb. simpl.
    by case_decide as H; [destruct H|].
  - intros h. destruct h.
    + by exists GET, ["conversations"], [].
    + by exists GET, ["x"], [("userId", "x")].
    + by exists POST, ["x"], [("userId", "x")].
    + by exists PUT, ["x"; "read"], [("userId", "x")].
    + by exists GET, ["unread"; "count"], [].
Qed.


Lemma messages_routes_not_mounted_witness :
  app POST ["api"; "messages"; "B"] = route_not_found.
Proof.
  exact (proj1 messages_routes_not_mounted POST "api" "messages" ["B"]
           eq_refl eq_refl).
Defined.

End RoutingTheory.

(** ** The follow graph *)
Module FollowsTheory.
Import Follows FollowsProps.

(** Every instance of the mirror property on the records at hand. *)
Ltac mirror_facts Hm :=
  repeat match goal with
  | Ha : ?db !! ?a = Some ?ua, Hb : ?db !! ?b = Some ?ub |- _ =>
    lazymatch goal with
    | _ : (b ∈ following ua ↔ a ∈ followers ub) |- _ => fail
    | _ => pose proof (Hm a b ua ub Ha Hb)
    end
  | Ha : ?db !! ?a = Some ?ua |- _ =>
    lazymatch goal with
    | _ : (a ∈ following ua ↔ a ∈ followers ua) |- _ => fail
    | _ => pose proof (Hm a a ua ua Ha Ha)
    end
  end.

Ltac follow_pairs me t Hm :=
  let a := fresh "a" in let b := fresh "b" in
  let ua := fresh "ua" in let ub := fresh "ub" in
  let Ha := fresh "Ha" in let Hb := fresh "Hb" in
  intros a b ua ub Ha Hb;
  destruct (decide (a = t)), (decide (b = t)),
    (decide (a = me)), (decide (b = me));
  simplify_map_eq;
  rewrite ?elem_of_app, ?list_elem_of_singleton, ?list_elem_of_filter;
  mirror_facts Hm; intuition congruence.

(** The two pushes of a follow land on two records when the users differ. *)
Lemma follow_writes (db : gmap UserId User) (me target : UserId)
    (cu tu : User) :
  target ≠ me → db !! me = Some cu → db !! target = Some tu →
  alter (push_follower me) target (alter (push_following target) me db)
  = <[target := push_follower me tu]> (<[me := push_following target cu]> db).
Proof.
  intros Hne Hc Ht. apply map_eq. intros k.
  destruct (decide (k = target)) as [->|Hk].
  - by rewrite lookup_alter_eq, lookup_alter_ne, lookup_insert_eq, Ht.
  - rewrite lookup_alter_ne, (lookup_insert_ne _ target k) by done.
    destruct (decide (k = me)) as [->|Hk'].
    + by rewrite lookup_alter_eq, lookup_insert_eq, Hc.
    + by rewrite lookup_alter_ne, lookup_insert_ne.
Qed.

(** A follow keeps the mirror, however the id is spelled and whoever it
    names. *)
Lemma follow_user_mirrored (me : UserId) (userId : IdParam)
    (db : gmap UserId User) :
  mirrored db → mirrored (follow_user me userId db).2.
Proof.
  intros Hm. unfold follow_user, push_follower, push_following.
  destruct (decide (spelling userId = me)) as [Heq|Hne]; [done|].
  destruct (objectId userId) as [target|]; [|done].
  destruct (db !! target) as [tu|] eqn:Ht; [|done].
  destruct (db !! me) as [cu|] eqn:Hc; [|done].
  destruct (decide (spelling userId ∈ following cu)) as [Hin|Hnin]; [done|].
  simpl. follow_pairs me target Hm.
Qed.

Lemma follow_user_keeps (me : UserId) (userId : IdParam)
    (db : gmap UserId User) :
  spelled_as_stored userId →
  mirrored db → no_self db →
  mirrored (follow_user me userId db).2 ∧ no_self (follow_user me userId db).2.
Proof.
  intros Hsp Hm Hs. split; [by apply follow_user_mirrored|].
  unfold follow_user, push_follower, push_following.
  destruct (decide (spelling userId = me)) as [Heq|Hne]; [done|].
  destruct (objectId userId) as [target|] eqn:Hcast; [|done].
  rewrite (Hsp target Hcast) in Hne.
  destruct (db !! target) as [tu|] eqn:Ht; [|done].
  destruct (db !! me) as [cu|] eqn:Hc; [|done].
  destruct (decide (spelling userId ∈ following cu)) as [Hin|Hnin]; [done|].
  simpl. intros a ua Ha. pose proof (Hs _ _ Ht). pose proof (Hs _ _ Hc).
  destruct (decide (a = target)), (decide (a = me)); simplify_map_eq;
    rewrite ?elem_of_app, ?list_elem_of_singleton; try done.
  - intuition congruence.
  - by apply (Hs a).
Qed.

Lemma unfollow_user_keeps (me : UserId) (userId : IdParam)
    (db : gmap UserId User) :
  spelled_as_stored userId →
  mirrored db → no_self db →
  mirrored (unfollow_user me userId db).2
  ∧ no_self (unfollow_user me userId db).2.
Proof.
  intros Hsp Hm Hs. unfold unfollow_user.
  destruct (objectId userId) as [target|] eqn:Hcast; [|done].
  rewrite (Hsp target Hcast).
  destruct (db !! target) as [tu|] eqn:Ht; [|done].
  destruct (db !! me) as [cu|] eqn:Hc; [|done].
  destruct (decide (target ∉ following cu)) as [Hnin|Hin]; [done|].
  apply dec_stable in Hin.
  assert (Hne : target ≠ me).
  { intros ->. by apply (Hs _ _ Hc). }
  rewrite decide_False by done.
  simpl. split.
  - follow_pairs me target Hm.
  - intros a ua Ha. pose proof (Hs _ _ Ht). pose proof (Hs _ _ Hc).
    destruct (decide (a = target)), (decide (a = me)); simplify_map_eq;
      rewrite ?list_elem_of_filter; try done.
    + intuition congruence.
    + by apply (Hs a).
Qed.

(** Property X21. [following] and [followers] stay mirrored: from a
    collection in which, for all users a and b, b is in a's [following] iff
    a is in b's [followers], and in which nobody follows themselves, both
    still hold after any sequence of follows and unfollows, whatever the
    responses, provided the requests spell the ids as they are stored. A
    follow keeps the mirror under any spelling. *)
Theorem follow_graph_stays_mirrored (ops : list Operation)
    (db : gmap UserId User) :
  mirrored db →
  (Forall (λ op, ∃ me userId, op = Follow me userId) ops →
   mirrored (perform_all ops db))
  ∧ (Forall plainly_spelled ops → no_self db →
     mirrored (perform_all ops db) ∧ no_self (perform_all ops db)).
Proof.
  intros Hm. split.
  - revert db Hm. induction ops as [|op ops IH]; intros db Hm Hops; [done|].
    apply Forall_cons in Hops as [(me & userId & ->) Hops].
    simpl. apply IH; [|done]. by apply follow_user_mirrored.
  - revert db Hm.
    induction ops as [|op ops IH]; intros db Hm Hops Hs; [done|].
    apply Forall_cons in Hops as [Hop Hops].
    simpl. destruct op as [me t|me t]; simpl in *.
    + destruct (follow_user_keeps me t db Hop Hm Hs). by apply IH.
    + destruct (unfollow_user_keeps me t db Hop Hm Hs). by apply IH.
Qed.

Lemma filter_out_pushed (x : UserId) (l : list UserId) :
  x ∉ l → filter (λ id, id ≠ x) (l ++ [x]) = l.
Proof.
  intros Hx. rewrite filter_app, filter_cons_False, filter_nil, app_nil_r
    by (intros ?; done).
  induction l as [|y l IH]; [done|].
  apply not_elem_of_cons in Hx as [Hy Hx].
  rewrite filter_cons_True by done. f_equal. by apply IH.
Qed.

Lemma newcomers_lookup a ua : newcomers !! a = Some ua → ua = nobody.
Proof.
  unfold newcomers. rewrite !lookup_insert_Some, lookup_empty.
  intuition congruence.
Qed.

Lemma newcomers_mirrored : mirrored newcomers ∧ no_self newcomers.
Proof.
  split.
  - intros a b ua ub ->%newcomers_lookup ->%newcomers_lookup. simpl.
    split; intros H; by apply elem_of_nil in H.
  - intros a ua ->%newcomers_lookup H. by apply elem_of_nil in H.
Qed.

(** A follows B, C follows A, A unfollows B, the ids spelled as stored; A
    follows A and C under other spellings. *)
Lemma follow_graph_stays_mirrored_witness :
  mirrored (perform_all [Follow "A" (respelled "A" "a");
                         Follow "A" (respelled "C" "c")] newcomers)
  ∧ mirrored (perform_all [Follow "A" (stored "B"); Follow "C" (stored "A");
                           Unfollow "A" (stored "B")] newcomers)
  ∧ no_self (perform_all [Follow "A" (stored "B"); Follow "C" (stored "A");
                          Unfollow "A" (stored "B")] newcomers).
Proof.
  split.
  - apply (proj1 (follow_graph_stays_mirrored
             [Follow "A" (respelled "A" "a"); Follow "A" (respelled "C" "c")]
             newcomers (proj1 newcomers_mirrored))).
    repeat (apply Forall_cons_2; [by eexists _, _|]). apply Forall_nil_2.
  - apply (proj2 (follow_graph_stays_mirrored
             [Follow "A" (stored "B"); Follow "C" (stored "A");
              Unfollow "A" (stored "B")]
             newcomers (proj1 newcomers_mirrored)));
      [|apply newcomers_mirrored].
    repeat (apply Forall_cons_2; [by intros id [= <-]|]).
    apply Forall_nil_2.
Defined.

(** Under another spelling the caller's own id passes the self check: A
    follows A, and is in A's [following] and [followers]. *)
Example self_follow_through_respelling :
  follow_user "A" (stored "A") newcomers = (cannot_follow_yourself, newcomers)
  ∧ (follow_user "A" (respelled "A" "a") newcomers).1 = user_followed
  ∧ (follow_user "A" (respelled "A" "a") newcomers).2 !! "A"
    = Some {| following := ["A"]; followers := ["A"] |}
  ∧ ¬ no_self (follow_user "A" (respelled "A" "a") newcomers).2.
Proof.
  split; [vm_compute; reflexivity|]. split; [vm_compute; reflexivity|].
  assert (Hlook : (follow_user "A" (respelled "A" "a") newcomers).2 !! "A"
                  = Some {| following := ["A"]; followers := ["A"] |})
    by (vm_compute; reflexivity).
  split; [exact Hlook|].
  intros Hs. apply (Hs "A" _ Hlook). simpl. by left.
Qed.

(** Property X22. Unfollow undoes a follow, for an id spelled as stored. In
    a mirrored collection, after a follow of [userId] by [me] has
    succeeded, [me] follows [userId] and [userId] lists [me] as a follower,
    a second follow is refused with 'Already following this user', and the
    unfollow succeeds and gives back the collection as it was before the
    follow, where the unfollow is refused with 'Not following this user'.
    Under a spelling of [userId] that is in no [following] list the second
    follow is not refused, it pushes the two ids again, and the unfollow is
    refused with 'Not following this user'. *)
Theorem follow_unfollow_round_trip (me userId : UserId)
    (db db1 : gmap UserId User) :
  mirrored db →
  follow_user me (stored userId) db = (user_followed, db1) →
  (∃ cu tu, db1 !! me = Some cu ∧ userId ∈ following cu
            ∧ db1 !! userId = Some tu ∧ me ∈ followers tu)
  ∧ follow_user me (stored userId) db1 = (already_following, db1)
  ∧ unfollow_user me (stored userId) db1 = (user_unfollowed, db)
  ∧ unfollow_user me (stored userId) db = (not_following, db)
  ∧ (∀ as_sent cu, db1 !! me = Some cu → as_sent ≠ me →
       as_sent ∉ following cu →
       follow_user me (respelled userId as_sent) db1
       = (user_followed,
          alter (push_follower me) userId
            (alter (push_following userId) me db1))
       ∧ unfollow_user me (respelled userId as_sent) db1
         = (not_following, db1)).
Proof.
  intros Hm. unfold follow_user, stored. simpl.
  case_decide as Hne; [done|].
  unfold UserId in *.
  destruct (db !! userId) as [tu|] eqn:Ht; [|done].
  destruct (db !! me) as [cu|] eqn:Hc; [|done].
  case_decide as Hnin; [done|].
  pose proof (follow_writes db me userId cu tu Hne Hc Ht) as Hwrites.
  unfold UserId in Hwrites. rewrite Hwrites. clear Hwrites.
  intros [= <-].
  assert (Hnf : me ∉ followers tu) by (by rewrite <- (Hm _ _ _ _ Hc Ht)).
  split; [|split; [|split; [|split]]].
  - eexists _, _. rewrite lookup_insert_ne, !lookup_insert_eq by done. simpl.
    repeat split; try done; apply elem_of_app; right; left.
  - rewrite lookup_insert_eq, lookup_insert_ne, lookup_insert_eq by done.
    simpl. rewrite decide_True; [done|]. apply elem_of_app. right. left.
  - unfold unfollow_user, UserId. simpl.
    rewrite lookup_insert_eq, lookup_insert_ne, lookup_insert_eq by done.
    simpl. rewrite decide_False
      by (intros Hno; apply Hno, elem_of_app; right; left).
    rewrite decide_False by done.
    rewrite !filter_out_pushed by done. f_equal.
    apply map_eq. intros k.
    destruct (decide (k = userId)) as [->|Hk1];
      [by rewrite lookup_insert_eq, Ht; destruct tu|].
    rewrite lookup_insert_ne by done.
    destruct (decide (k = me)) as [->|Hk2];
      [by rewrite lookup_insert_eq, Hc; destruct cu|].
    by rewrite !lookup_insert_ne by done.
  - unfold unfollow_user, UserId. simpl. rewrite Ht, Hc. by rewrite decide_True.
  - intros as_sent cu1 Hcu1 Hme Hnot. unfold unfollow_user, UserId. simpl.
    rewrite decide_False by done.
    rewrite lookup_insert_eq, Hcu1.
    rewrite decide_False by done. by rewrite decide_True.
Qed.

(** A follows B and unfollows B; under another spelling of B's id a second
    follow of A is not refused. *)
Lemma follow_unfollow_round_trip_witness :
  unfollow_user "A" (stored "B") (follow_user "A" (stored "B") newcomers).2
  = (user_unfollowed, newcomers)
  ∧ (follow_user "A" (respelled "B" "b")
       (follow_user "A" (stored "B") newcomers).2).1 = user_followed
  ∧ (follow_user "A" (respelled "B" "b")
       (follow_user "A" (stored "B") newcomers).2).2 !! "A"
    = Some {| following := ["B"; "B"]; followers := [] |}.
Proof.
  assert (Hfollow : follow_user "A" (stored "B") newcomers
                    = (user_followed, (follow_user "A" (stored "B") newcomers).2))
    by (vm_compute; reflexivity).
  destruct (follow_unfollow_round_trip "A" "B" newcomers
              (follow_user "A" (stored "B") newcomers).2
              (proj1 newcomers_mirrored) Hfollow)
    as (_ & _ & Hback & _ & Hagain).
  split; [exact Hback|].
  assert (Hne : "b" ≠ "A") by discriminate.
  assert (Hnot : "b" ∉ ["B"]).
  { intros Hin. apply list_elem_of_singleton in Hin. discriminate Hin. }
  destruct (Hagain "b" {| following := ["B"]; followers := [] |}
              ltac:(vm_compute; reflexivity) Hne Hnot) as [Hsecond _].
  rewrite Hsecond. split; [reflexivity|]. vm_compute. reflexivity.
Defined.

(** An unfollow that names the caller's own record, which only a follow
    under another spelling can have put in [following]: the first [save]
    lands, the second is refused, and the mirror is broken. *)
Example self_unfollow_half_done :
  (unfollow_user "A" (stored "A")
     (follow_user "A" (respelled "A" "a") newcomers).2).1 = Friends.server_error
  ∧ (unfollow_user "A" (stored "A")
       (follow_user "A" (respelled "A" "a") newcomers).2).2 !! "A"
    = Some {| following := []; followers := ["A"] |}.
Proof. vm_compute. by split. Qed.

End FollowsTheory.

(** ** The populated lists *)
Module PopulatedListsTheory.
Import Paging PopulatedLists PopulatedListsProps.




End PopulatedListsTheory.

(** ** The posts of a user *)
Module UserPostsTheory.
Import PostModel PostRoutesProps UserPosts.




End UserPostsTheory.
